(** * Reverse-mode differentiation of Halide pipelines (src/src/Derivative.cpp)

    A shallow embedding of the passes of [Derivative.cpp]: the bounds
    inferencer ([get_min_max_bounds], [merge_bounds], [BoundsInferencer]),
    the two sorters ([FunctionSorter], [ExpressionSorter]) and the reverse
    accumulation visitor ([ReverseAccumulationVisitor]) with its driver
    [propagate_adjoints].

    Layout: Part I holds the data model and the embedded code, Part II the
    predicates of the statements, the invariants and the example programs,
    Part III the proofs, Part IV the statements on the example programs. *)

From Stdlib Require Import ZArith QArith List String Lia Lqa.
From stdpp Require Import gmap strings list fin_maps pretty.

Set Warnings "-register-all".
Local Open Scope Z_scope.

(* ===================================================================== *)
(** * Part I. Data model and embedded code                                *)
(* ===================================================================== *)

(** ** Outcomes

    The passes stop at the first failed check.  [internal_error] and
    [user_error] are Halide's two fatal streams, [assertion_failed] is a C
    [assert], [undefined_behaviour] an out-of-range [std::vector] access and
    [out_of_fuel] belongs to the embedding only (recursion through the
    function table is bounded by a counter). *)

Inductive Error :=
| internal_error (msg : string)
| user_error (msg : string)
| assertion_failed
| undefined_behaviour
| out_of_fuel.

Inductive Result (A : Type) :=
| Ok (a : A)
| Err (e : Error).
Arguments Ok {A} a.
Arguments Err {A} e.

#[global] Instance Result_ret : MRet Result := fun A a => Ok a.
#[global] Instance Result_bind : MBind Result := fun A B f m =>
  match m with Ok a => f a | Err e => Err e end.

Definition is_Ok {A} (r : Result A) : Prop := exists a, r = Ok a.

(** A loop [for (x : l) body(x)] over a state, stopping at the first error. *)
Fixpoint foldM {A S} (body : A -> S -> Result S) (l : list A) (st : S) : Result S :=
  match l with
  | [] => Ok st
  | x :: l' => st' ← body x st; foldM body l' st'
  end.

(** ** Expressions

    [IRNode X] is the closed set of node kinds, over the type [X] of the
    operand handles.  The binary node classes of Halide (Add, Sub, ..., Or)
    share one constructor and are told apart by [BinaryOp], which plays the
    role of [node_type]. *)

Abbreviation addr := positive (only parsing).

Inductive HalideType := Int32 | Float32 | Bool1.

Inductive BinaryOp :=
| Add | Sub | Mul | Div | Mod | Min | Max
| EQ | NE | LT | LE | GT | GE | And | Or.

Inductive CallType := Image | Extern | PureExtern | Halide | Intrinsic | PureIntrinsic.

#[global] Instance BinaryOp_eq_dec : EqDecision BinaryOp.
Proof. solve_decision. Defined.
#[global] Instance CallType_eq_dec : EqDecision CallType.
Proof. solve_decision. Defined.

(** One dimension of a reduction domain: [ReductionVariable] of Reduction.h. *)
Record ReductionVariable (X : Type) := mkRV { rv_var : string; rv_min : X; rv_extent : X }.
Arguments mkRV {X} _ _ _.
Arguments rv_var {X} _.
Arguments rv_min {X} _.
Arguments rv_extent {X} _.

Inductive IRNode (X : Type) : Type :=
| IntImm (value : Z)
| FloatImm (value : Q)
| Cast (t : HalideType) (value : X)
| Variable_ (name : string) (reduction_domain : option (list (ReductionVariable X)))
| Binary (op : BinaryOp) (a b : X)
| Not (a : X)
| Select (condition true_value false_value : X)
| Call (name : string) (args : list X) (call_type : CallType) (func : option string)
| Let_ (name : string) (value body : X).
Arguments IntImm {X} value.
Arguments FloatImm {X} value.
Arguments Cast {X} t value.
Arguments Variable_ {X} name reduction_domain.
Arguments Binary {X} op a b.
Arguments Not {X} a.
Arguments Select {X} condition true_value false_value.
Arguments Call {X} name args call_type func.
Arguments Let_ {X} name value body.

(** [Expr]: a handle on a node of the input graph.  [get e] is the address
    [e.get()] of the node; two handles with one address are the same node.
    A function is referred to by its name ([func] of a [Call]). *)
Inductive Expr := MkExpr (get_ptr : addr) (node_of : IRNode Expr).
Arguments MkExpr get_ptr%_positive node_of.

Definition get (e : Expr) : addr := match e with MkExpr p _ => p end.
Definition node (e : Expr) : IRNode Expr := match e with MkExpr _ n => n end.

(** [SymExpr]: an expression built by the passes themselves (a bound, an
    adjoint).  Such nodes are never used as keys, so their addresses are not
    recorded. *)
Inductive SymExpr := Sym (snode : IRNode SymExpr).

Definition snode (e : SymExpr) : IRNode SymExpr := match e with Sym n => n end.

Definition rv_map {X Y} (f : X -> Y) (r : ReductionVariable X) : ReductionVariable Y :=
  mkRV (rv_var r) (f (rv_min r)) (f (rv_extent r)).

Definition IRNode_map {X Y} (f : X -> Y) (n : IRNode X) : IRNode Y :=
  match n with
  | IntImm v => IntImm v
  | FloatImm v => FloatImm v
  | Cast t v => Cast t (f v)
  | Variable_ x d => Variable_ x (option_map (List.map (rv_map f)) d)
  | Binary o a b => Binary o (f a) (f b)
  | Not a => Not (f a)
  | Select c t e => Select (f c) (f t) (f e)
  | Call x args ct fn => Call x (List.map f args) ct fn
  | Let_ x v b => Let_ x (f v) (f b)
  end.

(** Using a node of the input graph inside a new expression. *)
Fixpoint erase (e : Expr) : SymExpr :=
  match e with MkExpr _ n => Sym (IRNode_map erase n) end.

(** The operands a visitor reaches from a node, in visiting order. *)
Definition children {X} (n : IRNode X) : list X :=
  match n with
  | IntImm _ | FloatImm _ | Variable_ _ _ => []
  | Cast _ v => [v]
  | Binary _ a b => [a; b]
  | Not a => [a]
  | Select c t f => [c; t; f]
  | Call _ args _ _ => args
  | Let_ _ v b => [v; b]
  end.

(** ** Operators of IROperator.h, as far as the passes use them *)

Definition mk_int (z : Z) : SymExpr := Sym (IntImm z).
Definition mk_float (q : Q) : SymExpr := Sym (FloatImm q).
Definition mk_var (x : string) : SymExpr := Sym (Variable_ x None).
Definition binop (o : BinaryOp) (a b : SymExpr) : SymExpr := Sym (Binary o a b).
Definition select (c t f : SymExpr) : SymExpr := Sym (Select c t f).
(** Unary minus is [0 - a]; adjoints are Float(32) expressions. *)
Definition neg (a : SymExpr) : SymExpr := binop Sub (mk_float 0) a.
(** [exp] on a Float(32) argument. *)
Definition exp (a : SymExpr) : SymExpr := Sym (Call "exp_f32" [a] PureExtern None).

Declare Scope expr_scope.
Delimit Scope expr_scope with E.
Bind Scope expr_scope with SymExpr.
Infix "+" := (binop Add) : expr_scope.
Infix "-" := (binop Sub) : expr_scope.
Infix "*" := (binop Mul) : expr_scope.
Infix "/" := (binop Div) : expr_scope.
Infix "<=" := (binop LE) : expr_scope.
Infix ">=" := (binop GE) : expr_scope.
Infix "==" := (binop EQ) (at level 70, no associativity) : expr_scope.
Notation "- a" := (neg a) : expr_scope.

(** ** Values of expressions

    A reading of the arithmetic over the rationals, for statements about
    what a bound or an adjoint evaluates to.  Booleans are [1] and [0];
    casts, calls and [Mod] are not interpreted. *)

Definition Q_of_bool (b : bool) : Q := if b then 1%Q else 0%Q.

Definition eval_binop (o : BinaryOp) (x y : Q) : option Q :=
  match o with
  | Add => Some (x + y)%Q
  | Sub => Some (x - y)%Q
  | Mul => Some (x * y)%Q
  | Div => if Qeq_bool y 0 then None else Some (x / y)%Q
  | Mod => None
  | Min => Some (if Qle_bool x y then x else y)
  | Max => Some (if Qle_bool x y then y else x)
  | EQ => Some (Q_of_bool (Qeq_bool x y))
  | NE => Some (Q_of_bool (negb (Qeq_bool x y)))
  | LT => Some (Q_of_bool (negb (Qle_bool y x)))
  | LE => Some (Q_of_bool (Qle_bool x y))
  | GT => Some (Q_of_bool (negb (Qle_bool x y)))
  | GE => Some (Q_of_bool (Qle_bool y x))
  | And => Some (Q_of_bool (negb (Qeq_bool x 0) && negb (Qeq_bool y 0)))
  | Or => Some (Q_of_bool (negb (Qeq_bool x 0) || negb (Qeq_bool y 0)))
  end.

Fixpoint eval (rho : string -> option Q) (e : SymExpr) : option Q :=
  match e with
  | Sym n =>
    match n with
    | IntImm z => Some (inject_Z z)
    | FloatImm q => Some q
    | Cast _ _ => None
    | Variable_ x _ => rho x
    | Binary o a b =>
        match eval rho a, eval rho b with
        | Some x, Some y => eval_binop o x y
        | _, _ => None
        end
    | Not a =>
        match eval rho a with
        | Some x => Some (Q_of_bool (Qeq_bool x 0))
        | None => None
        end
    | Select c t f =>
        match eval rho c with
        | Some x => if Qeq_bool x 0 then eval rho f else eval rho t
        | None => None
        end
    | Call _ _ _ _ => None
    | Let_ x v b =>
        match eval rho v with
        | Some y => eval (fun z => if String.eqb z x then Some y else rho z) b
        | None => None
        end
    end
  end.

(** ** Substitution and variable search *)

(** Modelled from the spec: the substitution operator of Substitute.h, which
    is not under src/ (§6: it replaces every free occurrence of a named
    variable inside an expression with another expression).  A [Let_] of the
    same name hides the variable in its body. *)
Fixpoint substitute (name : string) (replacement : SymExpr) (e : SymExpr) : SymExpr :=
  match e with
  | Sym n =>
    match n with
    | IntImm _ | FloatImm _ => e
    | Cast t v => Sym (Cast t (substitute name replacement v))
    | Variable_ x _ => if decide (x = name) then replacement else e
    | Binary o a b => Sym (Binary o (substitute name replacement a) (substitute name replacement b))
    | Not a => Sym (Not (substitute name replacement a))
    | Select c t f =>
        Sym (Select (substitute name replacement c) (substitute name replacement t)
                    (substitute name replacement f))
    | Call x args ct fn => Sym (Call x (List.map (substitute name replacement) args) ct fn)
    | Let_ x v b =>
        Sym (Let_ x (substitute name replacement v)
                  (if decide (x = name) then b else substitute name replacement b))
    end
  end.

(** [VariableFinder::find].  Its [visit(Variable)] is the one of the source;
    the walk itself is the default one of the visitor base class, which
    reaches every operand of every node (the set of visited addresses of
    that class only spares a second walk of a shared node). *)
Fixpoint VariableFinder_find (expr : SymExpr) (var_name : string) : bool :=
  match expr with
  | Sym n =>
    match n with
    | IntImm _ | FloatImm _ => false
    | Variable_ x _ => bool_decide (x = var_name)
    | Cast _ v => VariableFinder_find v var_name
    | Binary _ a b => VariableFinder_find a var_name || VariableFinder_find b var_name
    | Not a => VariableFinder_find a var_name
    | Select c t f =>
        VariableFinder_find c var_name || VariableFinder_find t var_name
        || VariableFinder_find f var_name
    | Call _ args _ _ => existsb (fun a => VariableFinder_find a var_name) args
    | Let_ _ v b => VariableFinder_find v var_name || VariableFinder_find b var_name
    end
  end.

(** ** Reduction domains, functions, keys *)

(** [RDom]: the dimensions of a reduction domain; [RDom()] is the empty one. *)
Abbreviation RDom := (list (ReductionVariable SymExpr)) (only parsing).

Definition dim_suffix (i : nat) : string :=
  match i with
  | 0%nat => "x" | 1%nat => "y" | 2%nat => "z" | 3%nat => "w"
  | _ => pretty i
  end.

(** [RDom(ranges)] of Halide's RDom.h (not under src/): each pair is stored
    as the (min, extent) of one dimension, named after the domain.  Halide
    draws the name of the domain from a counter; the embedding takes it as
    an argument. *)
Definition RDom_of_ranges (name : string) (ranges : list (SymExpr * SymExpr)) : RDom :=
  imap (fun i r => mkRV (name +:+ "$" +:+ dim_suffix i) r.1 r.2) ranges.

(** [RDom::operator Expr] of Halide's RDom.h (not under src/), the
    conversion the compiler inserts where a domain is passed for an
    expression: only a one-dimensional domain converts, to its reduction
    variable; any other is a user error. *)
Definition RDom_as_Expr (d : RDom) : Result SymExpr :=
  match d with
  | [r] => Ok (Sym (Variable_ (rv_var r) (Some d)))
  | _ => Err (user_error "Can't treat this multidimensional RDom as an Expr")
  end.

(** A function of the pipeline: its name, domain variables, the value of
    its initialization and the values of its update stages. *)
Record Function := mkFunction {
  fn_name : string;
  fn_args : list string;
  fn_value : Expr;
  fn_updates : list Expr
}.

(** [FuncKey]: function name and update id, [-1] for the initialization. *)
Abbreviation FuncKey := (string * Z)%type (only parsing).
Abbreviation FuncBounds := (list (SymExpr * SymExpr)) (only parsing).

Definition num_update_definitions (f : Function) : Z := Z.of_nat (length (fn_updates f)).

(** [update_id >= 0 ? func.update_value(update_id) : func.value()] *)
Definition stage_value (f : Function) (update_id : Z) : Result Expr :=
  if decide (0 <= update_id) then
    match fn_updates f !! Z.to_nat update_id with
    | Some e => Ok e
    | None => Err undefined_behaviour
    end
  else Ok (fn_value f).

(** [for (update_id = k - 1; update_id >= -1; update_id--) body(update_id)] *)
Fixpoint stage_loop {S} (body : Z -> S -> Result S) (k : nat) (st : S) : Result S :=
  st' ← body (Z.of_nat k - 1) st;
  match k with
  | O => Ok st'
  | Datatypes.S k' => stage_loop body k' st'
  end.

(** The key a call to [fname] is charged to, from inside the stage
    [current]: the previous stage of the function itself, the last stage of
    any other function. *)
Definition target_key (current : FuncKey) (fname : string) (num_updates : Z) : FuncKey :=
  if decide (current.1 = fname) then (fname, current.2 - 1) else (fname, num_updates - 1).

(** A function the pass defines ([Func]): adjoint accumulators. *)
Record Func := mkFunc {
  func_name : string;
  func_args : list string;
  func_value : option SymExpr;
  func_updates : list (list SymExpr * SymExpr)
}.

Record SolverResult := mkSolverResult { result : SymExpr; fully_solved : bool }.

(** The collaborators of §6 that the passes call and that are not under
    src/: the simplifier, the equation solver and the boundary wrapper. *)
Class Externals := {
  simplify : SymExpr -> SymExpr;
  solve_expression : SymExpr -> string -> SolverResult;
  constant_exterior : Func -> SymExpr -> list (SymExpr * SymExpr) -> Func
}.

(** ** Visiting the operands of a node

    The default [visit] of the visitor base classes: each operand in turn.
    [rec] is [accept] for an [IRVisitor] and [include] for an
    [IRGraphVisitor]. *)
Definition visit_children {S} (rec : Expr -> S -> Result S) (n : IRNode Expr) (st : S) : Result S :=
  match n with
  | IntImm _ | FloatImm _ | Variable_ _ _ => Ok st
  | Cast _ v => rec v st
  | Binary _ a b => st1 ← rec a st; rec b st1
  | Not a => rec a st
  | Select c t f => st1 ← rec c st; st2 ← rec t st1; rec f st2
  | Call _ args _ _ => foldM rec args st
  | Let_ _ v b => st1 ← rec v st; rec b st1
  end.

(** ** Bounds inference *)

(** The position of the first entry of [current_args] named [name]. *)
Fixpoint first_index (current_args : list string) (name : string) : option nat :=
  match current_args with
  | [] => None
  | x :: rest => if decide (x = name) then Some 0%nat else Datatypes.S <$> first_index rest name
  end.

Definition unhandled : Error := internal_error "Can't infer bounds, Expr type not handled".

(** [index] is the position of the argument in its call.  The domain of a
    reduction variable is a plain vector, read at [index] whatever the
    variable is.  [current_bounds[i]] is [RDom::operator[]] of Halide's
    RDom.h (not under src/): within the dimensions of the domain it is the
    [i]-th variable; beyond them the embedding answers with a user error,
    and no statement below depends on that answer. *)
Fixpoint get_min_max_bounds (expr : SymExpr) (current_args : list string)
    (current_bounds : RDom) (index : nat) : Result (SymExpr * SymExpr) :=
  match expr with
  | Sym n =>
    match n with
    | Binary Add a b =>
        a_bounds ← get_min_max_bounds a current_args current_bounds index;
        b_bounds ← get_min_max_bounds b current_args current_bounds index;
        Ok ((a_bounds.1 + b_bounds.1)%E, (a_bounds.2 + b_bounds.2)%E)
    | Binary Sub a b =>
        a_bounds ← get_min_max_bounds a current_args current_bounds index;
        b_bounds ← get_min_max_bounds b current_args current_bounds index;
        Ok ((a_bounds.1 - b_bounds.2)%E, (a_bounds.2 - b_bounds.1)%E)
    | Variable_ name (Some domain) =>
        match domain !! index with
        | Some rvar => Ok (rv_min rvar, (rv_min rvar + rv_extent rvar - mk_int 1)%E)
        | None => Err undefined_behaviour
        end
    | Variable_ name None =>
        match first_index current_args name with
        | Some i =>
            match current_bounds !! i with
            | Some rvar => Ok (rv_min rvar, rv_extent rvar)
            | None => Err (user_error "Reduction domain index out of bounds")
            end
        | None => Err unhandled
        end
    | Binary Max a b =>
        a_bounds ← get_min_max_bounds a current_args current_bounds index;
        b_bounds ← get_min_max_bounds b current_args current_bounds index;
        Ok (binop Max a_bounds.1 b_bounds.1, binop Max a_bounds.2 b_bounds.2)
    | Binary Min a b =>
        a_bounds ← get_min_max_bounds a current_args current_bounds index;
        b_bounds ← get_min_max_bounds b current_args current_bounds index;
        Ok (binop Min a_bounds.1 b_bounds.1, binop Min a_bounds.2 b_bounds.2)
    | IntImm _ => Ok (expr, expr)
    | _ => Err unhandled
    end
  end.

Section BoundsInference.
Context `{Externals}.

Definition merge_bounds (bounds0 bounds1 : SymExpr * SymExpr) : SymExpr * SymExpr :=
  (simplify (binop Min bounds0.1 bounds1.1), simplify (binop Max bounds0.2 bounds1.2)).

Record BoundsInferencer := mkBI {
  bi_recursion_depth : Z;
  bi_func_bounds : gmap FuncKey FuncBounds;
  bi_current_func_key : FuncKey;
  bi_current_args : list string;
  bi_current_bounds : RDom
}.

(** [get_func_bounds]: every (min, max) pair becomes (lower bound, extent). *)
Definition min_extent (b : SymExpr * SymExpr) : SymExpr * SymExpr :=
  let lower_bound := simplify b.1 in
  (lower_bound, simplify (b.2 - lower_bound + mk_int 1)%E).

Definition get_func_bounds (bi : BoundsInferencer) : gmap FuncKey RDom :=
  (fun b => RDom_of_ranges "r" (List.map min_extent b)) <$> bi_func_bounds bi.

(** The first loop of [visit(Call)]: the bounds of the arguments, argument
    [i] with [index = i]. *)
Fixpoint call_arg_bounds (args : list Expr) (i : nat) (bi : BoundsInferencer) : Result FuncBounds :=
  match args with
  | [] => Ok []
  | a :: rest =>
      min_max_bounds ← get_min_max_bounds (erase a) (bi_current_args bi) (bi_current_bounds bi) i;
      more ← call_arg_bounds rest (Datatypes.S i) bi;
      Ok (min_max_bounds :: more)
  end.

(** "Update function bounds": the bounds of one call site are stored under
    the key of the call, merged with what the key already holds. *)
Definition update_function_bounds (key : FuncKey) (arg_bounds : FuncBounds)
    (bi : BoundsInferencer) : Result BoundsInferencer :=
  arg_bounds' ← match bi_func_bounds bi !! key with
                | Some prev_bounds =>
                    if decide (length arg_bounds = length prev_bounds)
                    then Ok (zip_with merge_bounds prev_bounds arg_bounds)
                    else Err assertion_failed
                | None => Ok arg_bounds
                end;
  Ok (mkBI (bi_recursion_depth bi) (<[key := arg_bounds']> (bi_func_bounds bi))
           (bi_current_func_key bi) (bi_current_args bi) (bi_current_bounds bi)).

Section Walk.
Variable env : gmap string Function.

(** [BoundsInferencer::visit(Call)] inside the walk of an expression;
    [inference] is [inference(const Func &)]. *)
Fixpoint BI_accept (inference : Function -> BoundsInferencer -> Result BoundsInferencer)
    (e : Expr) (bi : BoundsInferencer) : Result BoundsInferencer :=
  match e with
  | MkExpr _ n =>
    match n with
    | Call _ args Halide fn =>
        match fn ≫= (env !!.) with
        | None => Err undefined_behaviour
        | Some func =>
            arg_bounds ← call_arg_bounds args 0 bi;
            let key := target_key (bi_current_func_key bi) (fn_name func)
                                  (num_update_definitions func) in
            bi1 ← update_function_bounds key arg_bounds bi;
            if decide ((bi_current_func_key bi1).1 ≠ fn_name func) then
              bi2 ← inference func
                     (mkBI (bi_recursion_depth bi1 + 1) (bi_func_bounds bi1)
                           (bi_current_func_key bi1) (bi_current_args bi1) (bi_current_bounds bi1));
              Ok (mkBI (bi_recursion_depth bi2 - 1) (bi_func_bounds bi2)
                       (bi_current_func_key bi2) (bi_current_args bi2) (bi_current_bounds bi2))
            else Ok bi1
        end
    | _ => visit_children (BI_accept inference) n bi
    end
  end.

(** The head of the loop of [inference(const Func &)]: the context of the
    stage.  [func_bounds[key]] creates an empty entry when the key has
    none. *)
Definition BI_enter_stage (func : Function) (update_id : Z) (bi : BoundsInferencer)
    : BoundsInferencer :=
  let key : FuncKey := (fn_name func, update_id) in
  let stored := default [] (bi_func_bounds bi !! key) in
  mkBI (bi_recursion_depth bi) (<[key := stored]> (bi_func_bounds bi))
       key (fn_args func) (RDom_of_ranges "r" stored).

Definition BI_stage (accept : Expr -> BoundsInferencer -> Result BoundsInferencer)
    (func : Function) (update_id : Z) (bi : BoundsInferencer) : Result BoundsInferencer :=
  e ← stage_value func update_id;
  accept e (BI_enter_stage func update_id bi).

Fixpoint BI_inference_func (fuel : nat) (func : Function) (bi : BoundsInferencer)
    : Result BoundsInferencer :=
  match fuel with
  | O => Err out_of_fuel
  | Datatypes.S fuel' =>
      let previous_func_key := bi_current_func_key bi in
      let previous_bounds := bi_current_bounds bi in
      let previous_args := bi_current_args bi in
      bi' ← stage_loop (BI_stage (BI_accept (BI_inference_func fuel')) func)
                       (length (fn_updates func)) bi;
      Ok (mkBI (bi_recursion_depth bi') (bi_func_bounds bi')
               previous_func_key previous_args previous_bounds)
  end.

(** [inference(const Expr &)] *)
Definition BI_inference (fuel : nat) (expr : Expr) : Result BoundsInferencer :=
  BI_accept (BI_inference_func fuel) expr (mkBI 0 ∅ (EmptyString, -1) [] []).

End Walk.
End BoundsInference.

(** ** The expression sorter *)

(** The default visit of a graph visitor, for a visitor that cannot fail. *)
Definition visit_operands {S} (rec : Expr -> S -> S) (n : IRNode Expr) (st : S) : S :=
  match n with
  | IntImm _ | FloatImm _ | Variable_ _ _ => st
  | Cast _ v => rec v st
  | Binary _ a b => rec b (rec a st)
  | Not a => rec a st
  | Select c t f => rec f (rec t (rec c st))
  | Call _ args _ _ => fold_left (fun s a => rec a s) args st
  | Let_ _ v b => rec b (rec v st)
  end.

Record ExpressionSorter := mkES {
  es_visited : gset addr;
  es_expr_list : list Expr
}.

(** [e.accept(this)]: [ExpressionSorter::visit(Call)] for a call, the
    default visit otherwise; [include] is the sorter's own. *)
Definition ES_accept (include : Expr -> ExpressionSorter -> ExpressionSorter)
    (n : IRNode Expr) (st : ExpressionSorter) : ExpressionSorter :=
  match n with
  | Call _ args call_type _ =>
      if decide (call_type = Halide \/ call_type = Image) then st
      else fold_left (fun s a => include a s) args st
  | _ => visit_operands include n st
  end.

Fixpoint ES_include (e : Expr) (st : ExpressionSorter) : ExpressionSorter :=
  match e with
  | MkExpr p n =>
      if decide (p ∈ es_visited st) then st
      else
        let st1 := ES_accept ES_include n (mkES ({[p]} ∪ es_visited st) (es_expr_list st)) in
        mkES (es_visited st1) (es_expr_list st1 ++ [e])
  end.

(** [ExpressionSorter::sort] followed by [get_expr_list]. *)
Definition ES_sort (e : Expr) : list Expr :=
  es_expr_list (ES_accept ES_include (node e) (mkES ∅ [])) ++ [e].

(** ** The function sorter *)

Record FunctionSorter := mkFS {
  fs_visited : gset addr;
  fs_functions : list Function;
  fs_traversed_functions : gset string
}.

Section FunctionSorter.
Variable env : gmap string Function.

(** [e.accept(this)]: [FunctionSorter::visit(Call)] for a call, the default
    visit of the graph visitor otherwise.  [sort] is [sort(const Func &)]. *)
Definition FS_accept (sort : Function -> FunctionSorter -> Result FunctionSorter)
    (include : Expr -> FunctionSorter -> Result FunctionSorter)
    (n : IRNode Expr) (st : FunctionSorter) : Result FunctionSorter :=
  match n with
  | Call _ _ Halide fn =>
      match fn ≫= (env !!.) with
      | None => Err undefined_behaviour
      | Some func =>
          if decide (fn_name func ∈ fs_traversed_functions st) then Ok st
          else sort func st
      end
  | _ => visit_children include n st
  end.

(** [IRGraphVisitor::include] *)
Fixpoint FS_include (sort : Function -> FunctionSorter -> Result FunctionSorter)
    (e : Expr) (st : FunctionSorter) : Result FunctionSorter :=
  match e with
  | MkExpr p n =>
      if decide (p ∈ fs_visited st) then Ok st
      else FS_accept sort (FS_include sort) n
             (mkFS ({[p]} ∪ fs_visited st) (fs_functions st) (fs_traversed_functions st))
  end.

(** The first two statements of [sort(const Func &)]. *)
Definition FS_enter (func : Function) (st : FunctionSorter) : FunctionSorter :=
  mkFS (fs_visited st) (fs_functions st ++ [func])
       ({[fn_name func]} ∪ fs_traversed_functions st).

Definition FS_stage (sort : Function -> FunctionSorter -> Result FunctionSorter)
    (func : Function) (update_id : Z) (st : FunctionSorter) : Result FunctionSorter :=
  e ← stage_value func update_id;
  FS_accept sort (FS_include sort) (node e) st.

(** [FunctionSorter::sort(const Func &)] *)
Fixpoint FS_sort_func (fuel : nat) (func : Function) (st : FunctionSorter)
    : Result FunctionSorter :=
  match fuel with
  | O => Err out_of_fuel
  | Datatypes.S fuel' =>
      stage_loop (FS_stage (FS_sort_func fuel') func) (length (fn_updates func))
                 (FS_enter func st)
  end.

(** [FunctionSorter::sort(const Expr &)] on a new sorter, then
    [get_functions]. *)
Definition FS_sort (fuel : nat) (expr : Expr) : Result (list Function) :=
  st ← FS_accept (FS_sort_func fuel) (FS_include (FS_sort_func fuel)) (node expr)
                 (mkFS ∅ [] ∅);
  Ok (fs_functions st).

End FunctionSorter.

(** ** The reverse accumulation visitor *)

Record ReverseAccumulationVisitor := mkRA {
  ra_accumulated_adjoints : gmap addr SymExpr;
  ra_adjoint_funcs : gmap FuncKey Func;
  ra_let_var_mapping : gmap string Expr;
  ra_func_bounds : gmap FuncKey RDom;
  ra_current_func_key : FuncKey;
  ra_current_bounds : RDom
}.

Definition set_accumulated_adjoints (m : gmap addr SymExpr) (ra : ReverseAccumulationVisitor) :=
  mkRA m (ra_adjoint_funcs ra) (ra_let_var_mapping ra) (ra_func_bounds ra)
       (ra_current_func_key ra) (ra_current_bounds ra).
Definition set_adjoint_funcs (m : gmap FuncKey Func) (ra : ReverseAccumulationVisitor) :=
  mkRA (ra_accumulated_adjoints ra) m (ra_let_var_mapping ra) (ra_func_bounds ra)
       (ra_current_func_key ra) (ra_current_bounds ra).
Definition set_let_var_mapping (m : gmap string Expr) (ra : ReverseAccumulationVisitor) :=
  mkRA (ra_accumulated_adjoints ra) (ra_adjoint_funcs ra) m (ra_func_bounds ra)
       (ra_current_func_key ra) (ra_current_bounds ra).
Definition set_func_bounds (m : gmap FuncKey RDom) (ra : ReverseAccumulationVisitor) :=
  mkRA (ra_accumulated_adjoints ra) (ra_adjoint_funcs ra) (ra_let_var_mapping ra) m
       (ra_current_func_key ra) (ra_current_bounds ra).
Definition set_current (key : FuncKey) (bounds : RDom) (ra : ReverseAccumulationVisitor) :=
  mkRA (ra_accumulated_adjoints ra) (ra_adjoint_funcs ra) (ra_let_var_mapping ra)
       (ra_func_bounds ra) key bounds.

(** [ReverseAccumulationVisitor::accumulate] *)
Definition accumulate (stub : Expr) (adjoint : SymExpr)
    (ra : ReverseAccumulationVisitor) : ReverseAccumulationVisitor :=
  let stub_ptr := get stub in
  match ra_accumulated_adjoints ra !! stub_ptr with
  | None => set_accumulated_adjoints (<[stub_ptr := adjoint]> (ra_accumulated_adjoints ra)) ra
  | Some previous =>
      set_accumulated_adjoints
        (<[stub_ptr := (previous + adjoint)%E]> (ra_accumulated_adjoints ra)) ra
  end.

(** [assert(accumulated_adjoints.find(op) != accumulated_adjoints.end());
     Expr adjoint = accumulated_adjoints[op];] *)
Definition adjoint_of (op : Expr) (ra : ReverseAccumulationVisitor) : Result SymExpr :=
  match ra_accumulated_adjoints ra !! get op with
  | Some adjoint => Ok adjoint
  | None => Err assertion_failed
  end.

Definition RA_visit_Cast (op value : Expr) (ra : ReverseAccumulationVisitor) :=
  adjoint ← adjoint_of op ra;
  Ok (accumulate value adjoint ra).

Definition RA_visit_Variable (op : Expr) (name : string) (ra : ReverseAccumulationVisitor) :=
  adjoint ← adjoint_of op ra;
  match ra_let_var_mapping ra !! name with
  | Some value => Ok (accumulate value (Sym (Let_ name (erase value) adjoint)) ra)
  | None => Ok ra
  end.

Definition RA_visit_Add (op a b : Expr) (ra : ReverseAccumulationVisitor) :=
  adjoint ← adjoint_of op ra;
  Ok (accumulate b adjoint (accumulate a adjoint ra)).

Definition RA_visit_Sub (op a b : Expr) (ra : ReverseAccumulationVisitor) :=
  adjoint ← adjoint_of op ra;
  Ok (accumulate b (- adjoint)%E (accumulate a adjoint ra)).

Definition RA_visit_Mul (op a b : Expr) (ra : ReverseAccumulationVisitor) :=
  adjoint ← adjoint_of op ra;
  Ok (accumulate b (adjoint * erase a)%E (accumulate a (adjoint * erase b)%E ra)).

Definition RA_visit_Div (op a b : Expr) (ra : ReverseAccumulationVisitor) :=
  adjoint ← adjoint_of op ra;
  Ok (accumulate b (- adjoint * erase a / (erase b * erase b))%E
        (accumulate a (adjoint / erase b)%E ra)).

Definition RA_visit_Min (op a b : Expr) (ra : ReverseAccumulationVisitor) :=
  adjoint ← adjoint_of op ra;
  Ok (accumulate b (select (erase b <= erase a)%E adjoint (mk_float 0))
        (accumulate a (select (erase a <= erase b)%E adjoint (mk_float 0)) ra)).

Definition RA_visit_Max (op a b : Expr) (ra : ReverseAccumulationVisitor) :=
  adjoint ← adjoint_of op ra;
  Ok (accumulate b (select (erase b >= erase a)%E adjoint (mk_float 0))
        (accumulate a (select (erase a >= erase b)%E adjoint (mk_float 0)) ra)).

Definition RA_visit_Let (op : Expr) (name : string) (value body : Expr)
    (ra : ReverseAccumulationVisitor) :=
  adjoint ← adjoint_of op ra;
  let ra1 := accumulate body adjoint ra in
  Ok (set_let_var_mapping (<[name := value]> (ra_let_var_mapping ra1)) ra1).

(** [adjoint_funcs[key]]: a key with no entry gets a new, undefined [Func]. *)
Definition undefined_Func : Func := mkFunc "f" [] None [].

(** [func_to_update(args) += adjoint]: one more update definition; a
    function with no definition yet is first defined as zero. *)
Definition add_update (f : Func) (args : list string) (adjoint : SymExpr) : Func :=
  let lhs := List.map mk_var args in
  let self := Sym (Call (func_name f) lhs Halide (Some (func_name f))) in
  match func_value f with
  | Some _ =>
      mkFunc (func_name f) (func_args f) (func_value f)
             (func_updates f ++ [(lhs, (self + adjoint)%E)])
  | None => mkFunc (func_name f) args (Some (mk_float 0)) [(lhs, (self + adjoint)%E)]
  end.

Definition scatter (key : FuncKey) (args : list string) (adjoint : SymExpr)
    (ra : ReverseAccumulationVisitor) : ReverseAccumulationVisitor :=
  let func_to_update := default undefined_Func (ra_adjoint_funcs ra !! key) in
  set_adjoint_funcs (<[key := add_update func_to_update args adjoint]> (ra_adjoint_funcs ra)) ra.

Section ReverseAccumulation.
Context `{Externals}.
Variable env : gmap string Function.

(** One turn of the canonicalization loop of [visit(Call)]: [arg] is
    [op->args[i]] and [v] the name of [args[i]]. *)
Definition canonicalize_arg (current_bounds : RDom) (arg : Expr) (v : string)
    (adjoint : SymExpr) : Result SymExpr :=
  if negb (VariableFinder_find (erase arg) v) then
    adjoint1 ← (if VariableFinder_find adjoint v
                then r ← RDom_as_Expr current_bounds; Ok (substitute v r adjoint)
                else Ok adjoint);
    match node arg with
    | Variable_ x (Some _) => Ok (substitute x (mk_var v) adjoint1)
    | _ => Ok adjoint1
    end
  else
    let solved := solve_expression (mk_var "tmp" == erase arg)%E v in
    if fully_solved solved then
      match snode (result solved) with
      | Binary EQ _ result_rhs =>
          let inv := substitute "tmp" (mk_var v) result_rhs in
          Ok (substitute v inv adjoint)
      | _ => Err assertion_failed
      end
    else Err (internal_error "Can't solve the inverse").

Fixpoint canonicalize (current_bounds : RDom) (op_args : list Expr) (args : list string)
    (adjoint : SymExpr) : Result SymExpr :=
  match op_args with
  | [] => Ok adjoint
  | arg :: op_args' =>
      match args with
      | [] => Err undefined_behaviour
      | v :: args' =>
          adjoint' ← canonicalize_arg current_bounds arg v adjoint;
          canonicalize current_bounds op_args' args' adjoint'
      end
  end.

(** [ReverseAccumulationVisitor::visit] of a [Call] node *)
Definition RA_visit_Call (op : Expr) (name : string) (op_args : list Expr)
    (fn : option string) (ra : ReverseAccumulationVisitor)
    : Result ReverseAccumulationVisitor :=
  adjoint ← adjoint_of op ra;
  let ra1 := if decide (name = "exp_f32")
             then fold_left (fun s a => accumulate a (adjoint * exp (erase a))%E s) op_args ra
             else ra in
  match fn with
  | None => Ok ra1
  | Some f =>
      match env !! f with
      | None => Err undefined_behaviour
      | Some func =>
          let key := target_key (ra_current_func_key ra1) (fn_name func)
                                (num_update_definitions func) in
          adjoint' ← canonicalize (ra_current_bounds ra1) op_args (fn_args func) adjoint;
          Ok (scatter key (fn_args func) adjoint' ra1)
      end
  end.

(** [e.accept(this)]: the visit of the node kind; the kinds the visitor
    does not override get the default visit, which accepts each operand. *)
Fixpoint RA_accept (e : Expr) (ra : ReverseAccumulationVisitor)
    : Result ReverseAccumulationVisitor :=
  match e with
  | MkExpr _ n =>
    match n with
    | Cast _ value => RA_visit_Cast e value ra
    | Variable_ name _ => RA_visit_Variable e name ra
    | Binary Add a b => RA_visit_Add e a b ra
    | Binary Sub a b => RA_visit_Sub e a b ra
    | Binary Mul a b => RA_visit_Mul e a b ra
    | Binary Div a b => RA_visit_Div e a b ra
    | Binary Min a b => RA_visit_Min e a b ra
    | Binary Max a b => RA_visit_Max e a b ra
    | Call name op_args _ fn => RA_visit_Call e name op_args fn ra
    | Let_ name value body => RA_visit_Let e name value body ra
    | _ => visit_children RA_accept n ra
    end
  end.

(** [rdom_to_vector] *)
Definition rdom_to_vector (bounds : RDom) : list (SymExpr * SymExpr) :=
  List.map (fun rvar => (rv_min rvar, rv_extent rvar)) bounds.

(** "Create a stub for each function to accumulate adjoints": the turn of
    the inner loop for [update_id]. *)
Definition create_stub (func : Function) (update_id : Z)
    (ra : ReverseAccumulationVisitor) : ReverseAccumulationVisitor :=
  let adjoint_func :=
    mkFunc (fn_name func +:+ "_" +:+ pretty (update_id + 1) +:+ "_d__")
           (fn_args func) (Some (mk_float 0)) [] in
  set_adjoint_funcs (<[(fn_name func, update_id) := adjoint_func]> (ra_adjoint_funcs ra)) ra.

(** [for (update_id = -1; update_id < n; update_id++)] *)
Definition stage_ids_up (n : nat) : list Z := List.map (fun k => Z.of_nat k - 1) (seq 0 (Datatypes.S n)).

Definition create_stubs (funcs : list Function) (ra : ReverseAccumulationVisitor) :=
  fold_left (fun s func =>
               fold_left (fun s' update_id => create_stub func update_id s')
                         (stage_ids_up (length (fn_updates func))) s)
            funcs ra.

(** "Retrieve previously propagated adjoint": the entry of the root of the
    stage is assigned the call of the stage's adjoint function. *)
Definition seed_stage (root : Expr) (adjoint_func : Func) (args : list string)
    (ra : ReverseAccumulationVisitor) : ReverseAccumulationVisitor :=
  let call := Sym (Call (func_name adjoint_func) (List.map mk_var args) Halide
                        (Some (func_name adjoint_func))) in
  set_accumulated_adjoints (<[get root := call]> (ra_accumulated_adjoints ra)) ra.

(** The body of the loop over the stages of [func] in [propagate_adjoints]. *)
Definition RA_stage (func : Function) (update_id : Z) (ra : ReverseAccumulationVisitor)
    : Result ReverseAccumulationVisitor :=
  e ← stage_value func update_id;
  let expr_list := ES_sort e in
  let func_key : FuncKey := (fn_name func, update_id) in
  match ra_func_bounds ra !! func_key with
  | None => Err assertion_failed
  | Some bounds =>
      let ra1 := set_current func_key bounds ra in
      let wrapped :=
        constant_exterior (default undefined_Func (ra_adjoint_funcs ra1 !! func_key))
                          (mk_float 0) (rdom_to_vector bounds) in
      let ra2 := set_adjoint_funcs (<[func_key := wrapped]> (ra_adjoint_funcs ra1)) ra1 in
      let ra3 := seed_stage e wrapped (fn_args func) ra2 in
      foldM RA_accept (rev expr_list) ra3
  end.

(** [ReverseAccumulationVisitor::propagate_adjoints] on a new visitor, in
    two parts: up to the walk of the output, and the loop over the stages of
    one function. *)
Definition RA_propagate_output (fuel : nat) (output : Expr) (funcs : list Function)
    : Result ReverseAccumulationVisitor :=
  let ra0 := mkRA ∅ ∅ ∅ ∅ (EmptyString, 0) [] in
  bi ← BI_inference env fuel output;
  let ra1 := set_func_bounds (get_func_bounds bi) ra0 in
  let ra2 := create_stubs funcs ra1 in
  let expr_list := ES_sort output in
  let ra3 := accumulate output (mk_float 1) ra2 in
  foldM RA_accept (rev expr_list) ra3.

Definition RA_propagate_func (func : Function) (ra : ReverseAccumulationVisitor)
    : Result ReverseAccumulationVisitor :=
  stage_loop (RA_stage func) (length (fn_updates func)) ra.

Definition RA_propagate_adjoints (fuel : nat) (output : Expr) (funcs : list Function)
    : Result ReverseAccumulationVisitor :=
  match funcs with
  | [] => Ok (mkRA ∅ ∅ ∅ ∅ (EmptyString, 0) [])
  | _ =>
      ra ← RA_propagate_output fuel output funcs;
      foldM RA_propagate_func funcs ra
  end.

(** [get_adjoint_funcs]: the entries of the initialization stages. *)
Definition get_adjoint_funcs (ra : ReverseAccumulationVisitor) : gmap string Func :=
  list_to_map (omap (fun kf : FuncKey * Func =>
                       if decide (kf.1.2 = -1) then Some (kf.1.1, kf.2) else None)
                    (map_to_list (ra_adjoint_funcs ra))).

(** [propagate_adjoints(const Expr &output)] *)
Definition propagate_adjoints (fuel : nat) (output : Expr) : Result (gmap string Func) :=
  funcs ← FS_sort env fuel output;
  visitor ← RA_propagate_adjoints fuel output funcs;
  Ok (get_adjoint_funcs visitor).

End ReverseAccumulation.

(* ===================================================================== *)
(** * Part II. Predicates of the statements                               *)
(* ===================================================================== *)

(** ** Expressions as graphs *)

(** Every node of an expression, the expression itself first. *)
Fixpoint subexprs (e : Expr) : list Expr :=
  match e with
  | MkExpr _ n =>
      e :: match n with
           | IntImm _ | FloatImm _ | Variable_ _ _ => []
           | Cast _ v => subexprs v
           | Binary _ a b => subexprs a ++ subexprs b
           | Not a => subexprs a
           | Select c t f => subexprs c ++ subexprs t ++ subexprs f
           | Call _ args _ _ => concat (List.map subexprs args)
           | Let_ _ v b => subexprs v ++ subexprs b
           end
  end.

(** Addresses identify nodes: within the list, one address is one node. *)
Definition addresses_consistent (nodes : list Expr) : Prop :=
  forall n1 n2, n1 ∈ nodes -> n2 ∈ nodes -> get n1 = get n2 -> n1 = n2.

(** ** Bounds inference *)

(** The closed set of shapes [get_min_max_bounds] accepts. *)
Fixpoint supported (current_args : list string) (current_bounds : RDom) (e : SymExpr) : Prop :=
  match e with
  | Sym n =>
    match n with
    | IntImm _ => True
    | Binary o a b =>
        (o = Add \/ o = Sub \/ o = Min \/ o = Max)
        /\ supported current_args current_bounds a
        /\ supported current_args current_bounds b
    | Variable_ _ (Some _) => True
    | Variable_ name None =>
        exists i, first_index current_args name = Some i /\ (i < length current_bounds)%nat
    | _ => False
    end
  end.

(** No reference to a reduction variable reads its domain out of range
    ([domain()[index]] is a plain vector access). *)
Fixpoint rvars_in_range (index : nat) (e : SymExpr) : Prop :=
  match e with
  | Sym n =>
    match n with
    | Variable_ _ (Some domain) => (index < length domain)%nat
    | Binary _ a b => rvars_in_range index a /\ rvars_in_range index b
    | _ => True
    end
  end.

Definition fatal (err : Error) : Prop :=
  match err with
  | internal_error _ | user_error _ => True
  | _ => False
  end.

(** ** Reverse accumulation *)

(** [extends v v']: [v'] is [v] with zero or more contributions added. *)
Inductive extends (v : SymExpr) : SymExpr -> Prop :=
| extends_refl : extends v v
| extends_add v' a : extends v v' -> extends v (v' + a)%E.

(** Every entry of [m] is still there in [m'], extended. *)
Definition additive_step (m m' : gmap addr SymExpr) : Prop :=
  forall k v, m !! k = Some v -> exists v', m' !! k = Some v' /\ extends v v'.

(** The local derivatives of the table of §4.4, for the operand [a] and
    for the operand [b] of [op(a, b)]. *)
Definition local_rule (op : BinaryOp) (adjoint a b : SymExpr) : option (SymExpr * SymExpr) :=
  match op with
  | Mul => Some ((adjoint * b)%E, (adjoint * a)%E)
  | Div => Some ((adjoint / b)%E, (- adjoint * a / (b * b))%E)
  | Min => Some (select (a <= b)%E adjoint (mk_float 0), select (b <= a)%E adjoint (mk_float 0))
  | Max => Some (select (a >= b)%E adjoint (mk_float 0), select (b >= a)%E adjoint (mk_float 0))
  | _ => None
  end.

(** Whether the variable [x] occurs free in [e]. *)
Fixpoint occurs_free (x : string) (e : SymExpr) : bool :=
  match e with
  | Sym n =>
    match n with
    | IntImm _ | FloatImm _ => false
    | Variable_ y _ => bool_decide (y = x)
    | Cast _ v => occurs_free x v
    | Binary _ a b => occurs_free x a || occurs_free x b
    | Not a => occurs_free x a
    | Select c t f => occurs_free x c || occurs_free x t || occurs_free x f
    | Call _ args _ _ => existsb (occurs_free x) args
    | Let_ y v b => occurs_free x v || (negb (bool_decide (y = x)) && occurs_free x b)
    end
  end.

(** ** The expression sorter *)

(** The operands the expression sorter goes on to from a node: none for a
    call to a Halide function or to an image. *)
Definition ES_children (e : Expr) : list Expr :=
  match node e with
  | Call _ args call_type _ =>
      if decide (call_type = Halide \/ call_type = Image) then [] else args
  | n => children n
  end.

Inductive ES_reach (root : Expr) : Expr -> Prop :=
| ES_reach_root : ES_reach root root
| ES_reach_child n c : ES_reach root n -> c ∈ ES_children n -> ES_reach root c.

(** Every node of the list comes after the operands the sorter reaches
    from it. *)
Definition children_first (l : list Expr) : Prop :=
  forall i n, l !! i = Some n ->
  forall c, c ∈ ES_children n -> exists j, (j < i)%nat /\ l !! j = Some c.

(** ** The function sorter *)

(** Calls of Halide functions in [e] that are not inside the arguments of a
    call of a Halide function: [calls_outside_args env e f]. *)
Inductive calls_outside_args (env : gmap string Function) : Expr -> Function -> Prop :=
| calls_here p x args k func :
    env !! k = Some func ->
    calls_outside_args env (MkExpr p (Call x args Halide (Some k))) func
| calls_below p n c func :
    (forall x args fn, n <> Call x args Halide fn) ->
    c ∈ children n ->
    calls_outside_args env c func ->
    calls_outside_args env (MkExpr p n) func.

(** Calls of Halide functions anywhere in [e]. *)
Definition calls_anywhere (env : gmap string Function) (e : Expr) (func : Function) : Prop :=
  exists p x args k, MkExpr p (Call x args Halide (Some k)) ∈ subexprs e /\ env !! k = Some func.

(** The stages of a function, in the order of the loops of the source:
    from the last update to the initialization. *)
Definition stage_values (func : Function) : list Expr :=
  rev (fn_updates func) ++ [fn_value func].

(** Functions reachable from [root] through calls, [calls] saying which
    calls of an expression count. *)
Inductive reachable (calls : Expr -> Function -> Prop) (root : Expr) : Function -> Prop :=
| reachable_root func : calls root func -> reachable calls root func
| reachable_stage caller body func :
    reachable calls root caller ->
    body ∈ stage_values caller ->
    calls body func ->
    reachable calls root func.

(** The function table and the expressions agree: a function is stored
    under its name and every call of a Halide function names a function of
    the table. *)
Definition program_nodes (env : gmap string Function) (root : Expr) : list Expr :=
  subexprs root ++
  concat (List.map (fun kf : string * Function => concat (List.map subexprs (stage_values kf.2)))
                   (map_to_list env)).

Record well_formed (env : gmap string Function) (root : Expr) : Prop := {
  wf_names : forall k func, env !! k = Some func -> fn_name func = k;
  wf_calls : forall p x args fn,
      MkExpr p (Call x args Halide fn) ∈ program_nodes env root ->
      exists k func, fn = Some k /\ env !! k = Some func;
  wf_addresses : addresses_consistent (program_nodes env root)
}.

(** ** Collaborators and programs of the examples *)

(** Modelled from the spec: the boundary wrapper of BoundaryConditions.h,
    which is not under src/ (§6: it wraps a function so that reads outside a
    given rectangular domain return a fixed fill value).  Halide numbers the
    wrappers; here the name of the wrapped function tells them apart. *)
Definition constant_exterior_model (f : Func) (value : SymExpr)
    (bounds : list (SymExpr * SymExpr)) : Func :=
  let args := List.map mk_var (func_args f) in
  let outside :=
    fold_left (fun acc ab =>
                 binop Or acc
                   (binop Or (binop LT ab.1 (ab.2).1)
                             (binop GE ab.1 ((ab.2).1 + (ab.2).2)%E)))
              (zip args bounds) (Sym (Cast Bool1 (mk_int 0))) in
  mkFunc (func_name f +:+ "$constant_exterior") (func_args f)
         (Some (select outside value (Sym (Call (func_name f) args Halide (Some (func_name f))))))
         [].

(** A solver for the index maps of the source's tests: [tmp == v] and
    [tmp == v + c], solved for [v]. *)
Definition example_solver (e : SymExpr) (v : string) : SolverResult :=
  match e with
  | Sym (Binary EQ lhs (Sym (Variable_ x None))) =>
      if decide (x = v) then mkSolverResult (mk_var v == lhs)%E true
      else mkSolverResult e false
  | Sym (Binary EQ lhs (Sym (Binary Add (Sym (Variable_ x None)) c))) =>
      if decide (x = v) then mkSolverResult (mk_var v == lhs - c)%E true
      else mkSolverResult e false
  | _ => mkSolverResult e false
  end.

Definition example_externals : Externals :=
  Build_Externals (fun e => e) example_solver constant_exterior_model.

Definition e_var (p : addr) (x : string) : Expr := MkExpr p (Variable_ x None).
Definition e_int (p : addr) (z : Z) : Expr := MkExpr p (IntImm z).
Definition e_float (p : addr) (q : Q) : Expr := MkExpr p (FloatImm q).
Definition e_bin (p : addr) (o : BinaryOp) (a b : Expr) : Expr := MkExpr p (Binary o a b).
Definition e_call (p : addr) (f : string) (args : list Expr) : Expr :=
  MkExpr p (Call f args Halide (Some f)).
Definition e_image (p : addr) (f : string) (args : list Expr) : Expr :=
  MkExpr p (Call f args Image None).
Arguments e_var p%_positive x.
Arguments e_int p%_positive z.
Arguments e_float p%_positive q%_Q.
Arguments e_bin p%_positive o a b.
Arguments e_call p%_positive f args.
Arguments e_image p%_positive f args.

(** [RDom r(0, n)] and [RDom r(0, n, 0, m)] with their variables. *)
Definition rdom1 (n : Z) : list (ReductionVariable Expr) :=
  [mkRV "r4$x" (e_int 900 0) (e_int 901 n)].
Definition rdom2 (n m : Z) : list (ReductionVariable Expr) :=
  [mkRV "r4$x" (e_int 900 0) (e_int 901 n); mkRV "r4$y" (e_int 902 0) (e_int 903 m)].
Definition e_rvar (p : addr) (x : string) (d : list (ReductionVariable Expr)) : Expr :=
  MkExpr p (Variable_ x (Some d)).
Arguments e_rvar p%_positive x d.

(** [test_simple_bounds_inference] of the source, with [width = 16] and
    [height = 32]. *)
Definition blur2d_env : gmap string Function :=
  list_to_map
    [("input", mkFunction "input" ["x"; "y"] (e_float 1 0) []);
     ("blur_x", mkFunction "blur_x" ["x"; "y"]
        (e_bin 2 Add
           (e_bin 3 Add (e_call 4 "input" [e_var 5 "x"; e_var 6 "y"])
                        (e_call 7 "input" [e_bin 8 Add (e_var 9 "x") (e_int 10 1); e_var 11 "y"]))
           (e_call 12 "input" [e_bin 13 Add (e_var 14 "x") (e_int 15 2); e_var 16 "y"])) []);
     ("blur_y", mkFunction "blur_y" ["x"; "y"]
        (e_bin 22 Add
           (e_bin 23 Add (e_call 24 "blur_x" [e_var 25 "x"; e_var 26 "y"])
                         (e_call 27 "blur_x" [e_var 28 "x"; e_bin 29 Add (e_var 30 "y") (e_int 31 1)]))
           (e_call 32 "blur_x" [e_var 33 "x"; e_bin 34 Add (e_var 35 "y") (e_int 36 2)])) [])].
Definition blur2d_loss : Expr :=
  e_call 40 "blur_y" [e_rvar 41 "r4$x" (rdom2 14 30); e_rvar 42 "r4$y" (rdom2 14 30)].

(** [test_simple_bounds_inference_update] of the source. *)
Definition update_env : gmap string Function :=
  list_to_map
    [("input", mkFunction "input" ["x"] (e_float 1 0) []);
     ("blur", mkFunction "blur" ["x"] (e_call 2 "input" [e_var 3 "x"])
        [e_bin 4 Add (e_call 5 "blur" [e_var 6 "x"])
                     (e_call 7 "input" [e_bin 8 Add (e_var 9 "x") (e_int 10 1)])])].
Definition update_loss : Expr := e_call 20 "blur" [e_rvar 21 "r4$x" (rdom1 2)].

(** The bounds of a domain, read as numbers. *)
Definition bounds_values (d : RDom) : list (option Q * option Q) :=
  List.map (fun r => (eval (fun _ => None) (rv_min r), eval (fun _ => None) (rv_extent r))) d.

Definition inferred_bounds (env : gmap string Function) (fuel : nat) (loss : Expr)
    (key : FuncKey) : option (list (option Q * option Q)) :=
  match BI_inference (H := example_externals) env fuel loss with
  | Ok bi => bounds_values <$> get_func_bounds (H := example_externals) bi !! key
  | Err _ => None
  end.

(** A function that updates itself: [f(x) = 0; f(x) += 1], read at [f(0)]. *)
Definition counter_env : gmap string Function :=
  {[ "f" := mkFunction "f" ["x"] (e_float 1 0)
              [e_bin 2 Add (e_call 3 "f" [e_var 4 "x"]) (e_float 5 1)] ]}.
Definition counter_root : Expr := e_call 6 "f" [e_int 7 0].

(** A call inside the argument of a call: [g(x) = x; h(x) = x], read at
    [g(h(0))]. *)
Definition nested_env : gmap string Function :=
  list_to_map [("g", mkFunction "g" ["x"] (e_var 1 "x") []);
               ("h", mkFunction "h" ["x"] (e_var 2 "x") [])].
Definition nested_root : Expr := e_call 3 "g" [e_call 4 "h" [e_int 5 0]].

(** A reduction variable at the second position of a call: [g(x, y) = 0],
    read at [g(0, r.x)] with [RDom r(0, 2)]. *)
Definition second_position_env : gmap string Function :=
  {[ "g" := mkFunction "g" ["x"; "y"] (e_float 1 0) [] ]}.
Definition second_position_loss : Expr :=
  e_call 2 "g" [e_int 3 0; e_rvar 4 "r4$x" (rdom1 2)].

(** One node, the read [input(x)] of an image, as the value of two
    functions: [Expr e = input(x); f(x) = e; g(x) = e], with the output
    [f(r) + g(r)]. *)
Definition shared_value : Expr := e_image 1 "input" [e_var 2 "x"].
Definition shared_f : Function := mkFunction "f" ["x"] shared_value [].
Definition shared_g : Function := mkFunction "g" ["x"] shared_value [].
Definition shared_env : gmap string Function :=
  list_to_map [("f", shared_f); ("g", shared_g)].
Definition shared_output : Expr :=
  e_bin 10 Add (e_call 11 "f" [e_rvar 12 "r4$x" (rdom1 2)])
               (e_call 13 "g" [e_rvar 14 "r4$x" (rdom1 2)]).

(** The entry of the shared node after the walk of the output, after the
    stage of [f] and after the stage of [g]. *)
Definition shared_entries
    : Result (option SymExpr * option SymExpr * option SymExpr) :=
  s0 ← RA_propagate_output (H := example_externals) shared_env 2 shared_output
         [shared_f; shared_g];
  s1 ← RA_propagate_func (H := example_externals) shared_env shared_f s0;
  s2 ← RA_propagate_func (H := example_externals) shared_env shared_g s1;
  Ok (ra_accumulated_adjoints s0 !! get shared_value,
      ra_accumulated_adjoints s1 !! get shared_value,
      ra_accumulated_adjoints s2 !! get shared_value).

(** A function of two variables that reads another along a line:
    [g(x, y) = input(x, y); f(x, y) = g(0, y)], with the output
    [f(r.x, r.y)]. *)
Definition broadcast_env : gmap string Function :=
  list_to_map
    [("g", mkFunction "g" ["x"; "y"] (e_image 1 "input" [e_var 2 "x"; e_var 3 "y"]) []);
     ("f", mkFunction "f" ["x"; "y"] (e_call 4 "g" [e_int 5 0; e_var 6 "y"]) [])].
Definition broadcast_output : Expr :=
  e_call 10 "f" [e_rvar 11 "r4$x" (rdom2 4 4); e_rvar 12 "r4$y" (rdom2 4 4)].

(** ** Invariants of the walks *)

Section ExpressionSorterInvariant.
(** The nodes of the graph at hand. *)
Variable U : list Expr.

(** The state of the sorter in the middle of a walk; [G] holds the
    addresses of the nodes whose visit has begun and not ended. *)
Record ES_inv (G : gset addr) (st : ExpressionSorter) : Prop := {
  inv_nodup : NoDup (get <$> es_expr_list st);
  inv_listed : forall n, n ∈ es_expr_list st -> get n ∈ es_visited st;
  inv_visited : forall a, a ∈ es_visited st ->
                  a ∈ G \/ exists n, n ∈ es_expr_list st /\ get n = a;
  inv_ordered : children_first (es_expr_list st);
  inv_universe : forall n, n ∈ es_expr_list st -> n ∈ U;
  inv_grey : forall n, n ∈ es_expr_list st -> get n ∉ G
}.

(** What [include(e)] achieves. *)
Definition ES_include_spec (e : Expr) : Prop :=
  (forall d, d ∈ subexprs e -> d ∈ U) ->
  forall G st, ES_inv G st ->
  (forall d, d ∈ subexprs e -> get d ∉ G) ->
  ES_inv G (ES_include e st)
  /\ es_visited st ⊆ es_visited (ES_include e st)
  /\ e ∈ es_expr_list (ES_include e st)
  /\ exists new, es_expr_list (ES_include e st) = es_expr_list st ++ new
                 /\ forall n, n ∈ new -> ES_reach e n.

End ExpressionSorterInvariant.

Section FunctionSorterInvariant.
Variable env : gmap string Function.
Variable root : Expr.

(** A node is done when the sorter has gone on to everything the node
    leads to: the callee of a call of a Halide function, the operands of
    any other node. *)
Definition FS_done (st : FunctionSorter) (n : Expr) : Prop :=
  match node n with
  | Call _ _ Halide fn =>
      exists k func, fn = Some k /\ env !! k = Some func
                     /\ fn_name func ∈ fs_traversed_functions st
  | m => forall c, c ∈ children m -> get c ∈ fs_visited st
  end.

Definition FS_le (st st' : FunctionSorter) : Prop :=
  fs_visited st ⊆ fs_visited st'
  /\ fs_traversed_functions st ⊆ fs_traversed_functions st'.

(** The state of the sorter in the middle of a walk; [GE] and [GF] hold
    the nodes and the functions whose visit has begun and not ended. *)
Record FS_inv (GE : gset addr) (GF : gset string) (st : FunctionSorter) : Prop := {
  fsi_nodup : NoDup (fn_name <$> fs_functions st);
  fsi_listed : forall f, f ∈ fs_functions st ->
      fn_name f ∈ fs_traversed_functions st
      /\ env !! fn_name f = Some f
      /\ reachable (calls_outside_args env) root f;
  fsi_traversed : forall x, x ∈ fs_traversed_functions st ->
      exists f, f ∈ fs_functions st /\ fn_name f = x;
  fsi_nodes : forall n, n ∈ program_nodes env root ->
      get n ∈ fs_visited st -> get n ∉ GE -> FS_done st n;
  fsi_funcs : forall f b, f ∈ fs_functions st -> fn_name f ∉ GF ->
      b ∈ stage_values f -> FS_done st b
}.

(** The functions of the table that are still to be traversed bound the
    depth of the recursion. *)
Definition FS_measure (st : FunctionSorter) : nat :=
  size (dom env ∖ fs_traversed_functions st).

Definition FS_context (e : Expr) : Prop :=
  forall g, calls_outside_args env e g -> reachable (calls_outside_args env) root g.

(** What [sort(func)] achieves for a function not yet traversed, when at
    most [m] functions are left. *)
Definition FS_sort_spec (sort : Function -> FunctionSorter -> Result FunctionSorter)
    (m : nat) : Prop :=
  forall func GE GF st,
    FS_inv GE GF st ->
    env !! fn_name func = Some func ->
    fn_name func ∉ fs_traversed_functions st ->
    reachable (calls_outside_args env) root func ->
    (FS_measure st <= m)%nat ->
    exists st', sort func st = Ok st' /\ FS_inv GE GF st' /\ FS_le st st'
                /\ fn_name func ∈ fs_traversed_functions st'.

Definition FS_accept_spec (sort : Function -> FunctionSorter -> Result FunctionSorter)
    (m : nat) (e : Expr) : Prop :=
  e ∈ program_nodes env root -> FS_context e ->
  forall GE GF st, FS_inv GE GF st -> (FS_measure st <= m)%nat ->
  exists st', FS_accept env sort (FS_include env sort) (node e) st = Ok st'
              /\ FS_inv GE GF st' /\ FS_le st st' /\ FS_done st' e.

Definition FS_include_spec (sort : Function -> FunctionSorter -> Result FunctionSorter)
    (m : nat) (e : Expr) : Prop :=
  e ∈ program_nodes env root -> FS_context e ->
  forall GE GF st, FS_inv GE GF st -> (FS_measure st <= m)%nat ->
  exists st', FS_include env sort e st = Ok st'
              /\ FS_inv GE GF st' /\ FS_le st st' /\ get e ∈ fs_visited st'.

End FunctionSorterInvariant.

(** The update ids [k - 1, k - 2, ..., 0, -1] of the descending loop. *)
Fixpoint stage_ids (k : nat) : list Z :=
  (Z.of_nat k - 1) :: match k with O => [] | Datatypes.S k' => stage_ids k' end.

(** ** Induction over expressions

    The generated principles give no hypothesis for the arguments of a
    call; these do. *)

Section SymExpr_induction.
Variable P : SymExpr -> Prop.
Hypothesis P_int : forall z, P (Sym (IntImm z)).
Hypothesis P_float : forall q, P (Sym (FloatImm q)).
Hypothesis P_cast : forall t v, P v -> P (Sym (Cast t v)).
Hypothesis P_var : forall x d, P (Sym (Variable_ x d)).
Hypothesis P_binary : forall o a b, P a -> P b -> P (Sym (Binary o a b)).
Hypothesis P_not : forall a, P a -> P (Sym (Not a)).
Hypothesis P_select : forall c t f, P c -> P t -> P f -> P (Sym (Select c t f)).
Hypothesis P_call : forall x args ct fn, Forall P args -> P (Sym (Call x args ct fn)).
Hypothesis P_let : forall x v b, P v -> P b -> P (Sym (Let_ x v b)).

Fixpoint SymExpr_ind' (e : SymExpr) : P e :=
  match e with
  | Sym n =>
    match n return P (Sym n) with
    | IntImm z => P_int z
    | FloatImm q => P_float q
    | Cast t v => P_cast t v (SymExpr_ind' v)
    | Variable_ x d => P_var x d
    | Binary o a b => P_binary o a b (SymExpr_ind' a) (SymExpr_ind' b)
    | Not a => P_not a (SymExpr_ind' a)
    | Select c t f => P_select c t f (SymExpr_ind' c) (SymExpr_ind' t) (SymExpr_ind' f)
    | Call x args ct fn =>
        P_call x args ct fn
          ((fix go (l : list SymExpr) : Forall P l :=
              match l with
              | [] => @List.Forall_nil _ P
              | a :: l' => @List.Forall_cons _ P a l' (SymExpr_ind' a) (go l')
              end) args)
    | Let_ x v b => P_let x v b (SymExpr_ind' v) (SymExpr_ind' b)
    end
  end.
End SymExpr_induction.

Section Expr_induction.
Variable P : Expr -> Prop.
Hypothesis P_node : forall p n, Forall P (children n) -> P (MkExpr p n).

Fixpoint Expr_ind' (e : Expr) : P e :=
  match e with
  | MkExpr p n =>
    P_node p n
      match n return Forall P (children n) with
      | IntImm _ | FloatImm _ | Variable_ _ _ => @List.Forall_nil _ P
      | Cast _ v => @List.Forall_cons _ P v [] (Expr_ind' v) (@List.Forall_nil _ P)
      | Binary _ a b =>
          @List.Forall_cons _ P a [b] (Expr_ind' a) (@List.Forall_cons _ P b [] (Expr_ind' b) (@List.Forall_nil _ P))
      | Not a => @List.Forall_cons _ P a [] (Expr_ind' a) (@List.Forall_nil _ P)
      | Select c t f =>
          @List.Forall_cons _ P c [t; f] (Expr_ind' c)
            (@List.Forall_cons _ P t [f] (Expr_ind' t) (@List.Forall_cons _ P f [] (Expr_ind' f) (@List.Forall_nil _ P)))
      | Call _ args _ _ =>
          (fix go (l : list Expr) : Forall P l :=
             match l with
             | [] => @List.Forall_nil _ P
             | a :: l' => @List.Forall_cons _ P a l' (Expr_ind' a) (go l')
             end) args
      | Let_ _ v b =>
          @List.Forall_cons _ P v [b] (Expr_ind' v) (@List.Forall_cons _ P b [] (Expr_ind' b) (@List.Forall_nil _ P))
      end
  end.
End Expr_induction.

(** Case analysis on the membership of a node in an explicit list. *)
Ltac split_elem H :=
  repeat match type of H with
         | _ ∈ _ :: _ => apply elem_of_cons in H as [H|H]
         | _ ∈ [] => apply elem_of_nil in H; contradiction
         end.

(** [addresses_consistent] of an explicit list of nodes. *)
Ltac solve_consistent :=
  let n1 := fresh "n" in let n2 := fresh "n" in
  let H1 := fresh "H" in let H2 := fresh "H" in let Hg := fresh "Hg" in
  intros n1 n2 H1 H2 Hg;
  split_elem H1; split_elem H2; subst;
  first [reflexivity | vm_compute in Hg; discriminate Hg].

(** ** Values inside bounds *)

(** The bounds of the context hold the value of each variable of the
    stage: the two slots of dimension [i] evaluate to a lower and an upper
    bound of the value that [rho] gives the [i]-th variable. *)
Definition context_encloses (rho : string -> option Q) (current_args : list string)
    (current_bounds : RDom) : Prop :=
  forall name i rvar,
    first_index current_args name = Some i -> current_bounds !! i = Some rvar ->
    exists lo hi x,
      eval rho (rv_min rvar) = Some lo /\ eval rho (rv_extent rvar) = Some hi
      /\ rho name = Some x /\ (lo <= x)%Q /\ (x <= hi)%Q.

(** Each reference to a reduction variable has a value inside the range of
    the dimension that [get_min_max_bounds] reads for it, the one at the
    position [index] of its domain. *)
Fixpoint rvars_enclosed (rho : string -> option Q) (index : nat) (e : SymExpr) : Prop :=
  match e with
  | Sym n =>
    match n with
    | Variable_ name (Some domain) =>
        forall rvar, domain !! index = Some rvar ->
        exists lo n x,
          eval rho (rv_min rvar) = Some lo /\ eval rho (rv_extent rvar) = Some n
          /\ rho name = Some x /\ (lo <= x)%Q /\ (x <= lo + n - 1)%Q
    | Binary _ a b => rvars_enclosed rho index a /\ rvars_enclosed rho index b
    | _ => True
    end
  end.

(** ** The walk of the bounds inferencer *)

(** What a walk of the inferencer leaves as it found it: the depth and the
    context of the stage; and every key recorded so far is still there. *)
Definition BI_frame (bi bi' : BoundsInferencer) : Prop :=
  bi_recursion_depth bi' = bi_recursion_depth bi
  /\ bi_current_func_key bi' = bi_current_func_key bi
  /\ bi_current_args bi' = bi_current_args bi
  /\ bi_current_bounds bi' = bi_current_bounds bi
  /\ dom (bi_func_bounds bi) ⊆ dom (bi_func_bounds bi').

(** Every stage of [func], from the initialization to the last update, has
    an entry. *)
Definition BI_covers {B : Type} (bounds : gmap FuncKey B) (func : Function) : Prop :=
  forall update_id, -1 <= update_id < num_update_definitions func ->
    is_Some (bounds !! (fn_name func, update_id)).

(** The functions that the stages of [func] lead to, through calls outside
    the arguments of calls. *)
Inductive calls_from (env : gmap string Function) : Function -> Function -> Prop :=
| calls_from_stage func body g :
    body ∈ stage_values func -> calls_outside_args env body g -> calls_from env func g
| calls_from_trans func body g1 g :
    body ∈ stage_values func -> calls_outside_args env body g1 ->
    calls_from env g1 g -> calls_from env func g.

Section BoundsInvariants.
Context `{Externals}.
Variable env : gmap string Function.

(** What [inference(func)] achieves when it returns: the frame, an entry
    for every stage of [func] and of every function its stages lead to. *)
Definition BI_inference_spec
    (inference : Function -> BoundsInferencer -> Result BoundsInferencer) : Prop :=
  forall func bi bi',
    env !! fn_name func = Some func -> inference func bi = Ok bi' ->
    BI_frame bi bi'
    /\ BI_covers (bi_func_bounds bi') func
    /\ forall g, calls_from env func g -> BI_covers (bi_func_bounds bi') g.

(** What the walk of an expression achieves for a function [g] it calls:
    unless [g] is the function of the current stage, every stage of [g] and
    of the functions [g] leads to has an entry. *)
Definition BI_reached (bi bi' : BoundsInferencer) (g : Function) : Prop :=
  fn_name g = (bi_current_func_key bi).1
  \/ (BI_covers (bi_func_bounds bi') g
      /\ forall g', calls_from env g g' -> BI_covers (bi_func_bounds bi') g').

End BoundsInvariants.

(** ** The walk of the reverse accumulation visitor *)

(** What a walk of the visitor leaves as it found it: the bounds and the
    context of the stage; and no accumulator, let binding or adjoint entry
    is dropped. *)
Definition RA_frame (ra ra' : ReverseAccumulationVisitor) : Prop :=
  ra_func_bounds ra' = ra_func_bounds ra
  /\ ra_current_func_key ra' = ra_current_func_key ra
  /\ ra_current_bounds ra' = ra_current_bounds ra
  /\ dom (ra_adjoint_funcs ra) ⊆ dom (ra_adjoint_funcs ra')
  /\ dom (ra_let_var_mapping ra) ⊆ dom (ra_let_var_mapping ra')
  /\ dom (ra_accumulated_adjoints ra) ⊆ dom (ra_accumulated_adjoints ra').

(** An expression with no call of a Halide function in it. *)
Definition no_halide_call (e : Expr) : Prop :=
  forall p x args fn, MkExpr p (Call x args Halide fn) ∉ subexprs e.

(** The adjoints that the visit of [op(a, b)] hands to [a] and to [b]. *)
Definition operand_adjoints (op : BinaryOp) (adjoint a b : SymExpr)
    : option (SymExpr * SymExpr) :=
  match op with
  | Add => Some (adjoint, adjoint)
  | Sub => Some (adjoint, (- adjoint)%E)
  | _ => local_rule op adjoint a b
  end.

(** ** More programs of the examples *)

(** An intrinsic with no rule: [f(x) = sin_f32(x)], read at [f(r.x)]; and
    the same with a constant for argument, [f(x) = sin_f32(1)]. *)
Definition sine_call : Expr := MkExpr 1 (Call "sin_f32" [e_var 2 "x"] PureExtern None).
Definition sine_env : gmap string Function :=
  {[ "f" := mkFunction "f" ["x"] sine_call [] ]}.
Definition sine_loss : Expr := e_call 10 "f" [e_rvar 11 "r4$x" (rdom1 2)].
Definition sine_constant_env : gmap string Function :=
  {[ "f" := mkFunction "f" ["x"]
              (MkExpr 1 (Call "sin_f32" [e_float 2 1] PureExtern None)) [] ]}.

(** An argument outside the supported shapes: [g(x) = 0], read at
    [g(x * x)]. *)
Definition square_env : gmap string Function :=
  {[ "g" := mkFunction "g" ["x"] (e_float 1 0) [] ]}.
Definition square_root : Expr :=
  e_call 2 "g" [e_bin 3 Mul (e_var 4 "x") (e_var 5 "x")].

(** The function of [counter_env]. *)
Definition counter_f : Function :=
  mkFunction "f" ["x"] (e_float 1 0)
             [e_bin 2 Add (e_call 3 "f" [e_var 4 "x"]) (e_float 5 1)].

(* ===================================================================== *)
(** * Part III. Proofs                                                    *)
(* ===================================================================== *)


(** ** The loops *)

Lemma bind_Ok {A B} (m : Result A) (f : A -> Result B) (b : B) :
  (m ≫= f) = Ok b <-> exists a, m = Ok a /\ f a = Ok b.
Proof.
  destruct m as [a|e]; simpl; split.
  - intros Hf. exists a. auto.
  - intros (a' & Ha & Hf). congruence.
  - discriminate.
  - intros (a' & Ha & _). discriminate.
Qed.

Lemma visit_children_foldM {S} (rec : Expr -> S -> Result S) (n : IRNode Expr) (st : S) :
  visit_children rec n st = foldM rec (children n) st.
Proof.
  destruct n; simpl; try reflexivity.
  - destruct (rec value st); reflexivity.
  - destruct (rec a st) as [st1|]; simpl; [|reflexivity].
    destruct (rec b st1); reflexivity.
  - destruct (rec a st); reflexivity.
  - destruct (rec condition st) as [st1|]; simpl; [|reflexivity].
    destruct (rec true_value st1) as [st2|]; simpl; [|reflexivity].
    destruct (rec false_value st2); reflexivity.
  - destruct (rec value st) as [st1|]; simpl; [|reflexivity].
    destruct (rec body st1); reflexivity.
Qed.

Lemma visit_operands_fold {S} (rec : Expr -> S -> S) (n : IRNode Expr) (st : S) :
  visit_operands rec n st = fold_left (fun s a => rec a s) (children n) st.
Proof. destruct n; reflexivity. Qed.

Lemma foldM_app {A S} (body : A -> S -> Result S) (l1 l2 : list A) (st : S) :
  foldM body (l1 ++ l2) st = (foldM body l1 st ≫= foldM body l2).
Proof.
  revert st. induction l1 as [|x l1 IH]; intros st; simpl; [reflexivity|].
  destruct (body x st) as [st'|]; simpl; [apply IH | reflexivity].
Qed.


Lemma stage_loop_foldM {S} (body : Z -> S -> Result S) (k : nat) (st : S) :
  stage_loop body k st = foldM body (stage_ids k) st.
Proof.
  revert st. induction k as [|k IH]; intros st; simpl.
  - destruct (body _ st); reflexivity.
  - destruct (body _ st) as [st'|]; simpl; [apply IH | reflexivity].
Qed.

(** The descending loop meets the stages in the order of [stage_values]. *)
Lemma stage_ids_take (func : Function) (k : nat) :
  (k <= length (fn_updates func))%nat ->
  List.map (stage_value func) (stage_ids k)
  = List.map Ok (rev (take k (fn_updates func)) ++ [fn_value func]).
Proof.
  induction k as [|k IH]; intros Hk.
  - simpl. unfold stage_value. destruct (decide _); [lia | reflexivity].
  - destruct (lookup_lt_is_Some_2 (fn_updates func) k) as [u Hu]; [lia|].
    rewrite (take_S_r _ _ _ Hu), rev_app_distr. simpl. f_equal.
    + unfold stage_value. destruct (decide _) as [_|Hn]; [|lia].
      replace (Z.to_nat (Z.of_nat (Datatypes.S k) - 1)) with k by lia.
      rewrite Hu. reflexivity.
    + apply IH. lia.
Qed.

Lemma stage_ids_values (func : Function) :
  List.map (stage_value func) (stage_ids (length (fn_updates func)))
  = List.map Ok (stage_values func).
Proof.
  rewrite stage_ids_take by lia. unfold stage_values.
  rewrite firstn_all. reflexivity.
Qed.

(** ** Bounds of a call argument *)

Lemma RDom_of_ranges_lookup (name : string) (ranges : list (SymExpr * SymExpr)) (i : nat) :
  RDom_of_ranges name ranges !! i
  = (fun r => mkRV (name +:+ "$" +:+ dim_suffix i) r.1 r.2) <$> ranges !! i.
Proof. unfold RDom_of_ranges. apply list_lookup_imap. Qed.

Lemma RDom_of_ranges_length (name : string) (ranges : list (SymExpr * SymExpr)) :
  length (RDom_of_ranges name ranges) = length ranges.
Proof. unfold RDom_of_ranges. apply length_imap. Qed.

Section BoundsProofs.
Context `{Externals}.

Lemma call_arg_bounds_lookup (args : list Expr) (i0 : nat) (bi : BoundsInferencer)
    (bs : FuncBounds) (k : nat) (a : Expr) :
  call_arg_bounds args i0 bi = Ok bs ->
  args !! k = Some a ->
  exists b, bs !! k = Some b
    /\ get_min_max_bounds (erase a) (bi_current_args bi) (bi_current_bounds bi) (i0 + k) = Ok b.
Proof.
  revert i0 bs k. induction args as [|a0 args IH]; intros i0 bs k Hrun Hk.
  - rewrite lookup_nil in Hk. discriminate.
  - simpl in Hrun.
    apply bind_Ok in Hrun as (b0 & Hb0 & Hrun).
    apply bind_Ok in Hrun as (more & Hmore & Hrun).
    injection Hrun as <-.
    destruct k as [|k]; simpl in Hk.
    + injection Hk as <-. exists b0. rewrite Nat.add_0_r. auto.
    + destruct (IH _ _ _ Hmore Hk) as (b & Hb & Hg).
      exists b. split; [exact Hb|].
      replace (i0 + Datatypes.S k)%nat with (Datatypes.S i0 + k)%nat by lia. exact Hg.
Qed.

Lemma call_arg_bounds_length (args : list Expr) (i0 : nat) (bi : BoundsInferencer)
    (bs : FuncBounds) :
  call_arg_bounds args i0 bi = Ok bs -> length bs = length args.
Proof.
  revert i0 bs. induction args as [|a0 args IH]; intros i0 bs Hrun; simpl in Hrun.
  - injection Hrun as <-. reflexivity.
  - apply bind_Ok in Hrun as (b0 & Hb0 & Hrun).
    apply bind_Ok in Hrun as (more & Hmore & Hrun).
    injection Hrun as <-. simpl. f_equal. eauto.
Qed.

(** C1. In the context of a stage of the inferencer, whose current bounds
    are built from the (minimum, maximum) pairs stored for the stage, a call
    argument that is a plain variable named like the [i]-th domain variable
    gets the [i]-th stored pair as its bounds: [get_min_max_bounds] returns
    it, and so does the loop over the arguments of the call. *)
Theorem C1_plain_variable_bound (func : Function) (update_id : Z) (bi : BoundsInferencer)
    (stored : FuncBounds) (name : string) (i : nat) (minimum maximum : SymExpr)
    (args : list Expr) (k : nat) (p : addr) :
  let ctx := BI_enter_stage func update_id bi in
  bi_func_bounds bi !! (fn_name func, update_id) = Some stored ->
  first_index (fn_args func) name = Some i ->
  stored !! i = Some (minimum, maximum) ->
  args !! k = Some (MkExpr p (Variable_ name None)) ->
  bi_func_bounds ctx !! (fn_name func, update_id) = Some stored
  /\ get_min_max_bounds (mk_var name) (bi_current_args ctx) (bi_current_bounds ctx) k
     = Ok (minimum, maximum)
  /\ (forall bs, call_arg_bounds args 0 ctx = Ok bs -> bs !! k = Some (minimum, maximum)).
Proof.
  intros ctx Hstored Hi Hb Hk.
  assert (Hg : forall index,
    get_min_max_bounds (mk_var name) (bi_current_args ctx) (bi_current_bounds ctx) index
    = Ok (minimum, maximum)).
  { intros index. subst ctx. unfold BI_enter_stage, mk_var. simpl.
    rewrite Hstored, Hi. simpl.
    rewrite RDom_of_ranges_lookup, Hb. reflexivity. }
  split; [|split].
  - subst ctx. unfold BI_enter_stage. simpl. rewrite Hstored. simpl.
    apply lookup_insert_eq.
  - apply Hg.
  - intros bs Hrun.
    destruct (call_arg_bounds_lookup _ _ _ _ _ _ Hrun Hk) as (b & Hbk & Hgk).
    change (erase (MkExpr p (Variable_ name None))) with (mk_var name) in Hgk.
    rewrite Hg in Hgk. congruence.
Qed.

End BoundsProofs.

Lemma first_index_lt (current_args : list string) (name : string) (i : nat) :
  first_index current_args name = Some i -> (i < length current_args)%nat.
Proof.
  revert i. induction current_args as [|x rest IH]; intros i; simpl; [discriminate|].
  destruct (decide (x = name)).
  - intros [= <-]. lia.
  - destruct (first_index rest name) as [j|]; simpl; [|discriminate].
    intros [= <-]. specialize (IH j eq_refl). lia.
Qed.

(** The two outcomes of [get_min_max_bounds], decided by the shape. *)
Lemma get_min_max_bounds_cases (current_args : list string) (current_bounds : RDom)
    (index : nat) (e : SymExpr) :
  (length current_args <= length current_bounds)%nat ->
  rvars_in_range index e ->
  (supported current_args current_bounds e
   /\ exists b, get_min_max_bounds e current_args current_bounds index = Ok b)
  \/ (~ supported current_args current_bounds e
      /\ exists err, get_min_max_bounds e current_args current_bounds index = Err err
                     /\ fatal err).
Proof.
  induction e as [z|q|t v IHv|x d|o a b IHa IHb|a IHa|c t f IHc IHt IHf|x args ct fn IHargs
                 |x v b IHv IHb] using SymExpr_ind'; intros Hctx Hrange.
  - left. split; [exact I|]. eexists. reflexivity.
  - right. split; [intros []|]. eexists. split; [reflexivity|exact I].
  - right. split; [intros []|]. eexists. split; [reflexivity|exact I].
  - destruct d as [domain|]; simpl in *.
    + left. split; [exact I|].
      destruct (lookup_lt_is_Some_2 domain index Hrange) as [rvar ->]. eexists. reflexivity.
    + destruct (first_index current_args x) as [i|] eqn:Hi.
      * destruct (current_bounds !! i) as [rvar|] eqn:Hb.
        -- left. split; [|eexists; reflexivity].
           exists i. split; [reflexivity|]. eapply lookup_lt_Some. exact Hb.
        -- exfalso. apply first_index_lt in Hi. apply lookup_ge_None in Hb. lia.
      * right. split; [intros (j & Hj & _); discriminate|].
        eexists. split; [reflexivity|exact I].
  - destruct Hrange as [Ha Hb].
    specialize (IHa Hctx Ha). specialize (IHb Hctx Hb).
    assert (Hop : (o = Add \/ o = Sub \/ o = Min \/ o = Max)
                  \/ ~ (o = Add \/ o = Sub \/ o = Min \/ o = Max)).
    { destruct o; (left; tauto) || (right; intros [|[|[|]]]; discriminate). }
    destruct Hop as [Hop|Hop].
    + destruct IHa as [[Hsa [ba Hba]]|[Hna (ea & Hea & Hfa)]].
      * destruct IHb as [[Hsb [bb Hbb]]|[Hnb (eb & Heb & Hfb)]].
        -- left. split; [simpl; tauto|].
           destruct Hop as [-> | [-> | [-> | ->]]]; simpl; rewrite Hba, Hbb; eexists; reflexivity.
        -- right. split; [simpl; tauto|].
           exists eb. split; [|exact Hfb].
           destruct Hop as [-> | [-> | [-> | ->]]]; simpl; rewrite Hba, Heb; reflexivity.
      * right. split; [simpl; tauto|].
        exists ea. split; [|exact Hfa].
        destruct Hop as [-> | [-> | [-> | ->]]]; simpl; rewrite Hea; reflexivity.
    + right. split; [simpl; tauto|].
      exists unhandled. split; [|exact I].
      destruct o; try reflexivity; exfalso; apply Hop; tauto.
  - right. split; [intros []|]. eexists. split; [reflexivity|exact I].
  - right. split; [intros []|]. eexists. split; [reflexivity|exact I].
  - right. split; [intros []|]. eexists. split; [reflexivity|exact I].
  - right. split; [intros []|]. eexists. split; [reflexivity|exact I].
Qed.

(** Wherever the context has a bound for each of its variables and the
    position of the argument exists in the domain of each reduction
    variable under it, [get_min_max_bounds] returns a pair of bounds for
    the supported shapes (sums, differences, minima and maxima of supported
    expressions, integer literals, references to reduction variables and
    plain variables that the current context resolves) and stops with a
    fatal error for every other expression. *)
Lemma closed_set_of_shapes (current_args : list string) (current_bounds : RDom)
    (index : nat) (e : SymExpr) :
  (length current_args <= length current_bounds)%nat ->
  rvars_in_range index e ->
  (supported current_args current_bounds e ->
   exists b, get_min_max_bounds e current_args current_bounds index = Ok b)
  /\ (~ supported current_args current_bounds e ->
      exists err, get_min_max_bounds e current_args current_bounds index = Err err
                  /\ fatal err).
Proof.
  intros Hctx Hrange.
  destruct (get_min_max_bounds_cases current_args current_bounds index e Hctx Hrange)
    as [[Hs Hok]|[Hn Herr]].
  - split; [intros _; exact Hok | intros Hn; contradiction].
  - split; [intros Hs; contradiction | intros _; exact Herr].
Qed.

(** Only supported shapes get a pair of bounds, whatever the context. *)
Lemma bounds_only_for_supported (current_args : list string) (current_bounds : RDom)
    (index : nat) (e : SymExpr) (b : SymExpr * SymExpr) :
  get_min_max_bounds e current_args current_bounds index = Ok b ->
  supported current_args current_bounds e.
Proof.
  revert b.
  induction e as [z|q|t v IHv|x d|o a c IHa IHc|a IHa|c t f IHc IHt IHf|x args ct fn IHargs
                 |x v c IHv IHc] using SymExpr_ind'; intros b Hrun; try discriminate Hrun.
  - exact I.
  - destruct d as [domain|]; [exact I|]. simpl in Hrun |- *.
    destruct (first_index current_args x) as [i|]; [|discriminate].
    destruct (current_bounds !! i) as [rvar|] eqn:Hb; [|discriminate].
    exists i. split; [reflexivity|]. eapply lookup_lt_Some. exact Hb.
  - assert (Hop : exists ba bc,
              (o = Add \/ o = Sub \/ o = Min \/ o = Max)
              /\ get_min_max_bounds a current_args current_bounds index = Ok ba
              /\ get_min_max_bounds c current_args current_bounds index = Ok bc).
    { destruct o; try discriminate Hrun; simpl in Hrun;
        apply bind_Ok in Hrun as (ba & Hba & Hrun);
        apply bind_Ok in Hrun as (bc & Hbc & _);
        exists ba, bc; tauto. }
    destruct Hop as (ba & bc & Hop & Hba & Hbc). simpl.
    split; [exact Hop|]. split; [exact (IHa _ Hba) | exact (IHc _ Hbc)].
Qed.

(** A supported and an unsupported argument of the source's tests:
    [x + 1] inside a stage with the domain variable [x], and [x * x]. *)
Lemma closed_set_of_shapes_example :
  let cb := RDom_of_ranges "r" [(mk_int 0, mk_int 13)] in
  (exists b, get_min_max_bounds (mk_var "x" + mk_int 1)%E ["x"] cb 0 = Ok b)
  /\ (exists err, get_min_max_bounds (mk_var "x" * mk_var "x")%E ["x"] cb 0 = Err err
                  /\ fatal err).
Proof.
  intros cb. split.
  - apply (closed_set_of_shapes ["x"] cb 0 (mk_var "x" + mk_int 1)%E).
    + vm_compute. lia.
    + simpl. auto.
    + simpl. split; [auto|]. split; [|exact I].
      exists 0%nat. split; [reflexivity|]. vm_compute. lia.
  - apply (closed_set_of_shapes ["x"] cb 0 (mk_var "x" * mk_var "x")%E).
    + vm_compute. lia.
    + simpl. auto.
    + simpl. intros [[|[|[|]]] _]; discriminate.
Qed.

(** A stage of [blur_x(x, y)] with the stored bounds [(0, 13)] and
    [(0, 31)], and the call [input(x, y + 1)] met in it. *)
Lemma C1_plain_variable_bound_witness :
  let func := mkFunction "blur_x" ["x"; "y"] (MkExpr 1 (FloatImm 0)) [] in
  let bi := mkBI 1 {[ ("blur_x", -1) := [(mk_int 0, mk_int 13); (mk_int 0, mk_int 31)] ]}
                 ("blur_y", -1) ["x"; "y"] [] in
  let args := [MkExpr 2 (Variable_ "x" None);
               MkExpr 3 (Binary Add (MkExpr 4 (Variable_ "y" None)) (MkExpr 5 (IntImm 1)))] in
  let ctx := BI_enter_stage func (-1) bi in
  get_min_max_bounds (mk_var "x") (bi_current_args ctx) (bi_current_bounds ctx) 0
  = Ok (mk_int 0, mk_int 13).
Proof.
  intros func bi args ctx.
  refine (proj1 (proj2 (@C1_plain_variable_bound func (-1) bi
            [(mk_int 0, mk_int 13); (mk_int 0, mk_int 31)] "x" 0%nat (mk_int 0) (mk_int 13)
            args 0%nat 2%positive _ _ _ _))); reflexivity.
Defined.

Section MergeProofs.
Context `{Externals}.

Lemma update_function_bounds_bounds (key : FuncKey) (arg_bounds : FuncBounds)
    (bi bi' : BoundsInferencer) :
  update_function_bounds key arg_bounds bi = Ok bi' ->
  bi_recursion_depth bi' = bi_recursion_depth bi
  /\ bi_current_func_key bi' = bi_current_func_key bi
  /\ bi_current_args bi' = bi_current_args bi
  /\ bi_current_bounds bi' = bi_current_bounds bi
  /\ forall k, k <> key -> bi_func_bounds bi' !! k = bi_func_bounds bi !! k.
Proof.
  unfold update_function_bounds. intros Hrun.
  apply bind_Ok in Hrun as (ab & _ & Hrun). injection Hrun as <-. simpl.
  repeat split. intros k Hk. apply lookup_insert_ne. congruence.
Qed.

(** [visit(Call)] on a call of a Halide function, in two steps: the call
    site is recorded under its key, then the walk goes into the callee
    unless the call is a self-reference. *)
Lemma BI_accept_call (env : gmap string Function)
    (inference : Function -> BoundsInferencer -> Result BoundsInferencer)
    (p : addr) (x : string) (args : list Expr) (k : string) (func : Function)
    (bi : BoundsInferencer) (arg_bounds : FuncBounds) :
  env !! k = Some func ->
  call_arg_bounds args 0 bi = Ok arg_bounds ->
  let key := target_key (bi_current_func_key bi) (fn_name func) (num_update_definitions func) in
  BI_accept env inference (MkExpr p (Call x args Halide (Some k))) bi
  = (bi1 ← update_function_bounds key arg_bounds bi;
     if decide ((bi_current_func_key bi).1 = fn_name func) then Ok bi1
     else bi2 ← inference func
                  (mkBI (bi_recursion_depth bi1 + 1) (bi_func_bounds bi1)
                        (bi_current_func_key bi1) (bi_current_args bi1) (bi_current_bounds bi1));
          Ok (mkBI (bi_recursion_depth bi2 - 1) (bi_func_bounds bi2)
                   (bi_current_func_key bi2) (bi_current_args bi2) (bi_current_bounds bi2))).
Proof.
  intros Hk Hargs key. simpl. rewrite Hk. simpl. rewrite Hargs. simpl. fold key.
  destruct (update_function_bounds key arg_bounds bi) as [bi1|err] eqn:Hrec; simpl; [|reflexivity].
  destruct (update_function_bounds_bounds _ _ _ _ Hrec) as (_ & Hkey & _).
  rewrite Hkey.
  destruct (decide ((bi_current_func_key bi).1 ≠ fn_name func)) as [Hne|Heq];
    destruct (decide ((bi_current_func_key bi).1 = fn_name func)) as [Heq'|Hne'];
    try reflexivity; try contradiction.
Qed.


End MergeProofs.

(** ** Reverse accumulation *)

Lemma accumulate_fields (stub : Expr) (adjoint : SymExpr) (ra : ReverseAccumulationVisitor) :
  ra_adjoint_funcs (accumulate stub adjoint ra) = ra_adjoint_funcs ra
  /\ ra_let_var_mapping (accumulate stub adjoint ra) = ra_let_var_mapping ra
  /\ ra_func_bounds (accumulate stub adjoint ra) = ra_func_bounds ra
  /\ ra_current_func_key (accumulate stub adjoint ra) = ra_current_func_key ra
  /\ ra_current_bounds (accumulate stub adjoint ra) = ra_current_bounds ra.
Proof.
  unfold accumulate. cbv zeta.
  destruct (ra_accumulated_adjoints ra !! get stub); simpl; auto.
Qed.

Lemma accumulate_lookup (stub : Expr) (adjoint : SymExpr) (ra : ReverseAccumulationVisitor) :
  ra_accumulated_adjoints (accumulate stub adjoint ra) !! get stub
  = Some match ra_accumulated_adjoints ra !! get stub with
         | None => adjoint
         | Some previous => (previous + adjoint)%E
         end.
Proof.
  unfold accumulate. cbv zeta.
  destruct (ra_accumulated_adjoints ra !! get stub); simpl; apply lookup_insert_eq.
Qed.

Lemma accumulate_lookup_ne (stub : Expr) (adjoint : SymExpr) (ra : ReverseAccumulationVisitor)
    (k : addr) :
  k <> get stub ->
  ra_accumulated_adjoints (accumulate stub adjoint ra) !! k = ra_accumulated_adjoints ra !! k.
Proof.
  intros Hk. unfold accumulate. cbv zeta.
  destruct (ra_accumulated_adjoints ra !! get stub); simpl;
    apply lookup_insert_ne; congruence.
Qed.

Lemma extends_trans (u v w : SymExpr) : extends u v -> extends v w -> extends u w.
Proof. intros Huv Hvw. induction Hvw; [exact Huv | constructor; exact IHHvw]. Qed.

Lemma additive_step_refl (m : gmap addr SymExpr) : additive_step m m.
Proof. intros k v Hk. exists v. split; [exact Hk | constructor]. Qed.

Lemma additive_step_trans (m1 m2 m3 : gmap addr SymExpr) :
  additive_step m1 m2 -> additive_step m2 m3 -> additive_step m1 m3.
Proof.
  intros H12 H23 k v Hk.
  destruct (H12 k v Hk) as (v2 & Hk2 & He2).
  destruct (H23 k v2 Hk2) as (v3 & Hk3 & He3).
  exists v3. split; [exact Hk3 | eapply extends_trans; eauto].
Qed.

Lemma accumulate_additive (stub : Expr) (adjoint : SymExpr) (ra : ReverseAccumulationVisitor) :
  additive_step (ra_accumulated_adjoints ra)
                (ra_accumulated_adjoints (accumulate stub adjoint ra)).
Proof.
  intros k v Hk. destruct (decide (k = get stub)) as [->|Hne].
  - rewrite accumulate_lookup, Hk. eexists. split; [reflexivity|].
    constructor. constructor.
  - rewrite accumulate_lookup_ne by exact Hne. exists v. split; [exact Hk | constructor].
Qed.

Lemma fold_accumulate_additive (f : Expr -> SymExpr) (l : list Expr)
    (ra : ReverseAccumulationVisitor) :
  additive_step (ra_accumulated_adjoints ra)
    (ra_accumulated_adjoints (fold_left (fun s a => accumulate a (f a) s) l ra)).
Proof.
  revert ra. induction l as [|a l IH]; intros ra; simpl.
  - apply additive_step_refl.
  - eapply additive_step_trans; [apply accumulate_additive | apply IH].
Qed.

Lemma fold_accumulate_fields (f : Expr -> SymExpr) (l : list Expr)
    (ra : ReverseAccumulationVisitor) :
  let ra' := fold_left (fun s a => accumulate a (f a) s) l ra in
  ra_adjoint_funcs ra' = ra_adjoint_funcs ra
  /\ ra_current_func_key ra' = ra_current_func_key ra
  /\ ra_current_bounds ra' = ra_current_bounds ra.
Proof.
  revert ra. induction l as [|a l IH]; intros ra; simpl; [auto|].
  destruct (IH (accumulate a (f a) ra)) as (H1 & H2 & H3).
  destruct (accumulate_fields a (f a) ra) as (G1 & _ & _ & G2 & G3).
  simpl in *. rewrite H1, H2, H3. auto.
Qed.

Section ReverseProofs.
Context `{Externals}.
Variable env : gmap string Function.

(** C4. A product, a quotient, a minimum or a maximum whose adjoint is
    accumulated hands its operands the local derivatives of the table:
    [adjoint * b] and [adjoint * a] for [a * b]; [adjoint / b] and
    [- adjoint * a / (b * b)] for [a / b]; the adjoint gated by [a <= b] and
    by [b <= a] for [min(a, b)], by [a >= b] and by [b >= a] for
    [max(a, b)].  After the visit the entry of [a] holds the first of the
    two, and the entry of [b] the second, added to what the entry held
    before (both of them when [a] and [b] are one node), and no other entry
    has changed.  Read over the rationals the two are the adjoint times the
    partial derivative, and on a tie both operands receive the whole
    adjoint. *)
Theorem C4_local_derivative_rules (op : BinaryOp) (p : addr) (a b : Expr)
    (adjoint rule_a rule_b : SymExpr) (ra : ReverseAccumulationVisitor) :
  ra_accumulated_adjoints ra !! p = Some adjoint ->
  local_rule op adjoint (erase a) (erase b) = Some (rule_a, rule_b) ->
  (exists ra',
     RA_accept env (MkExpr p (Binary op a b)) ra = Ok ra'
     /\ (get a <> get b ->
         ra_accumulated_adjoints ra' !! get a
         = Some match ra_accumulated_adjoints ra !! get a with
                | None => rule_a
                | Some previous => (previous + rule_a)%E
                end
         /\ ra_accumulated_adjoints ra' !! get b
            = Some match ra_accumulated_adjoints ra !! get b with
                   | None => rule_b
                   | Some previous => (previous + rule_b)%E
                   end)
     /\ (get a = get b ->
         ra_accumulated_adjoints ra' !! get a
         = Some match ra_accumulated_adjoints ra !! get a with
                | None => (rule_a + rule_b)%E
                | Some previous => (previous + rule_a + rule_b)%E
                end)
     /\ (forall k, k <> get a -> k <> get b ->
           ra_accumulated_adjoints ra' !! k = ra_accumulated_adjoints ra !! k)
     /\ ra_adjoint_funcs ra' = ra_adjoint_funcs ra)
  /\ forall rho va vb d,
       eval rho (erase a) = Some va -> eval rho (erase b) = Some vb ->
       eval rho adjoint = Some d ->
       match op with
       | Mul => eval rho rule_a = Some (d * vb)%Q /\ eval rho rule_b = Some (d * va)%Q
       | Div =>
           ~ (vb == 0)%Q ->
           exists qa qb, eval rho rule_a = Some qa /\ eval rho rule_b = Some qb
                         /\ (qa == d / vb)%Q /\ (qb == - (d * va) / (vb * vb))%Q
       | Min =>
           eval rho rule_a = Some (if Qle_bool va vb then d else 0%Q)
           /\ eval rho rule_b = Some (if Qle_bool vb va then d else 0%Q)
           /\ ((va == vb)%Q -> eval rho rule_a = Some d /\ eval rho rule_b = Some d)
       | Max =>
           eval rho rule_a = Some (if Qle_bool vb va then d else 0%Q)
           /\ eval rho rule_b = Some (if Qle_bool va vb then d else 0%Q)
           /\ ((va == vb)%Q -> eval rho rule_a = Some d /\ eval rho rule_b = Some d)
       | _ => True
       end.
Proof.
  intros Hadj Hrule. split.
  - exists (accumulate b rule_b (accumulate a rule_a ra)).
    split; [|split; [|split; [|split]]].
    + destruct op; simpl in Hrule; try discriminate; injection Hrule as <- <-;
        simpl; [unfold RA_visit_Mul | unfold RA_visit_Div | unfold RA_visit_Min
                | unfold RA_visit_Max];
        unfold adjoint_of; simpl; rewrite Hadj; reflexivity.
    + intros Hne. split.
      * rewrite accumulate_lookup_ne by exact Hne. apply accumulate_lookup.
      * rewrite accumulate_lookup.
        rewrite accumulate_lookup_ne by (intros Heq; apply Hne; symmetry; exact Heq).
        reflexivity.
    + intros Hsame. rewrite Hsame, accumulate_lookup, <- Hsame, accumulate_lookup.
      destruct (ra_accumulated_adjoints ra !! get a); reflexivity.
    + intros k Ha Hb. rewrite accumulate_lookup_ne by exact Hb.
      apply accumulate_lookup_ne. exact Ha.
    + destruct (accumulate_fields b rule_b (accumulate a rule_a ra)) as (F1 & _).
      destruct (accumulate_fields a rule_a ra) as (G1 & _). congruence.
  - intros rho va vb d Ha Hb Hd.
    assert (Hgate : eval rho (select (binop LE (erase a) (erase b)) adjoint (mk_float 0))
                         = Some (if Qle_bool va vb then d else 0%Q)
                      /\ eval rho (select (binop LE (erase b) (erase a)) adjoint (mk_float 0))
                         = Some (if Qle_bool vb va then d else 0%Q)
                      /\ eval rho (select (binop GE (erase a) (erase b)) adjoint (mk_float 0))
                         = Some (if Qle_bool vb va then d else 0%Q)
                      /\ eval rho (select (binop GE (erase b) (erase a)) adjoint (mk_float 0))
                         = Some (if Qle_bool va vb then d else 0%Q)).
    { simpl. rewrite Ha, Hb, Hd. simpl.
      destruct (Qle_bool va vb), (Qle_bool vb va); simpl; auto. }
    destruct Hgate as (G1 & G2 & G3 & G4).
    assert (Htie : (va == vb)%Q -> Qle_bool va vb = true /\ Qle_bool vb va = true).
    { intros Heq. split; apply Qle_bool_iff; rewrite Heq; apply Qle_refl. }
    destruct op; simpl in Hrule; try discriminate; try exact I; injection Hrule as <- <-.
    + simpl. rewrite Ha, Hb, Hd. auto.
    + intros Hvb.
      assert (Hz : Qeq_bool vb 0 = false).
      { destruct (Qeq_bool vb 0) eqn:E; [|reflexivity].
        apply Qeq_bool_iff in E. contradiction. }
      assert (Hzz : Qeq_bool (vb * vb) 0 = false).
      { destruct (Qeq_bool (vb * vb) 0) eqn:E; [|reflexivity].
        apply Qeq_bool_iff in E. apply Qmult_integral in E. tauto. }
      simpl. rewrite Ha, Hb, Hd. simpl. rewrite Hz, Hzz.
      eexists. eexists. split; [reflexivity|]. split; [reflexivity|].
      split; [reflexivity|]. field. exact Hvb.
    + split; [exact G1|]. split; [exact G2|].
      intros Heq. destruct (Htie Heq) as [T1 T2]. rewrite G1, G2, T1, T2. auto.
    + split; [exact G3|]. split; [exact G4|].
      intros Heq. destruct (Htie Heq) as [T1 T2]. rewrite G3, G4, T1, T2. auto.
Qed.

(** The visit of a call with no function behind it and a name other than
    [exp_f32] leaves the visitor as it was: nothing is accumulated for the
    arguments of the call. *)
Lemma other_call_visit_is_silent (p : addr) (name : string) (op_args : list Expr)
    (call_type : CallType) (adjoint : SymExpr) (ra : ReverseAccumulationVisitor) :
  name <> "exp_f32" ->
  ra_accumulated_adjoints ra !! p = Some adjoint ->
  RA_accept env (MkExpr p (Call name op_args call_type None)) ra = Ok ra.
Proof.
  intros Hname Hadj. simpl. unfold RA_visit_Call, adjoint_of. simpl. rewrite Hadj. simpl.
  destruct (decide (name = "exp_f32")); [contradiction | reflexivity].
Qed.

End ReverseProofs.

Section ScatterProofs.
Context `{Externals}.
Variable env : gmap string Function.

Lemma RA_visit_Call_funcs (op : Expr) (name : string) (op_args : list Expr) (k : string)
    (func : Function) (ra ra' : ReverseAccumulationVisitor) :
  env !! k = Some func ->
  RA_visit_Call env op name op_args (Some k) ra = Ok ra' ->
  let key := target_key (ra_current_func_key ra) (fn_name func)
                        (num_update_definitions func) in
  exists adjoint adjoint',
    ra_accumulated_adjoints ra !! get op = Some adjoint
    /\ canonicalize (ra_current_bounds ra) op_args (fn_args func) adjoint = Ok adjoint'
    /\ ra_adjoint_funcs ra'
       = <[key := add_update (default undefined_Func (ra_adjoint_funcs ra !! key))
                             (fn_args func) adjoint']> (ra_adjoint_funcs ra).
Proof.
  intros Hk Hrun key. unfold RA_visit_Call in Hrun.
  apply bind_Ok in Hrun as (adjoint & Hadj & Hrun).
  unfold adjoint_of in Hadj.
  destruct (ra_accumulated_adjoints ra !! get op) as [adj|] eqn:Hacc; [|discriminate].
  injection Hadj as ->. rewrite Hk in Hrun.
  set (ra1 := if decide (name = "exp_f32")
              then fold_left (fun s a => accumulate a (adjoint * exp (erase a))%E s) op_args ra
              else ra) in *.
  assert (Hsame : ra_adjoint_funcs ra1 = ra_adjoint_funcs ra
                  /\ ra_current_func_key ra1 = ra_current_func_key ra
                  /\ ra_current_bounds ra1 = ra_current_bounds ra).
  { subst ra1. destruct (decide _); [|auto].
    apply (fold_accumulate_fields (fun a => (adjoint * exp (erase a))%E)). }
  destruct Hsame as (Hf & Hc & Hb). rewrite Hc, Hb in Hrun.
  apply bind_Ok in Hrun as (adjoint' & Hcan & Hrun).
  injection Hrun as <-.
  exists adjoint, adjoint'. split; [reflexivity|]. split; [exact Hcan|].
  unfold scatter. simpl. rewrite Hf. reflexivity.
Qed.

(** C3. The visit of a call of a function [g] adds the contribution to
    one accumulator only: the one of the stage before the current one when
    [g] is the function being processed, the one of the last stage of [g]
    (its initialization when it has no update) otherwise.  The
    contribution is the adjoint accumulated for the call, canonicalized;
    the accumulator gets one more update, [acc(args) = acc(args) +
    contribution] over the domain variables of [g] (after a definition as
    zero when it had none), and keeps its name.  The bounds inferencer
    files the bounds of the same call under the same key. *)
Theorem C3_scatter_target (p : addr) (name : string) (op_args : list Expr)
    (call_type : CallType) (k : string) (func : Function)
    (ra ra' : ReverseAccumulationVisitor) :
  env !! k = Some func ->
  RA_accept env (MkExpr p (Call name op_args call_type (Some k))) ra = Ok ra' ->
  let current := ra_current_func_key ra in
  let key : FuncKey :=
    if decide (fn_name func = current.1)
    then (fn_name func, current.2 - 1)
    else (fn_name func, Z.of_nat (length (fn_updates func)) - 1) in
  let previous := default undefined_Func (ra_adjoint_funcs ra !! key) in
  let lhs := List.map mk_var (fn_args func) in
  (exists adjoint adjoint' accumulator,
     ra_accumulated_adjoints ra !! p = Some adjoint
     /\ canonicalize (ra_current_bounds ra) op_args (fn_args func) adjoint = Ok adjoint'
     /\ ra_adjoint_funcs ra' !! key = Some accumulator
     /\ func_name accumulator = func_name previous
     /\ func_value accumulator = Some (default (mk_float 0) (func_value previous))
     /\ func_updates accumulator
        = match func_value previous with
          | Some _ => func_updates previous
          | None => []
          end
          ++ [(lhs, (Sym (Call (func_name previous) lhs Halide (Some (func_name previous)))
                     + adjoint')%E)])
  /\ (forall other, other <> key -> ra_adjoint_funcs ra' !! other = ra_adjoint_funcs ra !! other)
  /\ (forall inference bi arg_bounds,
        bi_current_func_key bi = current ->
        call_arg_bounds op_args 0 bi = Ok arg_bounds ->
        BI_accept env inference (MkExpr p (Call name op_args Halide (Some k))) bi
        = (bi1 ← update_function_bounds key arg_bounds bi;
           if decide (current.1 = fn_name func) then Ok bi1
           else bi2 ← inference func
                        (mkBI (bi_recursion_depth bi1 + 1) (bi_func_bounds bi1)
                              (bi_current_func_key bi1) (bi_current_args bi1)
                              (bi_current_bounds bi1));
                Ok (mkBI (bi_recursion_depth bi2 - 1) (bi_func_bounds bi2)
                         (bi_current_func_key bi2) (bi_current_args bi2)
                         (bi_current_bounds bi2)))).
Proof.
  intros Hk Hrun current key previous lhs.
  assert (Hkey : key = target_key current (fn_name func) (num_update_definitions func)).
  { subst key. unfold target_key, num_update_definitions.
    destruct (decide (fn_name func = current.1)) as [e|n];
      destruct (decide (current.1 = fn_name func)) as [e'|n']; congruence. }
  change (RA_visit_Call env (MkExpr p (Call name op_args call_type (Some k))) name op_args
                        (Some k) ra = Ok ra') in Hrun.
  destruct (RA_visit_Call_funcs _ _ _ _ _ _ _ Hk Hrun)
    as (adjoint & adjoint' & Hacc & Hcan & Hfuncs).
  fold current in Hfuncs. rewrite <- Hkey in Hfuncs. fold previous in Hfuncs.
  split; [|split].
  - exists adjoint, adjoint', (add_update previous (fn_args func) adjoint').
    split; [exact Hacc|]. split; [exact Hcan|].
    split; [rewrite Hfuncs; apply lookup_insert_eq|].
    unfold add_update. fold lhs.
    destruct (func_value previous) as [v|]; simpl; repeat split.
  - intros other Hother. rewrite Hfuncs. apply lookup_insert_ne. congruence.
  - intros inference bi arg_bounds Hcur Hargs.
    rewrite (BI_accept_call env inference p name op_args k func bi arg_bounds Hk Hargs).
    rewrite Hcur, <- Hkey. reflexivity.
Qed.

(** The visit of a node only accumulates. *)
Lemma RA_accept_additive (e : Expr) :
  forall ra ra', RA_accept env e ra = Ok ra' ->
  additive_step (ra_accumulated_adjoints ra) (ra_accumulated_adjoints ra').
Proof.
  induction e as [p n IH] using Expr_ind'. intros ra ra' Hrun.
  assert (Hdefault : visit_children (RA_accept env) n ra = Ok ra' ->
                     additive_step (ra_accumulated_adjoints ra) (ra_accumulated_adjoints ra')).
  { rewrite visit_children_foldM. clear Hrun. revert ra.
    induction IH as [|c cs Hc _ IHcs]; intros ra Hfold; simpl in Hfold.
    - injection Hfold as <-. apply additive_step_refl.
    - apply bind_Ok in Hfold as (ra1 & H1 & Hfold).
      eapply additive_step_trans; [eapply Hc; exact H1 | apply IHcs; exact Hfold]. }
  assert (Hvisit : forall (m : Result SymExpr) (f : SymExpr -> ReverseAccumulationVisitor),
             (forall adj, additive_step (ra_accumulated_adjoints ra)
                                        (ra_accumulated_adjoints (f adj))) ->
             (m ≫= fun adj => Ok (f adj)) = Ok ra' ->
             additive_step (ra_accumulated_adjoints ra) (ra_accumulated_adjoints ra')).
  { intros m f Hf Hm. apply bind_Ok in Hm as (adj & _ & Hm). injection Hm as <-. apply Hf. }
  assert (Htwo : forall s1 a1 s2 a2,
             additive_step (ra_accumulated_adjoints ra)
               (ra_accumulated_adjoints (accumulate s2 a2 (accumulate s1 a1 ra)))).
  { intros. eapply additive_step_trans; apply accumulate_additive. }
  destruct n as [z|q|t v|x d|o a b|a|c t f|x args ct fn|x v b]; simpl in Hrun;
    try (apply Hdefault; exact Hrun).
  - eapply Hvisit; [|exact Hrun]. intros adj. apply accumulate_additive.
  - unfold RA_visit_Variable in Hrun.
    apply bind_Ok in Hrun as (adj & _ & Hrun).
    destruct (ra_let_var_mapping ra !! x); injection Hrun as <-;
      [apply accumulate_additive | apply additive_step_refl].
  - destruct o; try (apply Hdefault; exact Hrun);
      (eapply Hvisit; [|exact Hrun]; intros adj; apply Htwo).
  - unfold RA_visit_Call in Hrun.
    apply bind_Ok in Hrun as (adj & _ & Hrun).
    set (ra1 := if decide (x = "exp_f32")
                then fold_left (fun s a => accumulate a (adj * exp (erase a))%E s) args ra
                else ra) in *.
    assert (H1 : additive_step (ra_accumulated_adjoints ra) (ra_accumulated_adjoints ra1)).
    { subst ra1. destruct (decide _); [|apply additive_step_refl].
      apply (fold_accumulate_additive (fun a => (adj * exp (erase a))%E)). }
    destruct fn as [k|]; [|injection Hrun as <-; exact H1].
    destruct (env !! k) as [func|]; [|discriminate].
    apply bind_Ok in Hrun as (adj' & _ & Hrun). injection Hrun as <-. exact H1.
  - unfold RA_visit_Let in Hrun.
    apply bind_Ok in Hrun as (adj & _ & Hrun). injection Hrun as <-. simpl.
    apply accumulate_additive.
Qed.

Lemma RA_walk_additive (l : list Expr) :
  forall ra ra', foldM (RA_accept env) l ra = Ok ra' ->
  additive_step (ra_accumulated_adjoints ra) (ra_accumulated_adjoints ra').
Proof.
  induction l as [|e l IH]; intros ra ra' Hrun; simpl in Hrun.
  - injection Hrun as <-. apply additive_step_refl.
  - apply bind_Ok in Hrun as (ra1 & H1 & Hrun).
    eapply additive_step_trans; [eapply RA_accept_additive; exact H1 | eapply IH; exact Hrun].
Qed.

(** C9 (amended). [accumulate(e, a)] is keyed by the address of [e]: an
    address with no entry gets [a], an address with an entry gets its
    previous value plus [a], and no other entry changes.  Through the walk
    of an expression list every entry stays in the map and changes only by
    such additions.  Between two walks the driver assigns the entry of the
    root of the next stage the call of the adjoint function of the stage,
    whatever the entry was, and leaves the other entries alone. *)
Theorem C9_accumulation_is_additive (stub : Expr) (a : SymExpr)
    (ra : ReverseAccumulationVisitor) :
  ra_accumulated_adjoints (accumulate stub a ra) !! get stub
  = Some match ra_accumulated_adjoints ra !! get stub with
         | None => a
         | Some previous => (previous + a)%E
         end
  /\ (forall k, k <> get stub ->
        ra_accumulated_adjoints (accumulate stub a ra) !! k = ra_accumulated_adjoints ra !! k)
  /\ (forall l ra', foldM (RA_accept env) l ra = Ok ra' ->
        forall k v, ra_accumulated_adjoints ra !! k = Some v ->
          exists v', ra_accumulated_adjoints ra' !! k = Some v' /\ extends v v')
  /\ (forall adjoint_func args,
        ra_accumulated_adjoints (seed_stage stub adjoint_func args ra) !! get stub
        = Some (Sym (Call (func_name adjoint_func) (List.map mk_var args) Halide
                          (Some (func_name adjoint_func))))
        /\ forall k, k <> get stub ->
             ra_accumulated_adjoints (seed_stage stub adjoint_func args ra) !! k
             = ra_accumulated_adjoints ra !! k).
Proof.
  split; [apply accumulate_lookup|].
  split; [intros k Hk; apply accumulate_lookup_ne; exact Hk|].
  split; [intros l ra' Hrun; exact (RA_walk_additive l ra ra' Hrun)|].
  intros adjoint_func args. unfold seed_stage. simpl. split.
  - apply lookup_insert_eq.
  - intros k Hk. apply lookup_insert_ne. congruence.
Qed.

End ScatterProofs.

(** ** Index canonicalization *)

Lemma substitute_not_free (x : string) (replacement e : SymExpr) :
  occurs_free x replacement = false ->
  occurs_free x (substitute x replacement e) = false.
Proof.
  intros Hr.
  induction e as [z|q|t v IHv|y d|o a b IHa IHb|a IHa|c t f IHc IHt IHf|y args ct fn IHargs
                 |y v b IHv IHb] using SymExpr_ind'; simpl.
  - reflexivity.
  - reflexivity.
  - exact IHv.
  - destruct (decide (y = x)) as [->|Hne]; [exact Hr|].
    simpl. apply bool_decide_eq_false. exact Hne.
  - rewrite IHa, IHb. reflexivity.
  - exact IHa.
  - rewrite IHc, IHt, IHf. reflexivity.
  - induction IHargs as [|a args Ha _ IH]; simpl; [reflexivity|].
    rewrite Ha. exact IH.
  - rewrite IHv. simpl. destruct (decide (y = x)) as [->|Hne].
    + rewrite bool_decide_eq_true_2 by reflexivity. reflexivity.
    + rewrite IHb. apply andb_false_r.
Qed.

Section CanonicalizeProofs.
Context `{Externals}.
Variable env : gmap string Function.

Lemma canonicalize_app (current_bounds : RDom) (pre post : list Expr)
    (vpre vpost : list string) (adjoint : SymExpr) :
  length pre = length vpre ->
  canonicalize current_bounds (pre ++ post) (vpre ++ vpost) adjoint
  = (canonicalize current_bounds pre vpre adjoint ≫= canonicalize current_bounds post vpost).
Proof.
  revert vpre adjoint. induction pre as [|a pre IH]; intros [|v vpre] adjoint Hlen;
    simpl in Hlen; try discriminate; simpl.
  - reflexivity.
  - destruct (canonicalize_arg current_bounds a v adjoint) as [adjoint'|]; simpl; [|reflexivity].
    apply IH. lia.
Qed.

Lemma get_func_bounds_lookup (bi : BoundsInferencer) (key : FuncKey) :
  get_func_bounds bi !! key
  = (fun b => RDom_of_ranges "r" (List.map min_extent b)) <$> bi_func_bounds bi !! key.
Proof. unfold get_func_bounds. apply lookup_fmap. Qed.

(** The expression that stands for a missing coordinate is the same for
    every coordinate: it is made from the whole domain of the stage. *)
Lemma replacement_ignores_coordinate (current_bounds : RDom) (arg1 arg2 : Expr)
    (v1 v2 : string) :
  VariableFinder_find (erase arg1) v1 = false ->
  VariableFinder_find (erase arg2) v2 = false ->
  (forall x d, node arg1 <> Variable_ x (Some d)) ->
  (forall x d, node arg2 <> Variable_ x (Some d)) ->
  canonicalize_arg current_bounds arg1 v1 (mk_var v1)
  = canonicalize_arg current_bounds arg2 v2 (mk_var v2).
Proof.
  intros H1 H2 Hn1 Hn2. unfold canonicalize_arg. rewrite H1, H2. simpl.
  rewrite !bool_decide_eq_true_2 by reflexivity.
  destruct (RDom_as_Expr current_bounds) as [r|err]; simpl.
  - destruct (decide (v1 = v1)) as [_|Hne]; [|contradiction].
    destruct (decide (v2 = v2)) as [_|Hne]; [|contradiction].
    destruct (node arg1) as [| | |x1 [d1|]| | | | |] eqn:E1;
      try (exfalso; exact (Hn1 _ _ eq_refl));
      destruct (node arg2) as [| | |x2 [d2|]| | | | |] eqn:E2;
      try (exfalso; exact (Hn2 _ _ eq_refl)); reflexivity.
  - reflexivity.
Qed.

(** The case in which the loop does replace the coordinate: in a stage
    whose inferred bounds have one dimension
    [r], at a call [g(e0, e1, ...)]: when [e_i] does not contain the [i]-th
    domain variable [v_i] of [g] and the adjoint propagated so far does, the
    loop replaces [v_i] in the adjoint by the reduction variable of [r], so
    that [v_i] no longer occurs free, before it goes on with the other
    arguments and before the adjoint is scattered.  [r] holds the lower
    bound and the extent that the bounds inferencer stored for the stage. *)
Lemma one_dimension_replaces_coordinate (r : ReductionVariable SymExpr)
    (pre : list Expr) (vpre : list string) (arg : Expr) (v : string)
    (adjoint0 adjoint : SymExpr) :
  length pre = length vpre ->
  canonicalize [r] pre vpre adjoint0 = Ok adjoint ->
  VariableFinder_find (erase arg) v = false ->
  VariableFinder_find adjoint v = true ->
  rv_var r <> v ->
  let reduction := Sym (Variable_ (rv_var r) (Some [r])) in
  let replaced := substitute v reduction adjoint in
  let renamed := match node arg with
                 | Variable_ x (Some _) => substitute x (mk_var v) replaced
                 | _ => replaced
                 end in
  RDom_as_Expr [r] = Ok reduction
  /\ occurs_free v replaced = false
  /\ (forall post vpost,
        canonicalize [r] (pre ++ arg :: post) (vpre ++ v :: vpost) adjoint0
        = canonicalize [r] post vpost renamed)
  /\ (forall op name k func ra post vpost,
        env !! k = Some func ->
        fn_args func = vpre ++ v :: vpost ->
        ra_current_bounds ra = [r] ->
        ra_accumulated_adjoints ra !! get op = Some adjoint0 ->
        name <> "exp_f32" ->
        RA_visit_Call env op name (pre ++ arg :: post) (Some k) ra
        = (adjoint' ← canonicalize [r] post vpost renamed;
           Ok (scatter (target_key (ra_current_func_key ra) (fn_name func)
                                   (num_update_definitions func))
                       (fn_args func) adjoint' ra)))
  /\ (forall bi key,
        get_func_bounds bi !! key = Some [r] ->
        exists minimum maximum,
          bi_func_bounds bi !! key = Some [(minimum, maximum)]
          /\ rv_min r = simplify minimum
          /\ rv_extent r = simplify (maximum - simplify minimum + mk_int 1)%E).
Proof.
  intros Hlen Hpre Harg Hadj Hname reduction replaced renamed.
  assert (Hloop : forall post vpost,
            canonicalize [r] (pre ++ arg :: post) (vpre ++ v :: vpost) adjoint0
            = canonicalize [r] post vpost renamed).
  { intros post vpost. rewrite canonicalize_app by exact Hlen. rewrite Hpre. simpl.
    unfold canonicalize_arg. rewrite Harg, Hadj. simpl.
    fold reduction. fold replaced. subst renamed.
    destruct (node arg) as [| | |x [d|]| | | | |]; reflexivity. }
  split; [reflexivity|].
  split; [|split; [exact Hloop|split]].
  - apply substitute_not_free. simpl. apply bool_decide_eq_false. exact Hname.
  - intros op name k func ra post vpost Hk Hargs Hcb Hacc Hexp.
    unfold RA_visit_Call, adjoint_of. rewrite Hacc. simpl.
    destruct (decide (name = "exp_f32")); [contradiction|].
    rewrite Hk, Hargs, Hcb. rewrite Hloop. reflexivity.
  - intros bi key Hkey. rewrite get_func_bounds_lookup in Hkey.
    destruct (bi_func_bounds bi !! key) as [b|]; [|discriminate].
    simpl in Hkey. injection Hkey as Hkey.
    destruct b as [|[minimum maximum] [|b2 b]]; try discriminate.
    exists minimum, maximum. split; [reflexivity|].
    unfold RDom_of_ranges in Hkey. simpl in Hkey. injection Hkey as <-. simpl. auto.
Qed.

End CanonicalizeProofs.

(** ** Nodes of an expression *)

Lemma elem_of_concat_map {A B} (f : A -> list B) (l : list A) (y : B) :
  y ∈ concat (List.map f l) <-> exists x, x ∈ l /\ y ∈ f x.
Proof.
  rewrite list_elem_of_In, in_concat. split.
  - intros (k & Hk & Hy). apply in_map_iff in Hk as (x & <- & Hx).
    exists x. rewrite !list_elem_of_In. auto.
  - intros (x & Hx & Hy). exists (f x). split.
    + apply in_map. apply list_elem_of_In. exact Hx.
    + apply list_elem_of_In. exact Hy.
Qed.

Lemma subexprs_unfold (p : addr) (n : IRNode Expr) :
  subexprs (MkExpr p n) = MkExpr p n :: concat (List.map subexprs (children n)).
Proof.
  destruct n; simpl; rewrite ?app_nil_r; reflexivity.
Qed.

Lemma subexprs_self (e : Expr) : e ∈ subexprs e.
Proof. destruct e as [p n]. rewrite subexprs_unfold. apply list_elem_of_here. Qed.

Lemma subexprs_child (e c d : Expr) :
  c ∈ children (node e) -> d ∈ subexprs c -> d ∈ subexprs e.
Proof.
  destruct e as [p n]. intros Hc Hd. simpl in Hc. rewrite subexprs_unfold.
  apply list_elem_of_further. apply elem_of_concat_map. eauto.
Qed.

Lemma subexprs_trans (e : Expr) :
  forall d d', d ∈ subexprs e -> d' ∈ subexprs d -> d' ∈ subexprs e.
Proof.
  induction e as [p n IH] using Expr_ind'. intros d d' Hd Hd'.
  rewrite subexprs_unfold in Hd. apply elem_of_cons in Hd as [->|Hd]; [exact Hd'|].
  apply elem_of_concat_map in Hd as (c & Hc & Hdc).
  apply (subexprs_child (MkExpr p n) c); [exact Hc|].
  rewrite Forall_forall in IH. eapply IH; eauto.
Qed.

Lemma subexprs_length_child (e c : Expr) :
  c ∈ children (node e) -> (length (subexprs c) < length (subexprs e))%nat.
Proof.
  destruct e as [p n]. intros Hc. simpl in Hc. rewrite subexprs_unfold. simpl length.
  apply list_elem_of_split in Hc as (l1 & l2 & ->).
  rewrite map_app, concat_app, length_app. simpl. rewrite length_app. lia.
Qed.

Lemma subexprs_length (e : Expr) :
  forall d, d ∈ subexprs e -> (length (subexprs d) <= length (subexprs e))%nat.
Proof.
  induction e as [p n IH] using Expr_ind'. intros d Hd.
  rewrite subexprs_unfold in Hd. apply elem_of_cons in Hd as [->|Hd]; [lia|].
  apply elem_of_concat_map in Hd as (c & Hc & Hdc).
  rewrite Forall_forall in IH. specialize (IH c Hc d Hdc).
  pose proof (subexprs_length_child (MkExpr p n) c Hc). lia.
Qed.

(** A node is none of the nodes below its operands. *)
Lemma subexprs_strict (e c d : Expr) :
  c ∈ children (node e) -> d ∈ subexprs c -> d <> e.
Proof.
  intros Hc Hd ->.
  pose proof (subexprs_length_child e c Hc).
  pose proof (subexprs_length c e Hd). lia.
Qed.

(** ** The expression sorter *)

Lemma ES_accept_children (p : addr) (n : IRNode Expr) (st : ExpressionSorter) :
  ES_accept ES_include n st
  = fold_left (fun s a => ES_include a s) (ES_children (MkExpr p n)) st.
Proof.
  unfold ES_children. destruct n; try reflexivity.
  simpl. destruct (decide _); reflexivity.
Qed.

Lemma ES_children_children (e c : Expr) : c ∈ ES_children e -> c ∈ children (node e).
Proof.
  unfold ES_children. destruct (node e); try (intros Hc; exact Hc).
  simpl. destruct (decide _); [|intros Hc; exact Hc].
  intros Hc. apply elem_of_nil in Hc. contradiction.
Qed.

Lemma ES_reach_subexprs (e n : Expr) : ES_reach e n -> n ∈ subexprs e.
Proof.
  induction 1 as [|n c _ IH Hc]; [apply subexprs_self|].
  apply (subexprs_trans e n c IH).
  apply (subexprs_child n c c); [apply ES_children_children; exact Hc | apply subexprs_self].
Qed.

Lemma ES_reach_from_child (e c n : Expr) :
  c ∈ ES_children e -> ES_reach c n -> ES_reach e n.
Proof.
  intros Hc Hn. induction Hn as [|n d _ IH Hd].
  - eapply ES_reach_child; [apply ES_reach_root | exact Hc].
  - eapply ES_reach_child; [exact IH | exact Hd].
Qed.

Lemma children_first_app (l : list Expr) (e : Expr) :
  children_first l -> (forall c, c ∈ ES_children e -> c ∈ l) -> children_first (l ++ [e]).
Proof.
  intros Hl He i n Hi c Hc.
  destruct (decide (i < length l)%nat) as [Hlt|Hge].
  - rewrite lookup_app_l in Hi by exact Hlt.
    destruct (Hl i n Hi c Hc) as (j & Hj & Hjc).
    exists j. split; [exact Hj|]. rewrite lookup_app_l by lia. exact Hjc.
  - rewrite lookup_app_r in Hi by lia.
    destruct (i - length l)%nat as [|k] eqn:Hk; simpl in Hi; [|rewrite lookup_nil in Hi; discriminate].
    injection Hi as <-.
    apply He in Hc. apply list_elem_of_lookup in Hc as (j & Hj).
    exists j. split; [apply lookup_lt_Some in Hj; lia|].
    rewrite lookup_app_l by (apply lookup_lt_Some in Hj; exact Hj). exact Hj.
Qed.

Section ExpressionSorterProofs.
(** The nodes of the graph at hand, with one node per address. *)
Variable U : list Expr.
Hypothesis U_consistent : addresses_consistent U.
Local Abbreviation ES_inv := (ES_inv U).
Local Abbreviation ES_include_spec := (ES_include_spec U).
Local Abbreviation inv_visited := (inv_visited U).
Local Abbreviation inv_universe := (inv_universe U).


Lemma ES_fold_spec (cs : list Expr) :
  Forall ES_include_spec cs ->
  (forall c d, c ∈ cs -> d ∈ subexprs c -> d ∈ U) ->
  forall G st, ES_inv G st ->
  (forall c d, c ∈ cs -> d ∈ subexprs c -> get d ∉ G) ->
  let st' := fold_left (fun s a => ES_include a s) cs st in
  ES_inv G st'
  /\ es_visited st ⊆ es_visited st'
  /\ (forall c, c ∈ cs -> c ∈ es_expr_list st')
  /\ exists new, es_expr_list st' = es_expr_list st ++ new
                 /\ forall n, n ∈ new -> exists c, c ∈ cs /\ ES_reach c n.
Proof.
  induction 1 as [|c cs Hc _ IH]; intros HU G st Hinv HG; simpl.
  - split; [exact Hinv|]. split; [reflexivity|]. split.
    + intros c Hc. apply elem_of_nil in Hc. contradiction.
    + exists []. rewrite app_nil_r. split; [reflexivity|].
      intros n Hn. apply elem_of_nil in Hn. contradiction.
  - destruct (Hc (fun d Hd => HU c d (list_elem_of_here _ _) Hd) G st Hinv
                 (fun d Hd => HG c d (list_elem_of_here _ _) Hd))
      as (Hinv1 & Hmono1 & Hin1 & new1 & Hnew1 & Hreach1).
    destruct (IH (fun c' d Hc' Hd => HU c' d (list_elem_of_further _ _ _ Hc') Hd)
                 G (ES_include c st) Hinv1
                 (fun c' d Hc' Hd => HG c' d (list_elem_of_further _ _ _ Hc') Hd))
      as (Hinv2 & Hmono2 & Hin2 & new2 & Hnew2 & Hreach2).
    split; [exact Hinv2|]. split; [etrans; eassumption|]. split.
    + intros c' Hc'. apply elem_of_cons in Hc' as [->|Hc'].
      * rewrite Hnew2. apply elem_of_app. left. exact Hin1.
      * apply Hin2. exact Hc'.
    + exists (new1 ++ new2). split.
      * rewrite Hnew2, Hnew1, app_assoc. reflexivity.
      * intros n Hn. apply elem_of_app in Hn as [Hn|Hn].
        -- exists c. split; [apply list_elem_of_here | apply Hreach1; exact Hn].
        -- destruct (Hreach2 n Hn) as (c' & Hc' & Hr).
           exists c'. split; [apply list_elem_of_further; exact Hc' | exact Hr].
Qed.

Lemma ES_include_correct (e : Expr) : ES_include_spec e.
Proof.
  induction e as [p n IH] using Expr_ind'.
  intros HU G st Hinv HG.
  set (e := MkExpr p n) in *.
  assert (He : e ∈ U) by (apply HU, subexprs_self).
  assert (Hp : p ∉ G) by (apply (HG e), subexprs_self).
  simpl. destruct (decide (p ∈ es_visited st)) as [Hvis|Hnew].
  - (* already visited: the node is in the list *)
    split; [exact Hinv|]. split; [reflexivity|]. split.
    + destruct (inv_visited _ _ Hinv p Hvis) as [HpG|(m & Hm & Hget)]; [contradiction|].
      assert (m = e) as <-; [|exact Hm].
      apply U_consistent; [apply (inv_universe _ _ Hinv); exact Hm | exact He | exact Hget].
    + exists []. rewrite app_nil_r. split; [reflexivity|].
      intros m Hm. apply elem_of_nil in Hm. contradiction.
  - (* a new node: operands first, then the node *)
    rewrite (ES_accept_children p n). fold e.
    set (st1 := mkES ({[p]} ∪ es_visited st) (es_expr_list st)).
    assert (Hinv1 : ES_inv ({[p]} ∪ G) st1).
    { destruct Hinv as [H1 H2 H3 H4 H5 H6]. split; simpl.
      - exact H1.
      - intros m Hm. apply elem_of_union_r, H2, Hm.
      - intros a Ha. apply elem_of_union in Ha as [Ha|Ha].
        + left. apply elem_of_union_l. exact Ha.
        + destruct (H3 a Ha) as [HaG|Hex];
            [left; apply elem_of_union_r; exact HaG | right; exact Hex].
      - exact H4.
      - exact H5.
      - intros m Hm Hin. apply elem_of_union in Hin as [Hin|Hin].
        + apply elem_of_singleton in Hin. apply Hnew. rewrite <- Hin. apply H2. exact Hm.
        + exact (H6 m Hm Hin). }
    assert (Hsub : forall c d, c ∈ ES_children e -> d ∈ subexprs c -> d ∈ subexprs e).
    { intros c d Hc Hd.
      apply (subexprs_child e c d); [apply ES_children_children; exact Hc | exact Hd]. }
    assert (IH' : Forall ES_include_spec (ES_children e)).
    { apply Forall_forall. intros c Hc. rewrite Forall_forall in IH.
      apply IH. apply (ES_children_children e c Hc). }
    destruct (ES_fold_spec (ES_children e) IH'
                (fun c d Hc Hd => HU d (Hsub c d Hc Hd)) ({[p]} ∪ G) st1 Hinv1)
      as (Hinv2 & Hmono2 & Hin2 & new & Hnew2 & Hreach2).
    { intros c d Hc Hd Hin. apply elem_of_union in Hin as [Hin|Hin].
      - apply elem_of_singleton in Hin.
        apply (subexprs_strict e c d (ES_children_children e c Hc) Hd).
        apply U_consistent; [apply HU, (Hsub c d Hc Hd) | exact He | exact Hin].
      - exact (HG d (Hsub c d Hc Hd) Hin). }
    set (st2 := fold_left (fun s a => ES_include a s) (ES_children e) st1) in *.
    destruct Hinv2 as [H1 H2 H3 H4 H5 H6].
    assert (Hpvis : p ∈ es_visited st2).
    { apply Hmono2. apply elem_of_union_l, elem_of_singleton. reflexivity. }
    split; [|split; [|split]].
    + split; simpl.
      * rewrite fmap_app. apply NoDup_app. split; [exact H1|]. split; [|apply NoDup_singleton].
        intros a Ha Hsingle. apply list_elem_of_singleton in Hsingle. simpl in Hsingle.
        apply list_elem_of_fmap in Ha as (m & -> & Hm).
        apply (H6 m Hm). apply elem_of_union_l, elem_of_singleton. exact Hsingle.
      * intros m Hm. apply elem_of_app in Hm as [Hm|Hm]; [apply H2; exact Hm|].
        apply list_elem_of_singleton in Hm as ->. exact Hpvis.
      * intros a Ha. destruct (H3 a Ha) as [HaG|(m & Hm & Hget)].
        -- apply elem_of_union in HaG as [HaG|HaG]; [|left; exact HaG].
           apply elem_of_singleton in HaG as ->. right. exists e. split; [|reflexivity].
           apply elem_of_app. right. apply list_elem_of_singleton. reflexivity.
        -- right. exists m. split; [apply elem_of_app; left; exact Hm | exact Hget].
      * apply children_first_app; [exact H4 | exact Hin2].
      * intros m Hm. apply elem_of_app in Hm as [Hm|Hm]; [apply H5; exact Hm|].
        apply list_elem_of_singleton in Hm as ->. exact He.
      * intros m Hm. apply elem_of_app in Hm as [Hm|Hm].
        -- intros HmG. apply (H6 m Hm). apply elem_of_union_r. exact HmG.
        -- apply list_elem_of_singleton in Hm as ->. exact Hp.
    + simpl. etrans; [|exact Hmono2]. subst st1. simpl. apply union_subseteq_r.
    + simpl. apply elem_of_app. right. apply list_elem_of_singleton. reflexivity.
    + simpl. exists (new ++ [e]). split.
      * rewrite Hnew2. subst st1. simpl. rewrite app_assoc. reflexivity.
      * intros m Hm. apply elem_of_app in Hm as [Hm|Hm].
        -- destruct (Hreach2 m Hm) as (c & Hc & Hr). exact (ES_reach_from_child e c m Hc Hr).
        -- apply list_elem_of_singleton in Hm as ->. apply ES_reach_root.
Qed.

End ExpressionSorterProofs.

(** C8. On an expression whose addresses identify its nodes, the list of
    the expression sorter holds every node once (no address twice), holds
    exactly the root and the nodes reached from it through operands, the
    arguments of calls of Halide functions and of images not being followed,
    puts every node after all the operands it is followed to, and ends with
    the root. *)
Theorem C8_expression_sorter_order (e : Expr) :
  addresses_consistent (subexprs e) ->
  NoDup (get <$> ES_sort e)
  /\ (forall n, n ∈ ES_sort e <-> ES_reach e n)
  /\ children_first (ES_sort e)
  /\ last (ES_sort e) = Some e.
Proof.
  intros Hcons. unfold ES_sort.
  destruct e as [p n]. simpl node. set (e := MkExpr p n).
  rewrite (ES_accept_children p n). fold e.
  assert (Hinv0 : ES_inv (subexprs e) ∅ (mkES ∅ [])).
  { split; simpl.
    - constructor.
    - intros m Hm. apply elem_of_nil in Hm. contradiction.
    - intros a Ha. apply elem_of_empty in Ha. contradiction.
    - intros i m Hi. rewrite lookup_nil in Hi. discriminate.
    - intros m Hm. apply elem_of_nil in Hm. contradiction.
    - intros m _. apply not_elem_of_empty. }
  assert (Hsub : forall c d, c ∈ ES_children e -> d ∈ subexprs c -> d ∈ subexprs e).
  { intros c d Hc Hd.
    apply (subexprs_child e c d); [apply ES_children_children; exact Hc | exact Hd]. }
  destruct (ES_fold_spec (subexprs e) (ES_children e)
              (proj2 (Forall_forall _ _) (fun c _ => ES_include_correct (subexprs e) Hcons c))
              Hsub ∅ (mkES ∅ []) Hinv0 (fun c d _ _ => not_elem_of_empty _))
    as (Hinv & _ & Hin & new & Hnew & Hreach).
  set (st := fold_left (fun s a => ES_include a s) (ES_children e) (mkES ∅ [])) in *.
  simpl in Hnew. destruct Hinv as [H1 H2 H3 H4 H5 H6].
  assert (Hfirst : children_first (es_expr_list st ++ [e])).
  { apply children_first_app; [exact H4 | exact Hin]. }
  assert (Hstrict : forall m, m ∈ es_expr_list st -> ES_reach e m /\ m <> e).
  { intros m Hm. rewrite Hnew in Hm. destruct (Hreach m Hm) as (c & Hc & Hr). split.
    - exact (ES_reach_from_child e c m Hc Hr).
    - apply (subexprs_strict e c m (ES_children_children e c Hc)).
      apply ES_reach_subexprs. exact Hr. }
  split; [|split; [|split]].
  - rewrite fmap_app. apply NoDup_app. split; [exact H1|]. split; [|apply NoDup_singleton].
    intros a Ha Hsingle. apply list_elem_of_singleton in Hsingle.
    apply list_elem_of_fmap in Ha as (m & -> & Hm).
    destruct (Hstrict m Hm) as [Hr Hne]. apply Hne.
    apply Hcons; [apply ES_reach_subexprs; exact Hr | apply subexprs_self | exact Hsingle].
  - intros m. split.
    + intros Hm. apply elem_of_app in Hm as [Hm|Hm].
      * apply Hstrict. exact Hm.
      * apply list_elem_of_singleton in Hm as ->. apply ES_reach_root.
    + induction 1 as [|m c _ IHm Hc].
      * apply elem_of_app. right. apply list_elem_of_singleton. reflexivity.
      * apply list_elem_of_lookup in IHm as (i & Hi).
        destruct (Hfirst i m Hi c Hc) as (j & _ & Hj).
        apply list_elem_of_lookup. exists j. exact Hj.
  - exact Hfirst.
  - apply last_snoc.
Qed.

(** ** The function sorter *)

Lemma foldM_stages {S} (func : Function) (g : Expr -> S -> Result S) (st : S) :
  stage_loop (fun update_id s => e ← stage_value func update_id; g e s)
             (length (fn_updates func)) st
  = foldM g (stage_values func) st.
Proof.
  rewrite stage_loop_foldM.
  pose proof (stage_ids_values func) as Hmap. revert Hmap st.
  generalize (stage_ids (length (fn_updates func))) as ids.
  generalize (stage_values func) as vals.
  induction vals as [|b vals IH]; intros [|i ids] Hmap st; simpl in Hmap; try discriminate.
  - reflexivity.
  - injection Hmap as Hi Hmap. simpl. rewrite Hi. simpl.
    destruct (g b st) as [st'|]; simpl; [apply IH; exact Hmap | reflexivity].
Qed.

Lemma program_nodes_root (env : gmap string Function) (root d : Expr) :
  d ∈ subexprs root -> d ∈ program_nodes env root.
Proof. intros Hd. unfold program_nodes. apply elem_of_app. left. exact Hd. Qed.

Lemma program_nodes_stage (env : gmap string Function) (root : Expr) (k : string)
    (func : Function) (b d : Expr) :
  env !! k = Some func -> b ∈ stage_values func -> d ∈ subexprs b ->
  d ∈ program_nodes env root.
Proof.
  intros Hk Hb Hd. unfold program_nodes. apply elem_of_app. right.
  apply elem_of_concat_map. exists (k, func). split.
  - apply elem_of_map_to_list. exact Hk.
  - simpl. apply elem_of_concat_map. exists b. auto.
Qed.

Lemma program_nodes_child (env : gmap string Function) (root e c : Expr) :
  e ∈ program_nodes env root -> c ∈ children (node e) -> c ∈ program_nodes env root.
Proof.
  intros He Hc. unfold program_nodes in *.
  assert (Hce : c ∈ subexprs e) by (apply (subexprs_child e c c Hc), subexprs_self).
  apply elem_of_app in He as [He|He]; apply elem_of_app.
  - left. exact (subexprs_trans root e c He Hce).
  - right. apply elem_of_concat_map in He as (kf & Hkf & He).
    apply elem_of_concat_map in He as (b & Hb & He).
    apply elem_of_concat_map. exists kf. split; [exact Hkf|].
    apply elem_of_concat_map. exists b. split; [exact Hb|].
    exact (subexprs_trans b e c He Hce).
Qed.

Section FunctionSorterProofs.
Variable env : gmap string Function.
Variable root : Expr.
Hypothesis WF : well_formed env root.
Local Abbreviation FS_done := (FS_done env).
Local Abbreviation FS_inv := (FS_inv env root).
Local Abbreviation FS_measure := (FS_measure env).
Local Abbreviation FS_context := (FS_context env root).
Local Abbreviation FS_sort_spec := (FS_sort_spec env root).
Local Abbreviation FS_accept_spec := (FS_accept_spec env root).
Local Abbreviation FS_include_spec := (FS_include_spec env root).


Lemma FS_le_refl (st : FunctionSorter) : FS_le st st.
Proof. split; reflexivity. Qed.

Lemma FS_le_trans (s1 s2 s3 : FunctionSorter) : FS_le s1 s2 -> FS_le s2 s3 -> FS_le s1 s3.
Proof. intros [H1 H2] [H3 H4]. split; etrans; eassumption. Qed.

Lemma FS_done_mono (st st' : FunctionSorter) (n : Expr) :
  FS_le st st' -> FS_done st n -> FS_done st' n.
Proof.
  intros [Hv Ht]. unfold FS_done.
  destruct (node n) as [| | | | | | |x args ct fn|]; try (intros Hd c Hc; apply Hv, Hd, Hc).
  destruct ct; try (intros Hd c Hc; apply Hv, Hd, Hc).
  intros (k & func & Hfn & Hk & Hin). exists k, func. split; [exact Hfn|].
  split; [exact Hk | apply Ht, Hin].
Qed.

Lemma FS_measure_mono (st st' : FunctionSorter) :
  FS_le st st' -> (FS_measure st' <= FS_measure st)%nat.
Proof.
  intros [_ Ht]. unfold FS_measure. apply subseteq_size.
  intros x Hx. apply elem_of_difference in Hx as [Hd Hn].
  apply elem_of_difference. split; [exact Hd|].
  intros Hin. apply Hn, Ht, Hin.
Qed.

Lemma FS_measure_enter (func : Function) (st : FunctionSorter) :
  env !! fn_name func = Some func ->
  fn_name func ∉ fs_traversed_functions st ->
  (FS_measure (FS_enter func st) < FS_measure st)%nat.
Proof.
  intros Hk Hnew. unfold FS_measure. simpl. apply subset_size.
  assert (Hdom : fn_name func ∈ dom env) by (apply elem_of_dom; eauto).
  split.
  - intros x Hx. apply elem_of_difference in Hx as [Hd Hn].
    apply elem_of_difference. split; [exact Hd|].
    intros Hin. apply Hn. apply elem_of_union_r. exact Hin.
  - intros Hsub.
    assert (Hin : fn_name func ∈ dom env ∖ fs_traversed_functions st)
      by (apply elem_of_difference; auto).
    apply Hsub in Hin. apply elem_of_difference in Hin as [_ Hn].
    apply Hn. apply elem_of_union_l, elem_of_singleton. reflexivity.
Qed.


Lemma FS_mark (p : addr) (GE : gset addr) (GF : gset string) (st : FunctionSorter) :
  FS_inv GE GF st ->
  FS_inv ({[p]} ∪ GE) GF
         (mkFS ({[p]} ∪ fs_visited st) (fs_functions st) (fs_traversed_functions st)).
Proof.
  intros [H1 H2 H3 H4 H5].
  assert (Hle : FS_le st (mkFS ({[p]} ∪ fs_visited st) (fs_functions st)
                               (fs_traversed_functions st))).
  { split; simpl; [apply union_subseteq_r | reflexivity]. }
  split; simpl.
  - exact H1.
  - exact H2.
  - exact H3.
  - intros n Hn Hvis Hgrey. apply (FS_done_mono st _ n Hle).
    apply H4; [exact Hn | | ].
    + apply elem_of_union in Hvis as [Hvis|Hvis]; [|exact Hvis].
      exfalso. apply Hgrey. apply elem_of_union_l. exact Hvis.
    + intros Hin. apply Hgrey. apply elem_of_union_r. exact Hin.
  - intros f b Hf Hgrey Hb. apply (FS_done_mono st _ b Hle). exact (H5 f b Hf Hgrey Hb).
Qed.

Lemma FS_ungrey (e : Expr) (GE : gset addr) (GF : gset string) (st : FunctionSorter) :
  e ∈ program_nodes env root ->
  FS_inv ({[get e]} ∪ GE) GF st -> FS_done st e -> FS_inv GE GF st.
Proof.
  intros He [H1 H2 H3 H4 H5] Hdone. split; try assumption.
  intros n Hn Hvis Hgrey. destruct (decide (get n = get e)) as [Heq|Hne].
  - assert (n = e) as -> by (apply (wf_addresses _ _ WF); assumption). exact Hdone.
  - apply H4; [exact Hn | exact Hvis |].
    intros Hin. apply elem_of_union in Hin as [Hin|Hin]; [|contradiction].
    apply elem_of_singleton in Hin. contradiction.
Qed.

Lemma FS_fold_include (sort : Function -> FunctionSorter -> Result FunctionSorter)
    (m : nat) (cs : list Expr) :
  Forall (FS_include_spec sort m) cs ->
  (forall c, c ∈ cs -> c ∈ program_nodes env root /\ FS_context c) ->
  forall GE GF st, FS_inv GE GF st -> (FS_measure st <= m)%nat ->
  exists st', foldM (FS_include env sort) cs st = Ok st'
              /\ FS_inv GE GF st' /\ FS_le st st'
              /\ forall c, c ∈ cs -> get c ∈ fs_visited st'.
Proof.
  induction 1 as [|c cs Hc _ IH]; intros Hcs GE GF st Hinv Hm; simpl.
  - exists st. split; [reflexivity|]. split; [exact Hinv|]. split; [apply FS_le_refl|].
    intros c Hc. apply elem_of_nil in Hc. contradiction.
  - destruct (Hcs c (list_elem_of_here _ _)) as [HcU Hctx].
    destruct (Hc HcU Hctx GE GF st Hinv Hm) as (st1 & Hrun1 & Hinv1 & Hle1 & Hvis1).
    rewrite Hrun1. simpl.
    destruct (IH (fun c' Hc' => Hcs c' (list_elem_of_further _ _ _ Hc')) GE GF st1 Hinv1)
      as (st2 & Hrun2 & Hinv2 & Hle2 & Hvis2).
    { pose proof (FS_measure_mono st st1 Hle1). lia. }
    exists st2. split; [exact Hrun2|]. split; [exact Hinv2|].
    split; [exact (FS_le_trans _ _ _ Hle1 Hle2)|].
    intros c' Hc'. apply elem_of_cons in Hc' as [->|Hc'].
    + apply (proj1 Hle2). exact Hvis1.
    + apply Hvis2. exact Hc'.
Qed.

Lemma FS_context_child (e c : Expr) :
  (forall x args fn, node e <> Call x args Halide fn) ->
  c ∈ children (node e) -> FS_context e -> FS_context c.
Proof.
  intros Hnot Hc Hctx g Hg. apply Hctx. destruct e as [p n]. simpl in *.
  eapply calls_below; eassumption.
Qed.

Lemma FS_walk_correct (sort : Function -> FunctionSorter -> Result FunctionSorter) (m : nat) :
  FS_sort_spec sort m ->
  forall e, FS_accept_spec sort m e /\ FS_include_spec sort m e.
Proof.
  intros Hsort. induction e as [p n IH] using Expr_ind'.
  set (e := MkExpr p n) in *.
  assert (Hdefault : (forall x args fn, n <> Call x args Halide fn) ->
            FS_accept env sort (FS_include env sort) n
            = visit_children (FS_include env sort) n ->
            FS_accept_spec sort m e).
  { intros Hnot Heq He Hctx GE GF st Hinv Hm. simpl node. rewrite Heq, visit_children_foldM.
    destruct (FS_fold_include sort m (children n)) with (GE := GE) (GF := GF) (st := st)
      as (st' & Hrun & Hinv' & Hle & Hvis).
    - apply Forall_forall. intros c Hc. rewrite Forall_forall in IH. apply IH. exact Hc.
    - intros c Hc. split.
      + apply (program_nodes_child env root e c He Hc).
      + apply (FS_context_child e c); [exact Hnot | exact Hc | exact Hctx].
    - exact Hinv.
    - exact Hm.
    - exists st'. split; [exact Hrun|]. split; [exact Hinv'|]. split; [exact Hle|].
      unfold FS_done. simpl node.
      destruct n as [| | | | | | |x args ct fn|]; try exact Hvis.
      destruct ct; try exact Hvis. exfalso. exact (Hnot x args fn eq_refl). }
  assert (Haccept : FS_accept_spec sort m e).
  { destruct n as [z|q|t v|x d|o a b|a|c t f|x args ct fn|x v b];
      try (apply Hdefault; [intros; discriminate | reflexivity]).
    destruct ct; try (apply Hdefault; [intros; discriminate | reflexivity]).
    (* a call of a Halide function *)
    intros He Hctx GE GF st Hinv Hm. simpl node. simpl.
    destruct (wf_calls _ _ WF p x args fn He) as (k & func & -> & Hk).
    simpl. rewrite Hk. simpl.
    assert (Hname : fn_name func = k) by (apply (wf_names _ _ WF); exact Hk).
    destruct (decide (fn_name func ∈ fs_traversed_functions st)) as [Hin|Hnew].
    - exists st. split; [reflexivity|]. split; [exact Hinv|]. split; [apply FS_le_refl|].
      exists k, func. auto.
    - destruct (Hsort func GE GF st Hinv) as (st' & Hrun & Hinv' & Hle & Hin); try assumption.
      + rewrite Hname. exact Hk.
      + apply Hctx. subst e. eapply calls_here. exact Hk.
      + exists st'. split; [exact Hrun|]. split; [exact Hinv'|]. split; [exact Hle|].
        exists k, func. auto. }
  split; [exact Haccept|].
  intros He Hctx GE GF st Hinv Hm. simpl.
  destruct (decide (p ∈ fs_visited st)) as [Hvis|Hnew].
  - exists st. split; [reflexivity|]. split; [exact Hinv|]. split; [apply FS_le_refl | exact Hvis].
  - set (st1 := mkFS ({[p]} ∪ fs_visited st) (fs_functions st) (fs_traversed_functions st)).
    assert (Hle1 : FS_le st st1) by (split; simpl; [apply union_subseteq_r | reflexivity]).
    destruct (Haccept He Hctx ({[p]} ∪ GE) GF st1 (FS_mark p GE GF st Hinv))
      as (st' & Hrun & Hinv' & Hle & Hdone).
    { pose proof (FS_measure_mono st st1 Hle1). lia. }
    exists st'. split; [exact Hrun|].
    split; [exact (FS_ungrey e GE GF st' He Hinv' Hdone)|].
    split; [exact (FS_le_trans _ _ _ Hle1 Hle)|].
    apply (proj1 Hle). simpl. apply elem_of_union_l, elem_of_singleton. reflexivity.
Qed.

Lemma FS_enter_inv (func : Function) (GE : gset addr) (GF : gset string)
    (st : FunctionSorter) :
  FS_inv GE GF st ->
  env !! fn_name func = Some func ->
  fn_name func ∉ fs_traversed_functions st ->
  reachable (calls_outside_args env) root func ->
  FS_inv GE ({[fn_name func]} ∪ GF) (FS_enter func st).
Proof.
  intros [H1 H2 H3 H4 H5] Hk Hnew Hreach.
  assert (Hle : FS_le st (FS_enter func st)).
  { split; simpl; [reflexivity | apply union_subseteq_r]. }
  split; simpl.
  - rewrite fmap_app. apply NoDup_app. split; [exact H1|]. split; [|apply NoDup_singleton].
    intros x Hx Hsingle. apply list_elem_of_singleton in Hsingle. simpl in Hsingle. subst x.
    apply list_elem_of_fmap in Hx as (f & Hname & Hf).
    apply Hnew. rewrite Hname. apply (H2 f Hf).
  - intros f Hf. apply elem_of_app in Hf as [Hf|Hf].
    + destruct (H2 f Hf) as (Ha & Hb & Hc). split; [apply elem_of_union_r; exact Ha | auto].
    + apply list_elem_of_singleton in Hf as ->.
      split; [apply elem_of_union_l, elem_of_singleton; reflexivity | auto].
  - intros x Hx. apply elem_of_union in Hx as [Hx|Hx].
    + apply elem_of_singleton in Hx as ->. exists func. split; [|reflexivity].
      apply elem_of_app. right. apply list_elem_of_singleton. reflexivity.
    + destruct (H3 x Hx) as (f & Hf & Hname). exists f. split; [|exact Hname].
      apply elem_of_app. left. exact Hf.
  - intros n Hn Hvis Hgrey. apply (FS_done_mono st _ n Hle). exact (H4 n Hn Hvis Hgrey).
  - intros f b Hf Hgrey Hb. apply elem_of_app in Hf as [Hf|Hf].
    + apply (FS_done_mono st _ b Hle). apply (H5 f b Hf); [|exact Hb].
      intros Hin. apply Hgrey. apply elem_of_union_r. exact Hin.
    + apply list_elem_of_singleton in Hf as ->. exfalso. apply Hgrey.
      apply elem_of_union_l, elem_of_singleton. reflexivity.
Qed.

Lemma FS_fold_stages (sort : Function -> FunctionSorter -> Result FunctionSorter)
    (m : nat) (bs : list Expr) :
  FS_sort_spec sort m ->
  (forall b, b ∈ bs -> b ∈ program_nodes env root /\ FS_context b) ->
  forall GE GF st, FS_inv GE GF st -> (FS_measure st <= m)%nat ->
  exists st',
    foldM (fun b s => FS_accept env sort (FS_include env sort) (node b) s) bs st = Ok st'
    /\ FS_inv GE GF st' /\ FS_le st st' /\ forall b, b ∈ bs -> FS_done st' b.
Proof.
  intros Hsort. induction bs as [|b bs IH]; intros Hbs GE GF st Hinv Hm; simpl.
  - exists st. split; [reflexivity|]. split; [exact Hinv|]. split; [apply FS_le_refl|].
    intros b Hb. apply elem_of_nil in Hb. contradiction.
  - destruct (Hbs b (list_elem_of_here _ _)) as [HbU Hctx].
    destruct (proj1 (FS_walk_correct sort m Hsort b) HbU Hctx GE GF st Hinv Hm)
      as (st1 & Hrun1 & Hinv1 & Hle1 & Hdone1).
    rewrite Hrun1. simpl.
    destruct (IH (fun b' Hb' => Hbs b' (list_elem_of_further _ _ _ Hb')) GE GF st1 Hinv1)
      as (st2 & Hrun2 & Hinv2 & Hle2 & Hdone2).
    { pose proof (FS_measure_mono st st1 Hle1). lia. }
    exists st2. split; [exact Hrun2|]. split; [exact Hinv2|].
    split; [exact (FS_le_trans _ _ _ Hle1 Hle2)|].
    intros b' Hb'. apply elem_of_cons in Hb' as [->|Hb'].
    + apply (FS_done_mono st1 st2 b Hle2). exact Hdone1.
    + apply Hdone2. exact Hb'.
Qed.

Lemma FS_sort_func_unfold (fuel : nat) (func : Function) (st : FunctionSorter) :
  FS_sort_func env (Datatypes.S fuel) func st
  = foldM (fun b s => FS_accept env (FS_sort_func env fuel)
                                (FS_include env (FS_sort_func env fuel)) (node b) s)
          (stage_values func) (FS_enter func st).
Proof. simpl. unfold FS_stage. apply foldM_stages. Qed.

Lemma FS_sort_func_correct (fuel : nat) : FS_sort_spec (FS_sort_func env fuel) fuel.
Proof.
  induction fuel as [|fuel IH]; intros func GE GF st Hinv Hk Hnew Hreach Hm.
  - pose proof (FS_measure_enter func st Hk Hnew). lia.
  - rewrite FS_sort_func_unfold.
    pose proof (FS_enter_inv func GE GF st Hinv Hk Hnew Hreach) as Hinv1.
    assert (Hle1 : FS_le st (FS_enter func st)).
    { split; simpl; [reflexivity | apply union_subseteq_r]. }
    destruct (FS_fold_stages (FS_sort_func env fuel) fuel (stage_values func) IH)
      with (GE := GE) (GF := {[fn_name func]} ∪ GF) (st := FS_enter func st)
      as (st' & Hrun & Hinv' & Hle & Hdone).
    + intros b Hb. split.
      * apply (program_nodes_stage env root (fn_name func) func b b Hk Hb), subexprs_self.
      * intros g Hg. eapply reachable_stage; eassumption.
    + exact Hinv1.
    + pose proof (FS_measure_enter func st Hk Hnew). lia.
    + exists st'. split; [exact Hrun|].
      split; [|split; [exact (FS_le_trans _ _ _ Hle1 Hle)|]].
      * destruct Hinv' as [H1 H2 H3 H4 H5]. split; try assumption.
        intros f b Hf Hgrey Hb. destruct (decide (fn_name f = fn_name func)) as [Heq|Hne].
        -- assert (f = func) as ->.
           { destruct (H2 f Hf) as (_ & Henv & _). rewrite Heq, Hk in Henv. congruence. }
           apply Hdone. exact Hb.
        -- apply (H5 f b Hf); [|exact Hb].
           intros Hin. apply elem_of_union in Hin as [Hin|Hin]; [|contradiction].
           apply elem_of_singleton in Hin. contradiction.
      * apply (proj2 Hle). simpl. apply elem_of_union_l, elem_of_singleton. reflexivity.
Qed.

(** Once the walk is over, everything a done node calls is in the list. *)
Lemma FS_closed (st : FunctionSorter) :
  FS_inv ∅ ∅ st ->
  forall n g, calls_outside_args env n g ->
  n ∈ program_nodes env root -> FS_done st n -> g ∈ fs_functions st.
Proof.
  intros [H1 H2 H3 H4 H5]. induction 1 as [p x args k func Hk|p n c func Hnot Hc _ IH];
    intros Hn Hdone.
  - destruct Hdone as (k' & func' & Hfn & Hk' & Hin). injection Hfn as <-.
    rewrite Hk in Hk'. injection Hk' as <-.
    destruct (H3 _ Hin) as (f & Hf & Hname).
    destruct (H2 f Hf) as (_ & Henv & _).
    assert (Hfunc : env !! fn_name func = Some func).
    { rewrite (wf_names _ _ WF k func Hk). exact Hk. }
    rewrite Hname, Hfunc in Henv. injection Henv as ->. exact Hf.
  - assert (Hvis : get c ∈ fs_visited st).
    { unfold FS_done in Hdone. simpl node in Hdone.
      destruct n as [| | | | | | |x args ct fn|]; try (apply Hdone; exact Hc).
      destruct ct; try (apply Hdone; exact Hc).
      exfalso. exact (Hnot x args fn eq_refl). }
    assert (HcU : c ∈ program_nodes env root).
    { apply (program_nodes_child env root (MkExpr p n) c Hn Hc). }
    apply IH; [exact HcU|]. apply H4; [exact HcU | exact Hvis | apply not_elem_of_empty].
Qed.

End FunctionSorterProofs.

(** C7 (amended). On a well-formed program, with as much fuel as the table
    has functions, the function sorter returns a list that holds no function
    twice and holds exactly the functions reached from the root through
    calls that are not inside the arguments of a call of a Halide function,
    directly or through the stages of a function so reached.  A call of a
    function already traversed changes nothing, and [sort] of a function
    walks its stages from the last update down to the initialization. *)
Theorem C7_function_sorter_reaches (env : gmap string Function) (root : Expr) :
  well_formed env root ->
  (exists funcs,
     FS_sort env (size env) root = Ok funcs
     /\ NoDup (fn_name <$> funcs)
     /\ forall f, f ∈ funcs <-> reachable (calls_outside_args env) root f)
  /\ (forall sort include x args k func st,
        env !! k = Some func ->
        fn_name func ∈ fs_traversed_functions st ->
        FS_accept env sort include (Call x args Halide (Some k)) st = Ok st)
  /\ (forall fuel func st,
        FS_sort_func env (Datatypes.S fuel) func st
        = foldM (fun b s => FS_accept env (FS_sort_func env fuel)
                                      (FS_include env (FS_sort_func env fuel)) (node b) s)
                (rev (fn_updates func) ++ [fn_value func]) (FS_enter func st)).
Proof.
  intros WF. split; [|split].
  - assert (Hinv0 : FS_inv env root ∅ ∅ (mkFS ∅ [] ∅)).
    { split; simpl.
      - constructor.
      - intros f Hf. apply elem_of_nil in Hf. contradiction.
      - intros x Hx. apply elem_of_empty in Hx. contradiction.
      - intros n _ Hvis. apply elem_of_empty in Hvis. contradiction.
      - intros f b Hf. apply elem_of_nil in Hf. contradiction. }
    assert (HrootU : root ∈ program_nodes env root).
    { apply program_nodes_root, subexprs_self. }
    assert (Hctx : FS_context env root root).
    { intros g Hg. apply reachable_root. exact Hg. }
    destruct (proj1 (FS_walk_correct env root WF (FS_sort_func env (size env)) (size env)
                       (FS_sort_func_correct env root WF (size env)) root)
                    HrootU Hctx ∅ ∅ (mkFS ∅ [] ∅) Hinv0)
      as (st & Hrun & Hinv & _ & Hdone).
    { unfold FS_measure. simpl. rewrite difference_empty_L, size_dom. lia. }
    exists (fs_functions st). split; [unfold FS_sort; rewrite Hrun; reflexivity|].
    split; [exact (fsi_nodup _ _ _ _ _ Hinv)|].
    intros f. split.
    + intros Hf. apply (fsi_listed _ _ _ _ _ Hinv f Hf).
    + induction 1 as [func Hcalls|caller body func _ IHcaller Hbody Hcalls].
      * exact (FS_closed env root WF st Hinv root func Hcalls HrootU Hdone).
      * destruct (fsi_listed _ _ _ _ _ Hinv caller IHcaller) as (_ & Henv & _).
        apply (FS_closed env root WF st Hinv body func Hcalls).
        -- apply (program_nodes_stage env root _ caller body body Henv Hbody), subexprs_self.
        -- apply (fsi_funcs _ _ _ _ _ Hinv caller body IHcaller); [apply not_elem_of_empty|].
           exact Hbody.
  - intros sort include x args k func st Hk Hin. simpl. rewrite Hk. simpl.
    destruct (decide _); [reflexivity | contradiction].
  - intros fuel func st. apply FS_sort_func_unfold.
Qed.

(* ===================================================================== *)
(** * Part IV. The statements on programs                                 *)
(* ===================================================================== *)

(** ** The bounds tests of the source *)

Example test_simple_bounds_inference :
  inferred_bounds blur2d_env 3 blur2d_loss ("blur_y", -1)
    = Some [(Some 0%Q, Some 14%Q); (Some 0%Q, Some 30%Q)]
  /\ inferred_bounds blur2d_env 3 blur2d_loss ("blur_x", -1)
    = Some [(Some 0%Q, Some 14%Q); (Some 0%Q, Some 32%Q)]
  /\ inferred_bounds blur2d_env 3 blur2d_loss ("input", -1)
    = Some [(Some 0%Q, Some 16%Q); (Some 0%Q, Some 32%Q)].
Proof. repeat split; vm_compute; reflexivity. Qed.

Example test_simple_bounds_inference_update :
  inferred_bounds update_env 2 update_loss ("blur", 0) = Some [(Some 0%Q, Some 2%Q)]
  /\ inferred_bounds update_env 2 update_loss ("blur", -1) = Some [(Some 0%Q, Some 2%Q)]
  /\ inferred_bounds update_env 2 update_loss ("input", -1) = Some [(Some 0%Q, Some 3%Q)].
Proof. repeat split; vm_compute; reflexivity. Qed.

(** C6. A reference to a reduction variable is one of the supported
    shapes, yet at [g(0, r.x)], with [r] of one dimension,
    [get_min_max_bounds] is called on [r.x] with the position 1 of the
    argument and reads [domain()[1]] of a domain that has the position 0
    only: the read is out of range, so that neither a pair of bounds nor a
    fatal error comes out, and the inference of the bounds of the output
    ends there.  At the position 0 the same reference gets its bounds. *)
Theorem C6_reduction_variable_position :
  let r_x := erase (e_rvar 4 "r4$x" (rdom1 2)) in
  supported [] [] r_x
  /\ get_min_max_bounds r_x [] [] 1 = Err undefined_behaviour
  /\ ~ fatal undefined_behaviour
  /\ BI_inference (H := example_externals) second_position_env 1 second_position_loss
     = Err undefined_behaviour
  /\ get_min_max_bounds r_x [] [] 0
     = Ok (mk_int 0, (mk_int 0 + mk_int 2 - mk_int 1)%E).
Proof.
  intros r_x. split; [exact I|].
  split; [reflexivity|].
  split; [intros []|].
  split; [vm_compute; reflexivity | reflexivity].
Qed.

(** ** Index canonicalization *)

(** In [f(x) = g(0)], with the bounds [0 .. 3] of [f]: the adjoint [d_f(x)]
    of the call becomes [d_f(r)]. *)
Lemma one_dimension_replaces_coordinate_example :
  let r := mkRV "r$x" (mk_int 0) (mk_int 4) in
  let adjoint := Sym (Call "d_f" [mk_var "x"] Halide (Some "d_f")) in
  canonicalize (H := example_externals) [r] [e_int 5 0] ["x"] adjoint
  = Ok (Sym (Call "d_f" [Sym (Variable_ "r$x" (Some [r]))] Halide (Some "d_f"))).
Proof.
  intros r adjoint.
  refine (proj1 (proj2 (proj2
    (@one_dimension_replaces_coordinate example_externals ∅ r [] [] (e_int 5 0) "x"
       adjoint adjoint _ _ _ _ _))) [] []);
    [reflexivity | reflexivity | reflexivity | reflexivity | discriminate].
Defined.

(** C2. In [f(x, y) = g(0, y)] the argument [0] of the call does not
    contain [x] and the adjoint [d_f(x, y)] of the call does, yet [x] is not
    replaced by a reduction over the bounds of [x]: the loop hands the
    whole domain of the stage, of two dimensions, to [substitute], such a
    domain does not stand for an expression, and the turn of the loop and
    the whole pass end with that user error.  Handed the dimension of [x]
    alone, the same turn replaces [x] by the reduction variable. *)
Theorem C2_missing_coordinate_in_two_dimensions :
  let bounds := RDom_of_ranges "r" [(mk_int 0, mk_int 4); (mk_int 0, mk_int 4)] in
  let adjoint := Sym (Call "d_f" [mk_var "x"; mk_var "y"] Halide (Some "d_f")) in
  let r_x := mkRV "r$x" (mk_int 0) (mk_int 4) in
  VariableFinder_find (erase (e_int 5 0)) "x" = false
  /\ VariableFinder_find adjoint "x" = true
  /\ canonicalize_arg (H := example_externals) bounds (e_int 5 0) "x" adjoint
     = Err (user_error "Can't treat this multidimensional RDom as an Expr")
  /\ propagate_adjoints (H := example_externals) broadcast_env 3 broadcast_output
     = Err (user_error "Can't treat this multidimensional RDom as an Expr")
  /\ canonicalize_arg (H := example_externals) [r_x] (e_int 5 0) "x" adjoint
     = Ok (Sym (Call "d_f" [Sym (Variable_ "r$x" (Some [r_x])); mk_var "y"] Halide
                     (Some "d_f"))).
Proof.
  intros bounds adjoint r_x.
  split; [reflexivity|]. split; [reflexivity|]. split; [reflexivity|].
  split; [vm_compute; reflexivity | reflexivity].
Qed.

(** ** Scatter targets and local derivatives *)

(** The call [f(x)] in the update stage of [f(x) += 1]: the contribution
    goes to the accumulator of the initialization. *)
Lemma C3_scatter_target_witness :
  let adjoint := Sym (Call "d_f_1" [mk_var "x"] Halide (Some "d_f_1")) in
  let stub0 := mkFunc "f_0_d__" ["x"] (Some (mk_float 0)) [] in
  let stub1 := mkFunc "f_1_d__" ["x"] (Some (mk_float 0)) [] in
  let ra := mkRA {[ 3%positive := adjoint ]} {[ ("f", -1) := stub0; ("f", 0) := stub1 ]}
                 ∅ ∅ ("f", 0) [mkRV "r$x" (mk_int 0) (mk_int 1)] in
  exists ra',
    RA_accept (H := example_externals) counter_env (e_call 3 "f" [e_var 4 "x"]) ra = Ok ra'
    /\ ra_adjoint_funcs ra' !! ("f", -1)
       = Some (mkFunc "f_0_d__" ["x"] (Some (mk_float 0))
                 [([mk_var "x"],
                   (Sym (Call "f_0_d__" [mk_var "x"] Halide (Some "f_0_d__")) + adjoint)%E)])
    /\ ra_adjoint_funcs ra' !! ("f", 0) = Some stub1.
Proof.
  intros adjoint stub0 stub1 ra.
  set (call := e_call 3 "f" [e_var 4 "x"]).
  set (ra' := match RA_accept (H := example_externals) counter_env call ra with
              | Ok r => r
              | Err _ => ra
              end).
  assert (Hrun : RA_accept (H := example_externals) counter_env call ra = Ok ra')
    by (vm_compute; reflexivity).
  exists ra'. split; [exact Hrun|].
  destruct (@C3_scatter_target example_externals counter_env 3%positive "f" [e_var 4 "x"]
              Halide "f" (mkFunction "f" ["x"] (e_float 1 0)
                            [e_bin 2 Add (e_call 3 "f" [e_var 4 "x"]) (e_float 5 1)])
              ra ra' eq_refl Hrun)
    as ((adjoint0 & adjoint' & accumulator & _ & _ & Hkey & _) & Hother & _).
  split.
  - vm_compute. reflexivity.
  - rewrite (Hother ("f", 0)) by discriminate. reflexivity.
Defined.

(** The product [x * y] with the adjoint [1]. *)
Lemma C4_local_derivative_rules_witness :
  let ra := mkRA {[ 1%positive := mk_float 1 ]} ∅ ∅ ∅ (EmptyString, 0) [] in
  exists ra',
    RA_accept (H := example_externals) ∅ (e_bin 1 Mul (e_var 2 "x") (e_var 3 "y")) ra = Ok ra'
    /\ ra_accumulated_adjoints ra' !! 2%positive = Some (mk_float 1 * mk_var "y")%E
    /\ ra_accumulated_adjoints ra' !! 3%positive = Some (mk_float 1 * mk_var "x")%E.
Proof.
  intros ra.
  destruct (proj1 (@C4_local_derivative_rules example_externals ∅ Mul 1%positive
                     (e_var 2 "x") (e_var 3 "y") (mk_float 1)
                     (mk_float 1 * mk_var "y")%E (mk_float 1 * mk_var "x")%E ra
                     eq_refl eq_refl))
    as (ra' & Hrun & Hdistinct & _).
  destruct (Hdistinct ltac:(discriminate)) as [Ha Hb].
  exists ra'. split; [exact Hrun|]. split; [exact Ha | exact Hb].
Defined.


(** The call [sin_f32(x)] with the adjoint [1]. *)
Lemma other_call_visit_is_silent_example :
  let ra := mkRA {[ 1%positive := mk_float 1 ]} ∅ ∅ ∅ (EmptyString, 0) [] in
  RA_accept (H := example_externals) ∅
            (MkExpr 1 (Call "sin_f32" [e_var 2 "x"] PureExtern None)) ra
  = Ok ra.
Proof.
  intros ra.
  apply (@other_call_visit_is_silent example_externals ∅ 1%positive "sin_f32"
           [e_var 2 "x"] PureExtern (mk_float 1) ra).
  - discriminate.
  - reflexivity.
Defined.

(** C10. The visit of [sin_f32(x)] hands nothing to [x] and ends without
    an error, yet the derivative through the call is not silently zero: the
    expression sorter has listed the argument [x], the walk goes on to it,
    and the visit of [x] starts with the assertion that [x] has an
    accumulated adjoint, which fails; the whole pass on
    [f(x) = sin_f32(x)] ends there.  With a constant for argument the pass
    returns. *)
Theorem C10_argument_of_other_call_is_visited :
  let seeded := mkRA {[ 1%positive := mk_float 1 ]} ∅ ∅ ∅ (EmptyString, 0) [] in
  RA_accept (H := example_externals) ∅ sine_call seeded = Ok seeded
  /\ ES_sort sine_call = [e_var 2 "x"; sine_call]
  /\ foldM (RA_accept (H := example_externals) ∅) (rev (ES_sort sine_call)) seeded
     = Err assertion_failed
  /\ propagate_adjoints (H := example_externals) sine_env 1 sine_loss = Err assertion_failed
  /\ exists m,
       propagate_adjoints (H := example_externals) sine_constant_env 1 sine_loss = Ok m.
Proof.
  intros seeded.
  split; [vm_compute; reflexivity|]. split; [vm_compute; reflexivity|].
  split; [vm_compute; reflexivity|]. split; [vm_compute; reflexivity|].
  eexists. vm_compute. reflexivity.
Qed.

(** ** Accumulated adjoints across stages *)

(** The claim as stated fails between two walks: the node shared by the
    values of [f] and [g] holds the call of the adjoint of [f] after the
    stage of [f]; the stage of [g] replaces it by the call of the adjoint of
    [g], which is not the previous entry plus a contribution. *)
Lemma C9_counterexample :
  FS_sort shared_env (size shared_env) shared_output = Ok [shared_f; shared_g]
  /\ exists v1 v2,
       shared_entries = Ok (None, Some v1, Some v2) /\ ~ extends v1 v2.
Proof.
  split; [vm_compute; reflexivity|].
  eexists. eexists. split; [vm_compute; reflexivity|].
  intros Hext. inversion Hext.
Qed.

(** ** The sorters *)

Lemma counter_nodes :
  program_nodes counter_env counter_root
  = [counter_root; e_int 7 0;
     e_bin 2 Add (e_call 3 "f" [e_var 4 "x"]) (e_float 5 1);
     e_call 3 "f" [e_var 4 "x"]; e_var 4 "x"; e_float 5 1; e_float 1 0].
Proof. vm_compute. reflexivity. Qed.

Lemma counter_well_formed : well_formed counter_env counter_root.
Proof.
  split.
  - intros k func Hk. unfold counter_env in Hk.
    apply lookup_singleton_Some in Hk as [<- <-]. reflexivity.
  - intros p x args fn Hin. rewrite counter_nodes in Hin.
    split_elem Hin; try discriminate Hin; injection Hin as -> -> -> ->;
      exists "f"; eexists; (split; [reflexivity | vm_compute; reflexivity]).
  - rewrite counter_nodes. solve_consistent.
Qed.

(** [f(x) = 0; f(x) += 1] read at [f(0)]: the walk ends although the update
    of [f] calls [f], and the list holds [f] once. *)
Lemma C7_function_sorter_reaches_witness :
  exists funcs,
    FS_sort counter_env (size counter_env) counter_root = Ok funcs
    /\ NoDup (fn_name <$> funcs)
    /\ forall f, f ∈ funcs <-> reachable (calls_outside_args counter_env) counter_root f.
Proof.
  exact (proj1 (C7_function_sorter_reaches counter_env counter_root counter_well_formed)).
Defined.

(** The claim as stated fails for a call inside the argument of a call: for
    [g(h(0))] the list holds [g] only, and the root calls [h]. *)
Lemma C7_counterexample :
  let g := mkFunction "g" ["x"] (e_var 1 "x") [] in
  let h := mkFunction "h" ["x"] (e_var 2 "x") [] in
  FS_sort nested_env (size nested_env) nested_root = Ok [g]
  /\ reachable (calls_anywhere nested_env) nested_root h
  /\ h ∉ [g].
Proof.
  intros g h. split; [vm_compute; reflexivity|]. split.
  - apply reachable_root. exists 4%positive, "h", [e_int 5 0], "h". split.
    + vm_compute. apply list_elem_of_further, list_elem_of_here.
    + vm_compute. reflexivity.
  - intros Hin. apply list_elem_of_singleton in Hin. discriminate Hin.
Qed.

(** The product [x * x] of one node with itself: the node [x] is listed
    once, before the product. *)
Lemma C8_expression_sorter_order_witness :
  let x := e_var 1 "x" in
  let e := e_bin 2 Mul x x in
  ES_sort e = [x; e] /\ NoDup (get <$> ES_sort e) /\ children_first (ES_sort e).
Proof.
  intros x e.
  assert (Hcons : addresses_consistent (subexprs e)).
  { change (subexprs e) with [e; x; x]. solve_consistent. }
  destruct (C8_expression_sorter_order e Hcons) as (Hnodup & _ & Hfirst & _).
  split; [vm_compute; reflexivity|]. split; [exact Hnodup | exact Hfirst].
Defined.

(* ===================================================================== *)
(** * Part V. Further properties of the passes                            *)
(* ===================================================================== *)

(** ** Interval arithmetic of the bounds *)

Lemma Qle_bool_cases (x y : Q) :
  (Qle_bool x y = true /\ (x <= y)%Q) \/ (Qle_bool x y = false /\ (y < x)%Q).
Proof.
  destruct (Qle_bool x y) eqn:E.
  - left. split; [reflexivity|]. apply Qle_bool_iff. exact E.
  - right. split; [reflexivity|]. apply Qnot_le_lt. intros Hle.
    apply Qle_bool_iff in Hle. congruence.
Qed.

(** X1. The pair that [get_min_max_bounds] returns encloses the argument:
    when the bounds of the context hold the values of the variables of the
    stage and each reduction variable lies in the range read for it, the
    two bounds evaluate to numbers [l] and [h] with [l <= v <= h] for the
    value [v] of the argument. *)
Theorem X1_bounds_enclose_value (rho : string -> option Q) (current_args : list string)
    (current_bounds : RDom) (index : nat) (e lo hi : SymExpr) (v : Q) :
  context_encloses rho current_args current_bounds ->
  rvars_enclosed rho index e ->
  get_min_max_bounds e current_args current_bounds index = Ok (lo, hi) ->
  eval rho e = Some v ->
  exists l h, eval rho lo = Some l /\ eval rho hi = Some h /\ (l <= v)%Q /\ (v <= h)%Q.
Proof.
  intros Hctx. revert lo hi v.
  induction e as [z|q|t u IHu|x d|o a b IHa IHb|a IHa|c t f IHc IHt IHf|x args ct fn IHargs
                 |x u b IHu IHb] using SymExpr_ind';
    intros lo hi v Hrv Hb He; try discriminate Hb.
  - injection Hb as <- <-. exists v, v. rewrite He. repeat split; apply Qle_refl.
  - destruct d as [domain|]; simpl in Hb, He, Hrv.
    + destruct (domain !! index) as [rvar|] eqn:Hd; [|discriminate].
      injection Hb as <- <-.
      destruct (Hrv rvar eq_refl) as (l & n & x' & Hl & Hn & Hx & Hlo & Hhi).
      rewrite Hx in He. injection He as <-.
      exists l, (l + n - inject_Z 1)%Q. simpl. rewrite Hl, Hn. simpl.
      repeat split; [exact Hlo | exact Hhi].
    + destruct (first_index current_args x) as [i|] eqn:Hi; [|discriminate].
      destruct (current_bounds !! i) as [rvar|] eqn:Hcb; [|discriminate].
      injection Hb as <- <-.
      destruct (Hctx x i rvar Hi Hcb) as (l & h & x' & Hl & Hh & Hx & Hlo & Hhi).
      rewrite Hx in He. injection He as <-.
      exists l, h. auto.
  - destruct Hrv as [Hra Hrb]. simpl in He.
    destruct (eval rho a) as [va|] eqn:Hva; [|discriminate].
    destruct (eval rho b) as [vb|] eqn:Hvb; [|discriminate].
    assert (Hop : exists ba bb,
              get_min_max_bounds a current_args current_bounds index = Ok ba
              /\ get_min_max_bounds b current_args current_bounds index = Ok bb).
    { destruct o; try discriminate Hb; simpl in Hb;
        apply bind_Ok in Hb as (ba & Hba & Hb);
        apply bind_Ok in Hb as (bb & Hbb & _); eauto. }
    destruct Hop as ([la ha] & [lb hb] & Hba & Hbb).
    destruct (IHa la ha va Hra Hba eq_refl) as (l1 & h1 & Hl1 & Hh1 & Hle1 & Hge1).
    destruct (IHb lb hb vb Hrb Hbb eq_refl) as (l2 & h2 & Hl2 & Hh2 & Hle2 & Hge2).
    destruct o; try discriminate Hb; simpl in Hb; rewrite Hba, Hbb in Hb; simpl in Hb;
      injection Hb as <- <-; simpl in He; injection He as <-;
      simpl; rewrite Hl1, Hl2, Hh1, Hh2; simpl; eexists; eexists;
      (split; [reflexivity|]); (split; [reflexivity|]).
    + split; lra.
    + split; lra.
    + destruct (Qle_bool_cases va vb) as [[-> ?]|[-> ?]];
        destruct (Qle_bool_cases l1 l2) as [[-> ?]|[-> ?]];
        destruct (Qle_bool_cases h1 h2) as [[-> ?]|[-> ?]]; split; lra.
    + destruct (Qle_bool_cases va vb) as [[-> ?]|[-> ?]];
        destruct (Qle_bool_cases l1 l2) as [[-> ?]|[-> ?]];
        destruct (Qle_bool_cases h1 h2) as [[-> ?]|[-> ?]]; split; lra.
Qed.

Lemma X1_bounds_enclose_value_witness :
  let rho := fun x : string => if String.eqb x "x" then Some 3%Q else None in
  exists l h,
    eval rho (mk_int 0 + mk_int 1)%E = Some l /\ eval rho (mk_int 13 + mk_int 1)%E = Some h
    /\ (l <= 3 + 1)%Q /\ (3 + 1 <= h)%Q.
Proof.
  intros rho.
  apply (X1_bounds_enclose_value rho ["x"] (RDom_of_ranges "r" [(mk_int 0, mk_int 13)]) 0
           (mk_var "x" + mk_int 1)%E).
  - intros name i rvar Hi Hcb. simpl in Hi.
    destruct (decide ("x" = name)) as [<-|]; [|discriminate].
    injection Hi as <-. injection Hcb as <-.
    exists 0%Q, 13%Q, 3%Q. repeat split; simpl; lra.
  - simpl. auto.
  - reflexivity.
  - reflexivity.
Defined.

(** ** The range handed to the reverse pass *)

Section NormalisedBounds.
Context `{Externals}.

Lemma rdom_to_vector_of_ranges (name : string) (ranges : list (SymExpr * SymExpr)) :
  rdom_to_vector (RDom_of_ranges name ranges) = ranges.
Proof.
  unfold rdom_to_vector, RDom_of_ranges. generalize 0%nat as i0.
  assert (Hgen : forall (f : nat -> nat) (l : list (SymExpr * SymExpr)),
             List.map (fun rvar => (rv_min rvar, rv_extent rvar))
                      (imap (fun i r => mkRV (name +:+ "$" +:+ dim_suffix (f i)) r.1 r.2) l) = l).
  { intros f l. revert f. induction l as [|[a b] l IH]; intros f; simpl; [reflexivity|].
    f_equal. apply (IH (f ∘ Datatypes.S)). }
  intros _. apply (Hgen (fun i => i)).
Qed.

(** X2. [get_func_bounds] keeps every key and the number of dimensions of
    its bounds; each stored pair (minimum, maximum) becomes the lower bound
    and the extent [maximum - minimum + 1], so that under a simplifier that
    preserves values the largest index of the range is the stored maximum;
    and [rdom_to_vector] gives back these pairs. *)
Theorem X2_bounds_normalised (bi : BoundsInferencer) (key : FuncKey) (stored : FuncBounds) :
  bi_func_bounds bi !! key = Some stored ->
  exists d,
    get_func_bounds bi !! key = Some d
    /\ length d = length stored
    /\ rdom_to_vector d = List.map min_extent stored
    /\ forall i b rho lo hi,
         stored !! i = Some b ->
         (forall e, eval rho (simplify e) = eval rho e) ->
         eval rho b.1 = Some lo -> eval rho b.2 = Some hi ->
         exists rvar,
           d !! i = Some rvar
           /\ eval rho (rv_min rvar) = Some lo
           /\ eval rho (rv_extent rvar) = Some (hi - lo + 1)%Q
           /\ eval rho (rv_min rvar + rv_extent rvar - mk_int 1)%E = Some (lo + (hi - lo + 1) - 1)%Q.
Proof.
  intros Hkey. eexists. rewrite get_func_bounds_lookup, Hkey. simpl.
  split; [reflexivity|].
  split; [rewrite RDom_of_ranges_length, length_map; reflexivity|].
  split; [apply rdom_to_vector_of_ranges|].
  intros i b rho lo hi Hb Hsound Hlo Hhi.
  eexists. rewrite RDom_of_ranges_lookup.
  change (List.map min_extent stored) with (min_extent <$> stored).
  rewrite list_lookup_fmap, Hb. simpl.
  split; [reflexivity|].
  assert (Hmin : eval rho (simplify b.1) = Some lo) by (rewrite Hsound; exact Hlo).
  assert (Hext : eval rho (simplify (b.2 - simplify b.1 + mk_int 1)%E) = Some (hi - lo + 1)%Q).
  { rewrite Hsound. simpl. rewrite Hhi, Hmin. reflexivity. }
  split; [exact Hmin|]. split; [exact Hext|].
  simpl. rewrite Hmin, Hext. reflexivity.
Qed.

End NormalisedBounds.

(** ** The context and the coverage of the bounds inferencer *)

Lemma foldM_preserved {A S} (R : S -> S -> Prop) (body : A -> S -> Result S) (l : list A) :
  (forall s, R s s) -> (forall s1 s2 s3, R s1 s2 -> R s2 s3 -> R s1 s3) ->
  Forall (fun x => forall s s', body x s = Ok s' -> R s s') l ->
  forall s s', foldM body l s = Ok s' -> R s s'.
Proof.
  intros Hrefl Htrans Hall. induction Hall as [|x l Hx _ IH]; intros s s' Hrun; simpl in Hrun.
  - injection Hrun as <-. apply Hrefl.
  - apply bind_Ok in Hrun as (s1 & H1 & Hrun).
    eapply Htrans; [eapply Hx; exact H1 | apply IH; exact Hrun].
Qed.

Lemma elem_of_stage_ids (k : nat) (update_id : Z) :
  update_id ∈ stage_ids k <-> -1 <= update_id < Z.of_nat k.
Proof.
  induction k as [|k IH]; simpl.
  - rewrite list_elem_of_singleton. lia.
  - rewrite elem_of_cons, IH. lia.
Qed.

Lemma BI_covers_mono {A B : Type} (b : gmap FuncKey A) (b' : gmap FuncKey B) (func : Function) :
  dom b ⊆ dom b' -> BI_covers b func -> BI_covers b' func.
Proof.
  intros Hsub Hc update_id Hid. apply elem_of_dom, Hsub, elem_of_dom, Hc, Hid.
Qed.

Section BoundsCoverage.
Context `{Externals}.
Variable env : gmap string Function.

Lemma BI_frame_refl (bi : BoundsInferencer) : BI_frame bi bi.
Proof. unfold BI_frame. repeat split; reflexivity. Qed.

Lemma BI_frame_trans (bi1 bi2 bi3 : BoundsInferencer) :
  BI_frame bi1 bi2 -> BI_frame bi2 bi3 -> BI_frame bi1 bi3.
Proof.
  intros (A1 & A2 & A3 & A4 & A5) (B1 & B2 & B3 & B4 & B5).
  repeat split; try congruence. etrans; eassumption.
Qed.

Lemma update_function_bounds_frame (key : FuncKey) (arg_bounds : FuncBounds)
    (bi bi1 : BoundsInferencer) :
  update_function_bounds key arg_bounds bi = Ok bi1 ->
  BI_frame bi bi1 /\ is_Some (bi_func_bounds bi1 !! key).
Proof.
  unfold update_function_bounds. intros Hrun.
  apply bind_Ok in Hrun as (ab & _ & Hrun). injection Hrun as <-. simpl. split.
  - repeat split. simpl. apply dom_insert_subseteq.
  - rewrite lookup_insert_eq. eauto.
Qed.

(** The walk of an expression keeps the frame when the inference of each
    function of the table does. *)
Lemma BI_accept_frame (Q : Function -> Prop)
    (inference : Function -> BoundsInferencer -> Result BoundsInferencer) :
  (forall k func, env !! k = Some func -> Q func) ->
  (forall func bi bi', Q func -> inference func bi = Ok bi' -> BI_frame bi bi') ->
  forall e bi bi', BI_accept env inference e bi = Ok bi' -> BI_frame bi bi'.
Proof.
  intros HQ Hinf. induction e as [p n IH] using Expr_ind'. intros bi bi' Hrun.
  assert (Hdefault : visit_children (BI_accept env inference) n bi = Ok bi' -> BI_frame bi bi').
  { rewrite visit_children_foldM.
    apply (foldM_preserved BI_frame); [apply BI_frame_refl | apply BI_frame_trans | exact IH]. }
  destruct n as [z|q|t v|x d|o a b|a|c t f|x args ct fn|x v b];
    try (apply Hdefault; exact Hrun).
  destruct ct; try (apply Hdefault; exact Hrun).
  simpl in Hrun.
  destruct (fn ≫= (env !!.)) as [func|] eqn:Hfn; [|discriminate].
  assert (HQf : Q func).
  { destruct fn as [k|]; [|discriminate]. simpl in Hfn. eapply HQ. exact Hfn. }
  apply bind_Ok in Hrun as (ab & _ & Hrun).
  apply bind_Ok in Hrun as (bi1 & H1 & Hrun).
  destruct (update_function_bounds_frame _ _ _ _ H1) as [(A1 & A2 & A3 & A4 & A5) _].
  destruct (decide _) as [_|_].
  - apply bind_Ok in Hrun as (bi2 & H2 & Hrun). injection Hrun as <-.
    destruct (Hinf _ _ _ HQf H2) as (B1 & B2 & B3 & B4 & B5). simpl in *.
    repeat split; simpl; try congruence; [lia | etrans; eassumption].
  - injection Hrun as <-. repeat split; assumption.
Qed.

Lemma BI_stage_frame (Q : Function -> Prop)
    (inference : Function -> BoundsInferencer -> Result BoundsInferencer) :
  (forall k func, env !! k = Some func -> Q func) ->
  (forall func bi bi', Q func -> inference func bi = Ok bi' -> BI_frame bi bi') ->
  forall func update_id bi bi',
    BI_stage (BI_accept env inference) func update_id bi = Ok bi' ->
    BI_frame (BI_enter_stage func update_id bi) bi'
    /\ bi_recursion_depth bi' = bi_recursion_depth bi
    /\ dom (bi_func_bounds bi) ⊆ dom (bi_func_bounds bi')
    /\ is_Some (bi_func_bounds bi' !! (fn_name func, update_id)).
Proof.
  intros HQ Hinf func update_id bi bi' Hrun. unfold BI_stage in Hrun.
  apply bind_Ok in Hrun as (e & _ & Hrun).
  pose proof (BI_accept_frame Q inference HQ Hinf _ _ _ Hrun) as Hframe.
  split; [exact Hframe|].
  destruct Hframe as (A1 & _ & _ & _ & A5). simpl in A1, A5.
  split; [exact A1|]. split.
  - etrans; [apply dom_insert_subseteq | exact A5].
  - apply elem_of_dom, A5, elem_of_dom. rewrite lookup_insert_eq. eauto.
Qed.

Lemma BI_inference_func_frame (fuel : nat) :
  forall func bi bi', BI_inference_func env fuel func bi = Ok bi' -> BI_frame bi bi'.
Proof.
  induction fuel as [|fuel IH]; intros func bi bi' Hrun; simpl in Hrun; [discriminate|].
  apply bind_Ok in Hrun as (st & Hloop & Hret). injection Hret as <-.
  rewrite stage_loop_foldM in Hloop.
  assert (Hkeep : bi_recursion_depth st = bi_recursion_depth bi
                  /\ dom (bi_func_bounds bi) ⊆ dom (bi_func_bounds st)).
  { revert Hloop.
    apply (foldM_preserved
             (fun s s' => bi_recursion_depth s' = bi_recursion_depth s
                          /\ dom (bi_func_bounds s) ⊆ dom (bi_func_bounds s'))).
    - intros s. split; reflexivity.
    - intros s1 s2 s3 [A1 A2] [B1 B2]. split; [congruence | etrans; eassumption].
    - apply Forall_forall. intros update_id _ s s' Hstage.
      destruct (BI_stage_frame (fun _ => True) (BI_inference_func env fuel)
                  (fun _ _ _ => I) (fun f b b' _ => IH f b b') _ _ _ _ Hstage)
        as (_ & Hd & Hsub & _).
      split; assumption. }
  destruct Hkeep as [Hd Hsub]. repeat split; simpl; assumption.
Qed.

(** X3. A walk of the bounds inferencer, with all the inference of callees
    that it starts, returns with the recursion depth and the context of the
    stage (key, domain variables, bounds) it was entered with, and every
    key that held bounds before still holds bounds after. *)
Theorem X3_inference_restores_context (fuel : nat) (e : Expr) (bi bi' : BoundsInferencer) :
  BI_accept env (BI_inference_func env fuel) e bi = Ok bi' -> BI_frame bi bi'.
Proof.
  apply (BI_accept_frame (fun _ => True)); [intros; exact I|].
  intros func b b' _. apply BI_inference_func_frame.
Qed.

Hypothesis env_names : forall k func, env !! k = Some func -> fn_name func = k.

Lemma calls_outside_args_env (e : Expr) (g : Function) :
  calls_outside_args env e g -> env !! fn_name g = Some g.
Proof.
  induction 1 as [p x args k func Hk|p n c func _ _ _ IH]; [|exact IH].
  rewrite (env_names _ _ Hk). exact Hk.
Qed.

Lemma BI_reached_later (bi bi1 bi2 : BoundsInferencer) (g : Function) :
  BI_reached env bi bi1 g -> BI_frame bi1 bi2 -> BI_reached env bi bi2 g.
Proof.
  intros [Hself|[Hg Hclosure]] (_ & _ & _ & _ & Hsub); [left; exact Hself|].
  right. split; [exact (BI_covers_mono _ _ _ Hsub Hg)|].
  intros g' Hg'. exact (BI_covers_mono _ _ _ Hsub (Hclosure g' Hg')).
Qed.

Lemma BI_reached_from (bi0 bi1 bi2 : BoundsInferencer) (g : Function) :
  BI_frame bi0 bi1 -> BI_reached env bi1 bi2 g -> BI_reached env bi0 bi2 g.
Proof.
  intros (_ & Hkey & _) [Hself|Hcov]; [left; congruence | right; exact Hcov].
Qed.

Lemma BI_accept_reaches
    (inference : Function -> BoundsInferencer -> Result BoundsInferencer) :
  BI_inference_spec env inference ->
  forall e bi bi', BI_accept env inference e bi = Ok bi' ->
  forall g, calls_outside_args env e g -> BI_reached env bi bi' g.
Proof.
  intros Hinf.
  assert (Hframe : forall e bi bi', BI_accept env inference e bi = Ok bi' -> BI_frame bi bi').
  { apply (BI_accept_frame (fun func => env !! fn_name func = Some func)).
    - intros k func Hk. rewrite (env_names _ _ Hk). exact Hk.
    - intros func bi bi' Hk Hrun. apply (Hinf func bi bi' Hk Hrun). }
  induction e as [p n IH] using Expr_ind'. intros bi bi' Hrun g Hcalls.
  inversion Hcalls as [p' x args k func Hk Heq|p' n' c func Hnot Hc Hcg Heq]; subst.
  - simpl in Hrun. rewrite Hk in Hrun.
    apply bind_Ok in Hrun as (ab & _ & Hrun).
    apply bind_Ok in Hrun as (bi1 & H1 & Hrun).
    destruct (update_function_bounds_frame _ _ _ _ H1) as [(A1 & A2 & A3 & A4 & A5) _].
    destruct (decide _) as [Hne|Heq].
    + apply bind_Ok in Hrun as (bi2 & H2 & Hrun). injection Hrun as <-.
      assert (Hg : env !! fn_name g = Some g).
      { rewrite (env_names _ _ Hk). exact Hk. }
      destruct (Hinf g _ _ Hg H2) as (_ & Hcov & Hclosure).
      right. split; assumption.
    + left. rewrite A2 in Heq.
      destruct (decide (fn_name g = (bi_current_func_key bi).1)) as [E|E]; [exact E|].
      exfalso. apply Heq. congruence.
  - assert (Hfold : foldM (BI_accept env inference) (children n) bi = Ok bi').
    { rewrite <- visit_children_foldM.
      destruct n as [z|q|t v|x d|o a b|a|c0 t f|x args ct fn|x v b]; try exact Hrun.
      destruct ct; try exact Hrun. exfalso. exact (Hnot _ _ _ eq_refl). }
    clear Hrun Hcalls Hnot. revert bi Hfold.
    induction IH as [|c0 cs Hc0 _ IHcs]; intros bi Hfold; [apply elem_of_nil in Hc; contradiction|].
    simpl in Hfold. apply bind_Ok in Hfold as (bi1 & H1 & Hfold).
    apply elem_of_cons in Hc as [->|Hc].
    + apply (BI_reached_later bi bi1 bi'); [exact (Hc0 _ _ H1 g Hcg)|].
      revert Hfold. apply (foldM_preserved BI_frame); [apply BI_frame_refl | apply BI_frame_trans|].
      apply Forall_forall. intros c1 _ s s'. apply Hframe.
    + apply (BI_reached_from bi bi1 bi'); [exact (Hframe _ _ _ H1)|].
      apply IHcs; assumption.
Qed.

Lemma BI_inference_func_spec (fuel : nat) : BI_inference_spec env (BI_inference_func env fuel).
Proof.
  induction fuel as [|fuel IH]; intros func bi bi' Hfunc Hrun; [discriminate|].
  split; [exact (BI_inference_func_frame _ _ _ _ Hrun)|].
  simpl in Hrun. apply bind_Ok in Hrun as (st & Hloop & Hret). injection Hret as <-. simpl.
  rewrite stage_loop_foldM in Hloop.
  set (accept := BI_accept env (BI_inference_func env fuel)) in *.
  assert (Hstage : forall update_id s s',
            BI_stage accept func update_id s = Ok s' ->
            dom (bi_func_bounds s) ⊆ dom (bi_func_bounds s')
            /\ is_Some (bi_func_bounds s' !! (fn_name func, update_id))).
  { intros update_id s s' Hs.
    destruct (BI_stage_frame (fun _ => True) (BI_inference_func env fuel)
                (fun _ _ _ => I) (fun f b b' _ => BI_inference_func_frame fuel f b b')
                _ _ _ _ Hs) as (_ & _ & Hsub & Hkey).
    split; assumption. }
  assert (Hloop_spec : forall ids vals s s',
            List.map (stage_value func) ids = List.map Ok vals ->
            foldM (BI_stage accept func) ids s = Ok s' ->
            dom (bi_func_bounds s) ⊆ dom (bi_func_bounds s')
            /\ (forall update_id, update_id ∈ ids ->
                  is_Some (bi_func_bounds s' !! (fn_name func, update_id)))
            /\ (forall body g, body ∈ vals -> calls_outside_args env body g ->
                  fn_name g = fn_name func
                  \/ (BI_covers (bi_func_bounds s') g
                      /\ forall g', calls_from env g g' -> BI_covers (bi_func_bounds s') g'))).
  { induction ids as [|update_id ids IHids]; intros [|body vals] s s' Hmap Hfold;
      simpl in Hmap; try discriminate.
    - injection Hfold as <-. split; [reflexivity|]. split.
      + intros i Hi. apply elem_of_nil in Hi. contradiction.
      + intros b g Hb. apply elem_of_nil in Hb. contradiction.
    - injection Hmap as Hval Hmap. simpl in Hfold.
      apply bind_Ok in Hfold as (s1 & H1 & Hfold).
      destruct (Hstage _ _ _ H1) as [Hsub1 Hkey1].
      destruct (IHids vals s1 s' Hmap Hfold) as (Hsub & Hkeys & Hbodies).
      split; [etrans; eassumption|]. split.
      + intros i Hi. apply elem_of_cons in Hi as [->|Hi]; [|apply Hkeys; exact Hi].
        apply elem_of_dom, Hsub, elem_of_dom. exact Hkey1.
      + intros b g Hb Hg. apply elem_of_cons in Hb as [->|Hb]; [|eapply Hbodies; eassumption].
        unfold BI_stage in H1. rewrite Hval in H1. simpl in H1.
        destruct (BI_accept_reaches _ IH _ _ _ H1 g Hg) as [Hself|[Hcov Hclosure]].
        * left. exact Hself.
        * right. split; [exact (BI_covers_mono _ _ _ Hsub Hcov)|].
          intros g' Hg'. exact (BI_covers_mono _ _ _ Hsub (Hclosure g' Hg')). }
  destruct (Hloop_spec _ _ _ _ (stage_ids_values func) Hloop) as (_ & Hkeys & Hbodies).
  assert (Hown : BI_covers (bi_func_bounds st) func).
  { intros update_id Hid. apply Hkeys, elem_of_stage_ids. exact Hid. }
  split; [exact Hown|].
  intros g Hg.
  assert (Hgen : forall f, calls_from env f g -> f = func -> BI_covers (bi_func_bounds st) g).
  { clear Hg. intros f Hfg.
    induction Hfg as [f body g Hbody Hcalls|f body g1 g Hbody Hcalls Hrest IHrest]; intros ->.
    - destruct (Hbodies body g Hbody Hcalls) as [Hself|[Hcov _]]; [|exact Hcov].
      assert (g = func) as ->; [|exact Hown].
      pose proof (calls_outside_args_env _ _ Hcalls) as Hgenv.
      rewrite Hself, Hfunc in Hgenv. congruence.
    - destruct (Hbodies body g1 Hbody Hcalls) as [Hself|[_ Hclosure]].
      + apply IHrest.
        pose proof (calls_outside_args_env _ _ Hcalls) as Hgenv.
        rewrite Hself, Hfunc in Hgenv. congruence.
      + apply Hclosure. exact Hrest. }
  exact (Hgen func Hg eq_refl).
Qed.

Lemma BI_inference_covers (fuel : nat) (root : Expr) (bi : BoundsInferencer)
    (func : Function) :
  env !! EmptyString = None ->
  BI_inference env fuel root = Ok bi ->
  reachable (calls_outside_args env) root func ->
  BI_covers (bi_func_bounds bi) func.
Proof.
  intros Hempty Hrun Hreach.
  assert (Hroot : forall g, calls_outside_args env root g ->
            BI_covers (bi_func_bounds bi) g
            /\ forall g', calls_from env g g' -> BI_covers (bi_func_bounds bi) g').
  { intros g Hg.
    destruct (BI_accept_reaches _ (BI_inference_func_spec fuel) _ _ _ Hrun g Hg)
      as [Hself|Hcov]; [|exact Hcov].
    simpl in Hself. pose proof (calls_outside_args_env _ _ Hg) as Hgenv.
    rewrite Hself, Hempty in Hgenv. discriminate. }
  assert (Hall : BI_covers (bi_func_bounds bi) func
                 /\ forall g', calls_from env func g' -> BI_covers (bi_func_bounds bi) g').
  { induction Hreach as [func Hcalls|caller body func _ [_ IHclosure] Hbody Hcalls].
    - apply Hroot. exact Hcalls.
    - split.
      + apply IHclosure. eapply calls_from_stage; eassumption.
      + intros g' Hg'. apply IHclosure. eapply calls_from_trans; eassumption. }
  exact (proj1 Hall).
Qed.

(** X4. When the inference of the bounds of an output returns, every stage
    of every function that the output reaches through calls outside the
    arguments of calls has an entry in the map of bounds.  The table stores
    each function under its name, and no function has the empty name (the
    name of the context of the output). *)
Theorem X4_bounds_cover_reachable (fuel : nat) (root : Expr) (bi : BoundsInferencer)
    (func : Function) :
  env !! EmptyString = None ->
  BI_inference env fuel root = Ok bi ->
  reachable (calls_outside_args env) root func ->
  BI_covers (bi_func_bounds bi) func.
Proof. apply BI_inference_covers. Qed.

End BoundsCoverage.

(** ** The sorter and the inferencer on one program *)

Section SortedAndInferred.
Context `{Externals}.
Variable env : gmap string Function.
Variable root : Expr.
Hypothesis WF : well_formed env root.

(** The state in which the function sorter ends on a well-formed program. *)
Lemma FS_sort_state :
  exists st,
    FS_sort env (size env) root = Ok (fs_functions st)
    /\ FS_inv env root ∅ ∅ st /\ FS_done env st root.
Proof.
  assert (Hinv0 : FS_inv env root ∅ ∅ (mkFS ∅ [] ∅)).
  { split; simpl.
    - constructor.
    - intros f Hf. apply elem_of_nil in Hf. contradiction.
    - intros x Hx. apply elem_of_empty in Hx. contradiction.
    - intros n _ Hvis. apply elem_of_empty in Hvis. contradiction.
    - intros f b Hf. apply elem_of_nil in Hf. contradiction. }
  assert (HrootU : root ∈ program_nodes env root).
  { apply program_nodes_root, subexprs_self. }
  assert (Hctx : FS_context env root root).
  { intros g Hg. apply reachable_root. exact Hg. }
  destruct (proj1 (FS_walk_correct env root WF (FS_sort_func env (size env)) (size env)
                     (FS_sort_func_correct env root WF (size env)) root)
                  HrootU Hctx ∅ ∅ (mkFS ∅ [] ∅) Hinv0)
    as (st & Hrun & Hinv & _ & Hdone).
  { unfold FS_measure. simpl. rewrite difference_empty_L, size_dom. lia. }
  exists st. split; [unfold FS_sort; rewrite Hrun; reflexivity|]. split; assumption.
Qed.

(** X5. On a well-formed program whose bounds inference returns, every
    stage of every function that the function sorter lists has a domain in
    the map that [get_func_bounds] hands to the reverse pass: the lookup
    that the stage loop of [propagate_adjoints] asserts finds its key. *)
Theorem X5_sorted_functions_have_bounds (fuel : nat) (funcs : list Function)
    (bi : BoundsInferencer) (func : Function) :
  env !! EmptyString = None ->
  FS_sort env (size env) root = Ok funcs ->
  BI_inference env fuel root = Ok bi ->
  func ∈ funcs ->
  BI_covers (get_func_bounds bi) func.
Proof.
  intros Hempty Hsort Hbounds Hin.
  destruct FS_sort_state as (st & Hrun & Hinv & _).
  rewrite Hrun in Hsort. injection Hsort as <-.
  destruct (fsi_listed _ _ _ _ _ Hinv func Hin) as (_ & _ & Hreach).
  apply (BI_covers_mono (bi_func_bounds bi)).
  - unfold get_func_bounds. rewrite dom_fmap_L. reflexivity.
  - exact (BI_inference_covers env (wf_names _ _ WF) fuel root bi func Hempty Hbounds Hreach).
Qed.

End SortedAndInferred.

(** ** What the walks of the reverse pass keep *)

Lemma RA_frame_refl (ra : ReverseAccumulationVisitor) : RA_frame ra ra.
Proof. unfold RA_frame. repeat split; reflexivity. Qed.

Lemma RA_frame_trans (ra1 ra2 ra3 : ReverseAccumulationVisitor) :
  RA_frame ra1 ra2 -> RA_frame ra2 ra3 -> RA_frame ra1 ra3.
Proof.
  intros (A1 & A2 & A3 & A4 & A5 & A6) (B1 & B2 & B3 & B4 & B5 & B6).
  repeat split; try congruence; etrans; eassumption.
Qed.

Lemma accumulate_frame (stub : Expr) (adjoint : SymExpr) (ra : ReverseAccumulationVisitor) :
  RA_frame ra (accumulate stub adjoint ra).
Proof.
  destruct (accumulate_fields stub adjoint ra) as (F1 & F2 & F3 & F4 & F5).
  unfold RA_frame. rewrite F1, F2, F3, F4, F5. repeat split; try reflexivity.
  unfold accumulate. cbv zeta.
  destruct (ra_accumulated_adjoints ra !! get stub); simpl; apply dom_insert_subseteq.
Qed.

Lemma fold_accumulate_frame (f : Expr -> SymExpr) (l : list Expr)
    (ra : ReverseAccumulationVisitor) :
  RA_frame ra (fold_left (fun s a => accumulate a (f a) s) l ra).
Proof.
  revert ra. induction l as [|a l IH]; intros ra; simpl; [apply RA_frame_refl|].
  eapply RA_frame_trans; [apply accumulate_frame | apply IH].
Qed.

Lemma scatter_frame (key : FuncKey) (args : list string) (adjoint : SymExpr)
    (ra : ReverseAccumulationVisitor) :
  RA_frame ra (scatter key args adjoint ra).
Proof.
  unfold RA_frame, scatter. simpl. repeat split; try reflexivity. apply dom_insert_subseteq.
Qed.

Section ReverseFrames.
Context `{Externals}.
Variable env : gmap string Function.

Lemma RA_accept_frame (e : Expr) :
  forall ra ra', RA_accept env e ra = Ok ra' -> RA_frame ra ra'.
Proof.
  induction e as [p n IH] using Expr_ind'. intros ra ra' Hrun.
  assert (Hdefault : visit_children (RA_accept env) n ra = Ok ra' -> RA_frame ra ra').
  { rewrite visit_children_foldM.
    apply (foldM_preserved RA_frame); [apply RA_frame_refl | apply RA_frame_trans | exact IH]. }
  assert (Htwo : forall a b ra_a rb, RA_frame ra (accumulate b rb (accumulate a ra_a ra))).
  { intros a b ra_a rb. eapply RA_frame_trans; apply accumulate_frame. }
  destruct n as [z|q|t v|x d|o a b|a|c t f|x args ct fn|x v b];
    try (apply Hdefault; exact Hrun).
  - simpl in Hrun. unfold RA_visit_Cast in Hrun.
    apply bind_Ok in Hrun as (adj & _ & Hrun). injection Hrun as <-. apply accumulate_frame.
  - simpl in Hrun. unfold RA_visit_Variable in Hrun.
    apply bind_Ok in Hrun as (adj & _ & Hrun).
    destruct (ra_let_var_mapping ra !! x); injection Hrun as <-;
      [apply accumulate_frame | apply RA_frame_refl].
  - destruct o; try (apply Hdefault; exact Hrun); simpl in Hrun;
      [unfold RA_visit_Add in Hrun | unfold RA_visit_Sub in Hrun | unfold RA_visit_Mul in Hrun
       | unfold RA_visit_Div in Hrun | unfold RA_visit_Min in Hrun | unfold RA_visit_Max in Hrun];
      apply bind_Ok in Hrun as (adj & _ & Hrun); injection Hrun as <-; apply Htwo.
  - simpl in Hrun. unfold RA_visit_Call in Hrun.
    apply bind_Ok in Hrun as (adj & _ & Hrun).
    set (ra1 := if decide (x = "exp_f32")
                then fold_left (fun s a => accumulate a (adj * exp (erase a))%E s) args ra
                else ra) in *.
    assert (H1 : RA_frame ra ra1).
    { subst ra1. destruct (decide _); [apply fold_accumulate_frame | apply RA_frame_refl]. }
    destruct fn as [k|]; [|injection Hrun as <-; exact H1].
    destruct (env !! k) as [func|]; [|discriminate].
    apply bind_Ok in Hrun as (adj' & _ & Hrun). injection Hrun as <-.
    eapply RA_frame_trans; [exact H1 | apply scatter_frame].
  - simpl in Hrun. unfold RA_visit_Let in Hrun.
    apply bind_Ok in Hrun as (adj & _ & Hrun). injection Hrun as <-.
    eapply RA_frame_trans; [apply accumulate_frame|].
    unfold RA_frame. simpl. repeat split; try reflexivity. apply dom_insert_subseteq.
Qed.

Lemma RA_walk_frame (l : list Expr) :
  forall ra ra', foldM (RA_accept env) l ra = Ok ra' -> RA_frame ra ra'.
Proof.
  apply (foldM_preserved RA_frame); [apply RA_frame_refl | apply RA_frame_trans|].
  apply Forall_forall. intros e _. apply RA_accept_frame.
Qed.

(** X6. The walk of a list of expressions by the reverse accumulation
    visitor never touches the map of bounds nor the context of the stage
    (key and bounds), and drops nothing: every node that had an adjoint,
    every let binding and every adjoint function is still there after. *)
Theorem X6_walk_keeps_context (l : list Expr) (ra ra' : ReverseAccumulationVisitor) :
  foldM (RA_accept env) l ra = Ok ra' -> RA_frame ra ra'.
Proof. apply RA_walk_frame. Qed.

End ReverseFrames.

(** ** The adjoint functions of the pass *)

Lemma NoDup_initial_entries (l : list (FuncKey * Func)) :
  NoDup l.*1 ->
  NoDup (omap (fun kf : FuncKey * Func =>
                 if decide (kf.1.2 = -1) then Some (kf.1.1, kf.2) else None) l).*1.
Proof.
  induction l as [|[[n id] F] l IH]; simpl; intros Hnd; [constructor|].
  apply NoDup_cons in Hnd as [Hnotin Hnd].
  destruct (decide (id = -1)) as [->|_]; simpl; [|apply IH; exact Hnd].
  apply NoDup_cons. split; [|apply IH; exact Hnd].
  intros Hin. apply list_elem_of_fmap in Hin as ([n' F'] & Heq & Hin). simpl in Heq. subst n'.
  apply list_elem_of_omap in Hin as ([[n2 id2] F2] & Hl & Hf). simpl in Hf.
  destruct (decide (id2 = -1)) as [->|_]; [|discriminate]. injection Hf as -> ->.
  apply Hnotin. apply list_elem_of_fmap. exists (n, -1, F'). split; [reflexivity | exact Hl].
Qed.

Lemma get_adjoint_funcs_lookup (ra : ReverseAccumulationVisitor) (name : string) :
  get_adjoint_funcs ra !! name = ra_adjoint_funcs ra !! (name, -1).
Proof.
  unfold get_adjoint_funcs. apply option_eq. intros F.
  rewrite <- elem_of_list_to_map
    by (apply NoDup_initial_entries, NoDup_fst_map_to_list).
  rewrite list_elem_of_omap. split.
  - intros ([[n id] F'] & Hin & Hf). simpl in Hf.
    destruct (decide (id = -1)) as [->|_]; [|discriminate]. injection Hf as -> ->.
    apply elem_of_map_to_list in Hin. exact Hin.
  - intros Hlook. exists (name, -1, F). split; [apply elem_of_map_to_list; exact Hlook|].
    simpl. destruct (decide (-1 = -1)); [reflexivity | contradiction].
Qed.

(** X8. [get_adjoint_funcs] returns, under the name of a function, the
    accumulator of its initialization stage and nothing else: the
    accumulators of the update stages are not returned, and a function
    with no accumulator for its initialization has no entry. *)
Theorem X8_returned_adjoints_are_initial (ra : ReverseAccumulationVisitor) (name : string) :
  get_adjoint_funcs ra !! name = ra_adjoint_funcs ra !! (name, -1).
Proof. apply get_adjoint_funcs_lookup. Qed.

Lemma elem_of_stage_ids_up (n : nat) (update_id : Z) :
  update_id ∈ stage_ids_up n <-> -1 <= update_id < Z.of_nat n.
Proof.
  unfold stage_ids_up.
  change (List.map (fun k : nat => Z.of_nat k - 1) (seq 0 (Datatypes.S n)))
    with ((fun k : nat => Z.of_nat k - 1) <$> seq 0 (Datatypes.S n)).
  rewrite list_elem_of_fmap. split.
  - intros (k & -> & Hk). apply elem_of_seq in Hk. lia.
  - intros Hid. exists (Z.to_nat (update_id + 1)). split; [lia|]. apply elem_of_seq. lia.
Qed.

(** The stub of the stage [update_id] of [func]. *)
Lemma create_stub_lookup (func : Function) (update_id : Z) (ra : ReverseAccumulationVisitor)
    (key : FuncKey) :
  ra_adjoint_funcs (create_stub func update_id ra) !! key
  = if decide (key = (fn_name func, update_id))
    then Some (mkFunc (fn_name func +:+ "_" +:+ pretty (update_id + 1) +:+ "_d__")
                      (fn_args func) (Some (mk_float 0)) [])
    else ra_adjoint_funcs ra !! key.
Proof.
  unfold create_stub. simpl. destruct (decide _) as [->|Hne].
  - apply lookup_insert_eq.
  - apply lookup_insert_ne. congruence.
Qed.

Lemma create_stub_fields (func : Function) (update_id : Z) (ra : ReverseAccumulationVisitor) :
  ra_accumulated_adjoints (create_stub func update_id ra) = ra_accumulated_adjoints ra
  /\ ra_let_var_mapping (create_stub func update_id ra) = ra_let_var_mapping ra
  /\ ra_func_bounds (create_stub func update_id ra) = ra_func_bounds ra.
Proof. repeat split. Qed.

Lemma stubs_of_function (func : Function) (ids : list Z) (ra : ReverseAccumulationVisitor)
    (key : FuncKey) :
  ra_adjoint_funcs (fold_left (fun s update_id => create_stub func update_id s) ids ra) !! key
  = if decide (key.1 = fn_name func /\ key.2 ∈ ids)
    then Some (mkFunc (fn_name func +:+ "_" +:+ pretty (key.2 + 1) +:+ "_d__")
                      (fn_args func) (Some (mk_float 0)) [])
    else ra_adjoint_funcs ra !! key.
Proof.
  revert ra. induction ids as [|i ids IH]; intros ra; simpl.
  - destruct (decide _) as [[_ Hin]|_]; [|reflexivity].
    apply elem_of_nil in Hin. contradiction.
  - rewrite IH, create_stub_lookup. clear IH. destruct key as [n id]. simpl.
    destruct (decide (n = fn_name func /\ id ∈ ids)) as [[H1 H2]|Hn1];
      destruct (decide (n = fn_name func /\ id ∈ i :: ids)) as [[H3 H4]|Hn2];
      destruct (decide ((n, id) = (fn_name func, i))) as [Heq|Hne];
      try reflexivity.
    + exfalso. apply Hn2. split; [exact H1 | apply elem_of_cons; right; exact H2].
    + exfalso. apply Hn2. split; [exact H1 | apply elem_of_cons; right; exact H2].
    + injection Heq as -> ->. reflexivity.
    + exfalso. apply elem_of_cons in H4 as [->|H4]; [apply Hne; congruence | apply Hn1; auto].
    + exfalso. injection Heq as -> ->. apply Hn2.
      split; [reflexivity | apply elem_of_cons; left; reflexivity].
Qed.

Lemma create_stubs_other (funcs : list Function) (ra : ReverseAccumulationVisitor)
    (key : FuncKey) :
  (forall f, f ∈ funcs -> fn_name f <> key.1) ->
  ra_adjoint_funcs (create_stubs funcs ra) !! key = ra_adjoint_funcs ra !! key.
Proof.
  unfold create_stubs. revert ra.
  induction funcs as [|f funcs IH]; intros ra Hother; cbn [fold_left].
  - reflexivity.
  - rewrite IH by (intros g Hg; apply Hother, elem_of_cons; right; exact Hg).
    rewrite stubs_of_function.
    destruct (decide _) as [[Hname _]|_]; [|reflexivity].
    exfalso. apply (Hother f); [apply elem_of_cons; left; reflexivity | congruence].
Qed.

Lemma create_stubs_dom (funcs : list Function) (ra : ReverseAccumulationVisitor) :
  dom (ra_adjoint_funcs ra) ⊆ dom (ra_adjoint_funcs (create_stubs funcs ra))
  /\ forall func update_id,
       func ∈ funcs -> -1 <= update_id < num_update_definitions func ->
       is_Some (ra_adjoint_funcs (create_stubs funcs ra) !! (fn_name func, update_id)).
Proof.
  unfold create_stubs. revert ra. induction funcs as [|f funcs IH]; intros ra; cbn [fold_left].
  - split; [reflexivity|]. intros func i Hin. apply elem_of_nil in Hin. contradiction.
  - set (ra1 := fold_left (fun s' update_id => create_stub f update_id s')
                          (stage_ids_up (length (fn_updates f))) ra).
    assert (Hsub1 : dom (ra_adjoint_funcs ra) ⊆ dom (ra_adjoint_funcs ra1)).
    { intros key Hkey. apply elem_of_dom. subst ra1. rewrite stubs_of_function.
      destruct (decide _); [eauto | apply elem_of_dom; exact Hkey]. }
    destruct (IH ra1) as [Hsub Hkeys]. split; [etrans; eassumption|].
    intros func i Hin Hi. apply elem_of_cons in Hin as [->|Hin]; [|apply Hkeys; assumption].
    apply elem_of_dom, Hsub, elem_of_dom. subst ra1. rewrite stubs_of_function.
    destruct (decide _) as [_|Hn]; [eauto|].
    exfalso. apply Hn. split; [reflexivity | apply elem_of_stage_ids_up; exact Hi].
Qed.

(** X12. Before the walks, [propagate_adjoints] gives every stage of every
    listed function an accumulator of its own, named after the function and
    the stage ([f_0_d__] for the initialization of [f]), defined as zero
    over the domain variables of the function and with no update yet; the
    entries of other names are left alone. *)
Theorem X12_stubs_of_all_stages (funcs : list Function) (ra : ReverseAccumulationVisitor)
    (func : Function) (update_id : Z) :
  NoDup (fn_name <$> funcs) ->
  func ∈ funcs ->
  -1 <= update_id < num_update_definitions func ->
  ra_adjoint_funcs (create_stubs funcs ra) !! (fn_name func, update_id)
  = Some (mkFunc (fn_name func +:+ "_" +:+ pretty (update_id + 1) +:+ "_d__")
                 (fn_args func) (Some (mk_float 0)) [])
  /\ forall key, (forall f, f ∈ funcs -> fn_name f <> key.1) ->
       ra_adjoint_funcs (create_stubs funcs ra) !! key = ra_adjoint_funcs ra !! key.
Proof.
  intros Hnodup Hin Hid. split; [|intros key; apply create_stubs_other].
  unfold create_stubs. revert ra Hnodup Hin.
  induction funcs as [|f funcs IH]; intros ra Hnodup Hin; [apply elem_of_nil in Hin; contradiction|].
  simpl in Hnodup. apply NoDup_cons in Hnodup as [Hfresh Hnodup]. cbn [fold_left].
  apply elem_of_cons in Hin as [->|Hin]; [|apply IH; assumption].
  pose proof (create_stubs_other funcs) as Hother. unfold create_stubs in Hother.
  rewrite Hother.
  - rewrite stubs_of_function. simpl.
    destruct (decide _) as [_|Hn]; [reflexivity|].
    exfalso. apply Hn. split; [reflexivity | apply elem_of_stage_ids_up; exact Hid].
  - intros g Hg Hname. apply Hfresh. simpl in Hname. rewrite <- Hname.
    apply list_elem_of_fmap. exists g. split; [reflexivity | exact Hg].
Qed.

Section AdjointsOfThePass.
Context `{Externals}.
Variable env : gmap string Function.

Lemma RA_stage_dom (func : Function) (update_id : Z) (ra ra' : ReverseAccumulationVisitor) :
  RA_stage env func update_id ra = Ok ra' ->
  dom (ra_adjoint_funcs ra) ⊆ dom (ra_adjoint_funcs ra').
Proof.
  unfold RA_stage. intros Hrun. apply bind_Ok in Hrun as (e & _ & Hrun).
  destruct (ra_func_bounds ra !! (fn_name func, update_id)) as [bounds|]; [|discriminate].
  apply RA_walk_frame in Hrun as (_ & _ & _ & Hsub & _).
  etrans; [|exact Hsub]. simpl. apply dom_insert_subseteq.
Qed.

Lemma RA_propagate_func_dom (func : Function) (ra ra' : ReverseAccumulationVisitor) :
  RA_propagate_func env func ra = Ok ra' ->
  dom (ra_adjoint_funcs ra) ⊆ dom (ra_adjoint_funcs ra').
Proof.
  unfold RA_propagate_func. rewrite stage_loop_foldM.
  apply (foldM_preserved
           (fun s s' => dom (ra_adjoint_funcs s) ⊆ dom (ra_adjoint_funcs s'))).
  - intros s. reflexivity.
  - intros s1 s2 s3 H1 H2. etrans; eassumption.
  - apply Forall_forall. intros update_id _ s s'. apply RA_stage_dom.
Qed.

(** X7. When [propagate_adjoints] returns, the map it returns has an
    adjoint function under the name of every function that the function
    sorter listed. *)
Theorem X7_listed_functions_get_adjoints (fuel : nat) (output : Expr) (m : gmap string Func) :
  propagate_adjoints env fuel output = Ok m ->
  exists funcs,
    FS_sort env fuel output = Ok funcs
    /\ forall func, func ∈ funcs -> is_Some (m !! fn_name func).
Proof.
  unfold propagate_adjoints. intros Hrun.
  apply bind_Ok in Hrun as (funcs & Hsort & Hrun).
  apply bind_Ok in Hrun as (visitor & Hpass & Hret). injection Hret as <-.
  exists funcs. split; [exact Hsort|]. intros func Hin.
  rewrite get_adjoint_funcs_lookup.
  unfold RA_propagate_adjoints in Hpass.
  destruct funcs as [|f0 funcs0] eqn:Hfuncs; [apply elem_of_nil in Hin; contradiction|].
  rewrite <- Hfuncs in *. clear Hfuncs f0 funcs0.
  apply bind_Ok in Hpass as (ra & Hout & Hloop).
  unfold RA_propagate_output in Hout.
  apply bind_Ok in Hout as (bi & _ & Hout).
  apply RA_walk_frame in Hout as (_ & _ & _ & Hsub & _).
  destruct (accumulate_fields output (mk_float 1)
              (create_stubs funcs (set_func_bounds (get_func_bounds bi)
                                     (mkRA ∅ ∅ ∅ ∅ (EmptyString, 0) []))))
    as (Hacc & _).
  rewrite Hacc in Hsub.
  destruct (create_stubs_dom funcs (set_func_bounds (get_func_bounds bi)
                                      (mkRA ∅ ∅ ∅ ∅ (EmptyString, 0) [])))
    as [_ Hstubs].
  assert (Hloop_dom : dom (ra_adjoint_funcs ra) ⊆ dom (ra_adjoint_funcs visitor)).
  { revert Hloop.
    apply (foldM_preserved
             (fun s s' => dom (ra_adjoint_funcs s) ⊆ dom (ra_adjoint_funcs s'))).
    - intros s. reflexivity.
    - intros s1 s2 s3 H1 H2. etrans; eassumption.
    - apply Forall_forall. intros g _ s s'. apply RA_propagate_func_dom. }
  apply elem_of_dom, Hloop_dom, Hsub, elem_of_dom.
  apply Hstubs; [exact Hin|]. unfold num_update_definitions. lia.
Qed.

End AdjointsOfThePass.

(** ** An output that calls no function *)

Section NoFunction.
Context `{Externals}.
Variable env : gmap string Function.

Lemma FS_fold_no_call (sort : Function -> FunctionSorter -> Result FunctionSorter)
    (cs : list Expr) :
  Forall (fun c => forall st, exists st',
            FS_include env sort c st = Ok st' /\ fs_functions st' = fs_functions st) cs ->
  forall st, exists st',
    foldM (FS_include env sort) cs st = Ok st' /\ fs_functions st' = fs_functions st.
Proof.
  induction 1 as [|c cs Hc _ IH]; intros st; simpl; [eauto|].
  destruct (Hc st) as (st1 & -> & H1). simpl.
  destruct (IH st1) as (st' & -> & H2). exists st'. split; [reflexivity | congruence].
Qed.

Lemma FS_accept_no_call (sort : Function -> FunctionSorter -> Result FunctionSorter)
    (n : IRNode Expr) :
  (forall x args fn, n <> Call x args Halide fn) ->
  Forall (fun c => forall st, exists st',
            FS_include env sort c st = Ok st' /\ fs_functions st' = fs_functions st)
         (children n) ->
  forall st, exists st',
    FS_accept env sort (FS_include env sort) n st = Ok st'
    /\ fs_functions st' = fs_functions st.
Proof.
  intros Hnot Hall st.
  assert (Heq : FS_accept env sort (FS_include env sort) n st
                = foldM (FS_include env sort) (children n) st).
  { rewrite <- visit_children_foldM.
    destruct n as [z|q|t v|x d|o a b|a|c t f|x args ct fn|x v b]; try reflexivity.
    destruct ct; try reflexivity. exfalso. exact (Hnot _ _ _ eq_refl). }
  rewrite Heq. apply FS_fold_no_call. exact Hall.
Qed.

Lemma no_halide_call_child (e c : Expr) :
  no_halide_call e -> c ∈ children (node e) -> no_halide_call c.
Proof.
  intros Hno Hc p x args fn Hin. apply (Hno p x args fn).
  exact (subexprs_child e c _ Hc Hin).
Qed.

Lemma FS_include_no_call (sort : Function -> FunctionSorter -> Result FunctionSorter)
    (e : Expr) :
  no_halide_call e ->
  forall st, exists st',
    FS_include env sort e st = Ok st' /\ fs_functions st' = fs_functions st.
Proof.
  induction e as [p n IH] using Expr_ind'. intros Hno st. simpl.
  destruct (decide (p ∈ fs_visited st)); [eauto|].
  destruct (FS_accept_no_call sort n) with
    (st := mkFS ({[p]} ∪ fs_visited st) (fs_functions st) (fs_traversed_functions st))
    as (st' & Hrun & Hsame).
  - intros x args fn ->. apply (Hno p x args fn), subexprs_self.
  - rewrite Forall_forall in IH. apply Forall_forall. intros c Hc.
    apply IH; [exact Hc|]. exact (no_halide_call_child (MkExpr p n) c Hno Hc).
  - exists st'. split; [exact Hrun | exact Hsame].
Qed.

(** X9. For an output with no call of a Halide function in it the pass is
    a no-op, whatever the table holds: the function sorter lists nothing and
    [propagate_adjoints] returns the empty map, with no bounds inferred and
    no error. *)
Theorem X9_no_function_no_adjoint (fuel : nat) (output : Expr) :
  no_halide_call output ->
  FS_sort env fuel output = Ok []
  /\ propagate_adjoints env fuel output = Ok ∅.
Proof.
  intros Hno.
  assert (Hsort : FS_sort env fuel output = Ok []).
  { unfold FS_sort. destruct output as [p n]. simpl node.
    destruct (FS_accept_no_call (FS_sort_func env fuel) n) with (st := mkFS ∅ [] ∅)
      as (st' & -> & Hsame).
    - intros x args fn ->. apply (Hno p x args fn), subexprs_self.
    - apply Forall_forall. intros c Hc. apply FS_include_no_call.
      exact (no_halide_call_child (MkExpr p n) c Hno Hc).
    - simpl. rewrite Hsame. reflexivity. }
  split; [exact Hsort|].
  unfold propagate_adjoints. rewrite Hsort. reflexivity.
Qed.

End NoFunction.

(** ** Local rules of the reverse pass *)

Section LocalRules.
Context `{Externals}.
Variable env : gmap string Function.

(** X10. An index that the solver cannot invert is fatal: when an argument
    of a call of a Halide function contains the domain variable of its
    position and [solve_expression] does not fully solve for it, the visit
    of the call ends with the internal error of the inverse (the arguments
    before it having been canonicalized), and nothing is scattered. *)
Theorem X10_unsolved_index_is_fatal (p : addr) (name : string) (pre post : list Expr)
    (arg : Expr) (ct : CallType) (k : string) (func : Function)
    (vpre vpost : list string) (v : string) (adjoint0 adjoint : SymExpr)
    (ra : ReverseAccumulationVisitor) :
  env !! k = Some func ->
  fn_args func = vpre ++ v :: vpost ->
  length pre = length vpre ->
  ra_accumulated_adjoints ra !! p = Some adjoint0 ->
  canonicalize (ra_current_bounds ra) pre vpre adjoint0 = Ok adjoint ->
  VariableFinder_find (erase arg) v = true ->
  fully_solved (solve_expression (mk_var "tmp" == erase arg)%E v) = false ->
  RA_accept env (MkExpr p (Call name (pre ++ arg :: post) ct (Some k))) ra
  = Err (internal_error "Can't solve the inverse").
Proof.
  intros Hk Hargs Hlen Hacc Hpre Hfind Hsolved.
  simpl. unfold RA_visit_Call, adjoint_of. simpl. rewrite Hacc. simpl. rewrite Hk.
  set (ra1 := if decide (name = "exp_f32")
              then fold_left (fun s a => accumulate a (adjoint0 * exp (erase a))%E s)
                             (pre ++ arg :: post) ra
              else ra).
  assert (Hb : ra_current_bounds ra1 = ra_current_bounds ra).
  { subst ra1. destruct (decide _); [|reflexivity].
    apply (fold_accumulate_fields (fun a => (adjoint0 * exp (erase a))%E)). }
  rewrite Hb, Hargs, canonicalize_app by exact Hlen. rewrite Hpre. simpl.
  unfold canonicalize_arg. rewrite Hfind. simpl. rewrite Hsolved. reflexivity.
Qed.

(** X11. A node that is both operands of a sum, a difference, a product, a
    quotient, a minimum or a maximum receives the two contributions added
    up, after what it already held; no other entry changes.  For a product
    [a * a] the two contributions evaluate to [d * v + d * v], with [v] the
    value of [a] and [d] the value of the adjoint. *)
Theorem X11_operand_used_twice (op : BinaryOp) (p : addr) (a b : Expr)
    (adjoint r_a r_b : SymExpr) (ra : ReverseAccumulationVisitor) :
  ra_accumulated_adjoints ra !! p = Some adjoint ->
  operand_adjoints op adjoint (erase a) (erase b) = Some (r_a, r_b) ->
  get a = get b ->
  exists ra',
    RA_accept env (MkExpr p (Binary op a b)) ra = Ok ra'
    /\ ra_accumulated_adjoints ra' !! get a
       = Some match ra_accumulated_adjoints ra !! get a with
              | None => (r_a + r_b)%E
              | Some previous => (previous + r_a + r_b)%E
              end
    /\ (forall k, k <> get a ->
          ra_accumulated_adjoints ra' !! k = ra_accumulated_adjoints ra !! k)
    /\ (op = Mul -> a = b -> forall rho v d,
          eval rho (erase a) = Some v -> eval rho adjoint = Some d ->
          eval rho (r_a + r_b)%E = Some (d * v + d * v)%Q).
Proof.
  intros Hadj Hrule Hsame.
  exists (accumulate b r_b (accumulate a r_a ra)). split; [|split; [|split]].
  - destruct op; simpl in Hrule; try discriminate; injection Hrule as <- <-; simpl;
      [unfold RA_visit_Add | unfold RA_visit_Sub | unfold RA_visit_Mul | unfold RA_visit_Div
       | unfold RA_visit_Min | unfold RA_visit_Max];
      unfold adjoint_of; simpl; rewrite Hadj; reflexivity.
  - rewrite Hsame, accumulate_lookup, <- Hsame, accumulate_lookup.
    destruct (ra_accumulated_adjoints ra !! get a); reflexivity.
  - intros k Hk. rewrite accumulate_lookup_ne by congruence.
    apply accumulate_lookup_ne. exact Hk.
  - intros -> <- rho v d Hv Hd. simpl in Hrule. injection Hrule as <- <-.
    simpl. rewrite Hd, Hv. reflexivity.
Qed.

(** X13. The visit of [let x = value in body] hands its adjoint to the
    body and records the binding; from then on the visit of a variable
    named [x] adds its own adjoint, put under the same let, to the entry of
    [value].  A variable with no recorded binding propagates nothing. *)
Theorem X13_let_bound_variable (p : addr) (x : string) (value body : Expr)
    (adjoint : SymExpr) (ra : ReverseAccumulationVisitor) :
  ra_accumulated_adjoints ra !! p = Some adjoint ->
  exists ra1,
    RA_accept env (MkExpr p (Let_ x value body)) ra = Ok ra1
    /\ ra_let_var_mapping ra1 !! x = Some value
    /\ ra_accumulated_adjoints ra1 = ra_accumulated_adjoints (accumulate body adjoint ra)
    /\ (forall q d own,
          ra_accumulated_adjoints ra1 !! q = Some own ->
          RA_accept env (MkExpr q (Variable_ x d)) ra1
          = Ok (accumulate value (Sym (Let_ x (erase value) own)) ra1))
    /\ (forall q y d own (ra2 : ReverseAccumulationVisitor),
          ra_let_var_mapping ra2 !! y = None ->
          ra_accumulated_adjoints ra2 !! q = Some own ->
          RA_accept env (MkExpr q (Variable_ y d)) ra2 = Ok ra2).
Proof.
  intros Hadj. eexists. split; [|split; [|split; [|split]]].
  - simpl. unfold RA_visit_Let, adjoint_of. simpl. rewrite Hadj. reflexivity.
  - simpl. apply lookup_insert_eq.
  - reflexivity.
  - intros q d own Hown. simpl. unfold RA_visit_Variable, adjoint_of. simpl.
    simpl in Hown. rewrite Hown. simpl. rewrite lookup_insert_eq. reflexivity.
  - intros q y d own ra2 Hnone Hown. simpl. unfold RA_visit_Variable, adjoint_of. simpl.
    rewrite Hown. simpl. rewrite Hnone. reflexivity.
Qed.

End LocalRules.

(** ** The three traversals on one program *)

Lemma ES_fold_listed (cs : list Expr) :
  Forall (fun c => forall st n, n ∈ es_expr_list (ES_include c st) ->
                   n ∈ es_expr_list st \/ ES_reach c n) cs ->
  forall st n,
    n ∈ es_expr_list (fold_left (fun s a => ES_include a s) cs st) ->
    n ∈ es_expr_list st \/ exists c, c ∈ cs /\ ES_reach c n.
Proof.
  induction 1 as [|c cs Hc _ IH]; intros st n Hin; simpl in Hin; [left; exact Hin|].
  destruct (IH _ _ Hin) as [Hin1|(c' & Hc' & Hr)].
  - destruct (Hc _ _ Hin1) as [Hst|Hr]; [left; exact Hst|].
    right. exists c. split; [apply elem_of_cons; left; reflexivity | exact Hr].
  - right. exists c'. split; [apply elem_of_cons; right; exact Hc' | exact Hr].
Qed.

Lemma ES_include_listed (e : Expr) :
  forall st n, n ∈ es_expr_list (ES_include e st) -> n ∈ es_expr_list st \/ ES_reach e n.
Proof.
  induction e as [p n0 IH] using Expr_ind'. intros st n Hin. simpl in Hin.
  destruct (decide (p ∈ es_visited st)); [left; exact Hin|]. simpl in Hin.
  apply elem_of_app in Hin as [Hin|Hin].
  - rewrite (ES_accept_children p n0) in Hin.
    apply ES_fold_listed in Hin as [Hin|(c & Hc & Hr)].
    + left. exact Hin.
    + right. exact (ES_reach_from_child (MkExpr p n0) c n Hc Hr).
    + rewrite Forall_forall in IH. apply Forall_forall. intros c Hc.
      apply IH. exact (ES_children_children (MkExpr p n0) c Hc).
  - apply list_elem_of_singleton in Hin as ->. right. apply ES_reach_root.
Qed.

Lemma ES_sort_reach (e n : Expr) : n ∈ ES_sort e -> ES_reach e n.
Proof.
  unfold ES_sort. destruct e as [p n0]. simpl node. intros Hin.
  apply elem_of_app in Hin as [Hin|Hin].
  - rewrite (ES_accept_children p n0) in Hin.
    apply ES_fold_listed in Hin as [Hin|(c & Hc & Hr)].
    + apply elem_of_nil in Hin. contradiction.
    + exact (ES_reach_from_child (MkExpr p n0) c n Hc Hr).
    + apply Forall_forall. intros c _. apply ES_include_listed.
  - apply list_elem_of_singleton in Hin as ->. apply ES_reach_root.
Qed.

Lemma ES_reach_calls (env : gmap string Function) (e n : Expr) (g : Function) :
  ES_reach e n -> calls_outside_args env n g -> calls_outside_args env e g.
Proof.
  induction 1 as [|m c _ IH Hc]; intros Hcalls; [exact Hcalls|].
  apply IH. destruct m as [p n0]. apply (calls_below env p n0 c g).
  - intros x args fn ->. unfold ES_children in Hc. simpl in Hc.
    apply elem_of_nil in Hc. contradiction.
  - exact (ES_children_children (MkExpr p n0) c Hc).
  - exact Hcalls.
Qed.

Section Traversals.
Context `{Externals}.
Variable env : gmap string Function.
Variable root : Expr.
Hypothesis WF : well_formed env root.

(** X14. On a well-formed program, every call of a Halide function that
    the expression sorter lists for the output, or for a stage of a listed
    function, calls a function that the function sorter listed: the reverse
    pass scatters only into functions that got their accumulators. *)
Theorem X14_scatter_targets_are_listed (funcs : list Function) (body : Expr)
    (p : addr) (x : string) (args : list Expr) (k : string) :
  FS_sort env (size env) root = Ok funcs ->
  body = root \/ (exists caller, caller ∈ funcs /\ body ∈ stage_values caller) ->
  MkExpr p (Call x args Halide (Some k)) ∈ ES_sort body ->
  exists func, env !! k = Some func /\ func ∈ funcs.
Proof.
  intros Hsort Hbody Hin.
  destruct (FS_sort_state env root WF) as (st & Hrun & Hinv & Hdone_root).
  rewrite Hrun in Hsort. injection Hsort as <-.
  apply ES_sort_reach in Hin.
  assert (Hnodes : body ∈ program_nodes env root /\ FS_done env st body).
  { destruct Hbody as [->|(caller & Hcaller & Hstage)].
    - split; [apply program_nodes_root, subexprs_self | exact Hdone_root].
    - destruct (fsi_listed _ _ _ _ _ Hinv caller Hcaller) as (_ & Henv & _). split.
      + apply (program_nodes_stage env root _ caller body body Henv Hstage), subexprs_self.
      + apply (fsi_funcs _ _ _ _ _ Hinv caller body Hcaller); [apply not_elem_of_empty|].
        exact Hstage. }
  destruct Hnodes as [Hbody_nodes Hdone].
  assert (Hnode : MkExpr p (Call x args Halide (Some k)) ∈ program_nodes env root).
  { unfold program_nodes in *. apply ES_reach_subexprs in Hin.
    apply elem_of_app in Hbody_nodes as [Hb|Hb]; apply elem_of_app.
    - left. exact (subexprs_trans root body _ Hb Hin).
    - right. apply elem_of_concat_map in Hb as (kf & Hkf & Hb).
      apply elem_of_concat_map in Hb as (b & Hb & Hbb).
      apply elem_of_concat_map. exists kf. split; [exact Hkf|].
      apply elem_of_concat_map. exists b. split; [exact Hb|].
      exact (subexprs_trans b body _ Hbb Hin). }
  destruct (wf_calls _ _ WF _ _ _ _ Hnode) as (k' & func & Hfn & Hk). injection Hfn as <-.
  exists func. split; [exact Hk|].
  apply (FS_closed env root WF st Hinv body func); [|exact Hbody_nodes | exact Hdone].
  apply (ES_reach_calls env body _ func Hin). apply calls_here. exact Hk.
Qed.

(** X15. An error of the bounds inference is the result of the whole pass:
    on a well-formed program whose output is a call of a Halide function,
    when the bounds of the arguments of that call cannot be computed,
    [propagate_adjoints] returns the error of [get_min_max_bounds] and no
    adjoint at all. *)
Theorem X15_bounds_error_aborts_pass (p : addr) (x : string) (args : list Expr) (k : string)
    (err : Error) :
  root = MkExpr p (Call x args Halide (Some k)) ->
  call_arg_bounds args 0 (mkBI 0 ∅ (EmptyString, -1) [] []) = Err err ->
  propagate_adjoints env (size env) root = Err err.
Proof.
  intros Hroot Hargs.
  destruct (FS_sort_state env root WF) as (st & Hrun & Hinv & Hdone).
  assert (Hnode : root ∈ program_nodes env root) by apply program_nodes_root, subexprs_self.
  pose proof Hnode as Hcall. rewrite Hroot in Hcall at 1.
  destruct (wf_calls _ _ WF _ _ _ _ Hcall) as (k' & func & Hfn & Hk). injection Hfn as <-.
  assert (Hin : func ∈ fs_functions st).
  { apply (FS_closed env root WF st Hinv root func); [|exact Hnode | exact Hdone].
    rewrite Hroot. apply calls_here. exact Hk. }
  unfold propagate_adjoints. rewrite Hrun. simpl.
  unfold RA_propagate_adjoints.
  destruct (fs_functions st) as [|f0 fs] eqn:Hfs; [apply elem_of_nil in Hin; contradiction|].
  unfold RA_propagate_output, BI_inference. rewrite Hroot. simpl.
  rewrite Hk. simpl. rewrite Hargs. reflexivity.
Qed.

End Traversals.

(** ** Reduction variables as arguments *)

Lemma find_substitute (r v : string) (replacement e : SymExpr) :
  VariableFinder_find e v = false ->
  VariableFinder_find replacement v = false ->
  VariableFinder_find (substitute r replacement e) v = false.
Proof.
  intros He Hr. revert He.
  induction e as [z|q|t u IHu|y d|o a b IHa IHb|a IHa|c t f IHc IHt IHf|y args ct fn IHargs
                 |y u b IHu IHb] using SymExpr_ind'; simpl; intros He.
  - reflexivity.
  - reflexivity.
  - apply IHu. exact He.
  - destruct (decide (y = r)); [exact Hr | exact He].
  - apply orb_false_iff in He as [Ha Hb]. rewrite IHa, IHb by assumption. reflexivity.
  - apply IHa. exact He.
  - apply orb_false_iff in He as [He Hf]. apply orb_false_iff in He as [Hc Ht].
    rewrite IHc, IHt, IHf by assumption. reflexivity.
  - induction IHargs as [|a args Ha _ IH]; simpl in *; [reflexivity|].
    apply orb_false_iff in He as [Hea Hrest]. rewrite Ha by exact Hea. apply IH. exact Hrest.
  - apply orb_false_iff in He as [Hu Hb]. rewrite IHu by exact Hu. simpl.
    destruct (decide (y = r)); [exact Hb | apply IHb; exact Hb].
Qed.

Section ReductionArguments.
Context `{Externals}.

(** X16. A call whose arguments are reduction variables, met with an
    adjoint that mentions none of the domain variables of the callee:
    canonicalization succeeds whatever the bounds of the stage are, and
    renames, one argument after the other, each reduction variable in the
    adjoint to the domain variable of its position. *)
Theorem X16_reduction_arguments_are_renamed (current_bounds : RDom) (op_args : list Expr)
    (vs : list string) (adjoint : SymExpr) :
  Forall2 (fun arg v => exists r d, node arg = Variable_ r (Some d) /\ r <> v) op_args vs ->
  NoDup vs ->
  (forall v, v ∈ vs -> VariableFinder_find adjoint v = false) ->
  canonicalize current_bounds op_args vs adjoint
  = Ok (fold_left (fun adj av =>
                     match node av.1 with
                     | Variable_ r _ => substitute r (mk_var av.2) adj
                     | _ => adj
                     end) (zip op_args vs) adjoint).
Proof.
  intros Hall. revert adjoint.
  induction Hall as [|arg v op_args vs (r & d & Hnode & Hne) _ IH]; intros adjoint Hnodup Hfree;
    [reflexivity|].
  apply NoDup_cons in Hnodup as [Hfresh Hnodup].
  destruct arg as [p n]. simpl in Hnode. subst n. simpl.
  unfold canonicalize_arg. simpl.
  rewrite bool_decide_eq_false_2 by exact Hne. simpl.
  rewrite (Hfree v) by (apply elem_of_cons; left; reflexivity). simpl.
  apply IH; [exact Hnodup|].
  intros v' Hv'. apply find_substitute.
  - apply Hfree, elem_of_cons. right. exact Hv'.
  - simpl. apply bool_decide_eq_false. intros ->. contradiction.
Qed.

End ReductionArguments.

(** ** The search of a variable and the merge of two bounds *)

(** X17. The test that guards a substitution loses nothing: when
    [VariableFinder::find] does not find the variable in an expression,
    substituting the variable leaves the expression as it is. *)
Theorem X17_absent_variable_substitutes_to_nothing (v : string) (replacement e : SymExpr) :
  VariableFinder_find e v = false -> substitute v replacement e = e.
Proof.
  induction e as [z|q|t u IHu|y d|o a b IHa IHb|a IHa|c t f IHc IHt IHf|y args ct fn IHargs
                 |y u b IHu IHb] using SymExpr_ind'; simpl; intros He.
  - reflexivity.
  - reflexivity.
  - rewrite IHu by exact He. reflexivity.
  - apply bool_decide_eq_false in He. destruct (decide (y = v)); [contradiction | reflexivity].
  - apply orb_false_iff in He as [Ha Hb]. rewrite IHa, IHb by assumption. reflexivity.
  - rewrite IHa by exact He. reflexivity.
  - apply orb_false_iff in He as [He Hf]. apply orb_false_iff in He as [Hc Ht].
    rewrite IHc, IHt, IHf by assumption. reflexivity.
  - f_equal. f_equal. induction IHargs as [|a args Ha _ IH]; simpl in *; [reflexivity|].
    apply orb_false_iff in He as [Hea Hrest]. rewrite Ha by exact Hea. f_equal.
    apply IH. exact Hrest.
  - apply orb_false_iff in He as [Hu Hb]. rewrite IHu by exact Hu.
    destruct (decide (y = v)); [reflexivity|]. rewrite IHb by exact Hb. reflexivity.
Qed.

Section MergedBounds.
Context `{Externals}.

(** X18. Under a simplifier that preserves values, the pair that
    [merge_bounds] makes of two pairs of bounds is an interval that
    contains both: its lower bound is the smaller of the two lower bounds,
    its upper bound the larger of the two upper bounds; and merging the two
    pairs in the other order gives the same numbers. *)
Theorem X18_merge_contains_both (rho : string -> option Q) (bounds0 bounds1 : SymExpr * SymExpr)
    (lo0 hi0 lo1 hi1 : Q) :
  (forall e, eval rho (simplify e) = eval rho e) ->
  eval rho bounds0.1 = Some lo0 -> eval rho bounds0.2 = Some hi0 ->
  eval rho bounds1.1 = Some lo1 -> eval rho bounds1.2 = Some hi1 ->
  exists lo hi lo' hi',
    eval rho (merge_bounds bounds0 bounds1).1 = Some lo
    /\ eval rho (merge_bounds bounds0 bounds1).2 = Some hi
    /\ (lo <= lo0)%Q /\ (lo <= lo1)%Q /\ (hi0 <= hi)%Q /\ (hi1 <= hi)%Q
    /\ ((lo == lo0)%Q \/ (lo == lo1)%Q) /\ ((hi == hi0)%Q \/ (hi == hi1)%Q)
    /\ eval rho (merge_bounds bounds1 bounds0).1 = Some lo'
    /\ eval rho (merge_bounds bounds1 bounds0).2 = Some hi'
    /\ (lo == lo')%Q /\ (hi == hi')%Q.
Proof.
  intros Hsound Hlo0 Hhi0 Hlo1 Hhi1. unfold merge_bounds. simpl.
  rewrite !Hsound. simpl. rewrite Hlo0, Hhi0, Hlo1, Hhi1. simpl.
  exists (if Qle_bool lo0 lo1 then lo0 else lo1), (if Qle_bool hi0 hi1 then hi1 else hi0),
         (if Qle_bool lo1 lo0 then lo1 else lo0), (if Qle_bool hi1 hi0 then hi0 else hi1).
  split; [reflexivity|]. split; [reflexivity|].
  destruct (Qle_bool_cases lo0 lo1) as [[-> ?]|[-> ?]];
    destruct (Qle_bool_cases lo1 lo0) as [[-> ?]|[-> ?]];
    destruct (Qle_bool_cases hi0 hi1) as [[-> ?]|[-> ?]];
    destruct (Qle_bool_cases hi1 hi0) as [[-> ?]|[-> ?]];
    repeat split; try reflexivity; try lra;
    try (left; reflexivity); try (right; reflexivity).
Qed.

End MergedBounds.

(** ** The further properties on programs *)

Lemma X2_bounds_normalised_witness :
  let bi := mkBI 0 {[ ("f", -1) := [(mk_int 0, mk_int 13)] ]} (EmptyString, -1) [] [] in
  exists d,
    get_func_bounds (H := example_externals) bi !! ("f", -1) = Some d
    /\ length d = 1%nat
    /\ rdom_to_vector d = [(mk_int 0, (mk_int 13 - mk_int 0 + mk_int 1)%E)].
Proof.
  intros bi.
  destruct (X2_bounds_normalised (H := example_externals) bi ("f", -1)
              [(mk_int 0, mk_int 13)] ltac:(vm_compute; reflexivity))
    as (d & Hd & Hlen & Hvec & _).
  exists d. split; [exact Hd|]. split; [exact Hlen | exact Hvec].
Defined.

(** The inference of [test_simple_bounds_inference_update] ends in the
    context it began with. *)
Lemma X3_inference_restores_context_witness :
  exists bi',
    BI_inference (H := example_externals) update_env 2 update_loss = Ok bi'
    /\ BI_frame (mkBI 0 ∅ (EmptyString, -1) [] []) bi'.
Proof.
  destruct (BI_inference (H := example_externals) update_env 2 update_loss) as [bi'|err] eqn:E.
  - exists bi'. split; [reflexivity|].
    exact (X3_inference_restores_context (H := example_externals) update_env 2 update_loss
             _ bi' E).
  - vm_compute in E. discriminate E.
Defined.

(** [f(x) = 0; f(x) += 1] read at [f(0)]: both stages of [f] get bounds. *)
Lemma X4_bounds_cover_reachable_witness :
  exists bi,
    BI_inference (H := example_externals) counter_env 1 counter_root = Ok bi
    /\ BI_covers (bi_func_bounds bi) counter_f.
Proof.
  destruct (BI_inference (H := example_externals) counter_env 1 counter_root) as [bi|err] eqn:E.
  - exists bi. split; [reflexivity|].
    apply (X4_bounds_cover_reachable (H := example_externals) counter_env
             (wf_names _ _ counter_well_formed) 1 counter_root bi counter_f).
    + vm_compute. reflexivity.
    + exact E.
    + apply reachable_root. apply calls_here. vm_compute. reflexivity.
  - vm_compute in E. discriminate E.
Defined.

Lemma X5_sorted_functions_have_bounds_witness :
  exists bi,
    BI_inference (H := example_externals) counter_env 1 counter_root = Ok bi
    /\ BI_covers (get_func_bounds (H := example_externals) bi) counter_f.
Proof.
  destruct (BI_inference (H := example_externals) counter_env 1 counter_root) as [bi|err] eqn:E.
  - exists bi. split; [reflexivity|].
    apply (X5_sorted_functions_have_bounds (H := example_externals) counter_env counter_root
             counter_well_formed 1 [counter_f] bi counter_f).
    + vm_compute. reflexivity.
    + vm_compute. reflexivity.
    + exact E.
    + apply list_elem_of_here.
  - vm_compute in E. discriminate E.
Defined.

(** The walk of [x + y] with the adjoint 1. *)
Lemma X6_walk_keeps_context_witness :
  let ra := mkRA {[ 3%positive := mk_float 1 ]} ∅ ∅ ∅ (EmptyString, 0) [] in
  let l := [e_bin 3 Add (e_var 1 "x") (e_var 2 "y")] in
  exists ra', foldM (RA_accept (H := example_externals) ∅) l ra = Ok ra' /\ RA_frame ra ra'.
Proof.
  intros ra l.
  destruct (foldM (RA_accept (H := example_externals) ∅) l ra) as [ra'|err] eqn:E.
  - exists ra'. split; [reflexivity|].
    exact (X6_walk_keeps_context (H := example_externals) ∅ l ra ra' E).
  - vm_compute in E. discriminate E.
Defined.

(** The whole pass on [f(x) = 0; f(x) += 1] read at [f(0)]. *)
Lemma X7_listed_functions_get_adjoints_witness :
  exists m,
    propagate_adjoints (H := example_externals) counter_env 1 counter_root = Ok m
    /\ is_Some (m !! "f").
Proof.
  destruct (propagate_adjoints (H := example_externals) counter_env 1 counter_root)
    as [m|err] eqn:E.
  - exists m. split; [reflexivity|].
    destruct (X7_listed_functions_get_adjoints (H := example_externals) counter_env 1
                counter_root m E) as (funcs & Hsort & Hall).
    apply (Hall counter_f).
    vm_compute in Hsort. injection Hsort as <-. apply list_elem_of_here.
  - vm_compute in E. discriminate E.
Defined.

Lemma X9_no_function_no_adjoint_witness :
  let output := e_bin 3 Add (e_var 1 "x") (e_float 2 1) in
  FS_sort counter_env 1 output = Ok []
  /\ propagate_adjoints (H := example_externals) counter_env 1 output = Ok ∅.
Proof.
  intros output.
  apply (X9_no_function_no_adjoint (H := example_externals) counter_env 1 output).
  intros p x args fn Hin.
  change (subexprs output) with [output; e_var 1 "x"; e_float 2 1] in Hin.
  split_elem Hin; discriminate Hin.
Defined.

(** [g(x * x)]: the example solver does not invert a product. *)
Lemma X10_unsolved_index_is_fatal_witness :
  let ra := mkRA {[ 2%positive := mk_float 1 ]} ∅ ∅ ∅ (EmptyString, 0) [] in
  RA_accept (H := example_externals) square_env square_root ra
  = Err (internal_error "Can't solve the inverse").
Proof.
  intros ra.
  apply (X10_unsolved_index_is_fatal (H := example_externals) square_env 2%positive "g" []
           [] (e_bin 3 Mul (e_var 4 "x") (e_var 5 "x")) Halide "g"
           (mkFunction "g" ["x"] (e_float 1 0) []) [] [] "x" (mk_float 1) (mk_float 1) ra);
    vm_compute; reflexivity.
Defined.

(** [x * x], the two operands being one node. *)
Lemma X11_operand_used_twice_witness :
  let x := e_var 1 "x" in
  let ra := mkRA {[ 2%positive := mk_float 1 ]} ∅ ∅ ∅ (EmptyString, 0) [] in
  exists ra',
    RA_accept (H := example_externals) ∅ (e_bin 2 Mul x x) ra = Ok ra'
    /\ ra_accumulated_adjoints ra' !! 1%positive
       = Some (mk_float 1 * mk_var "x" + mk_float 1 * mk_var "x")%E.
Proof.
  intros x ra.
  destruct (X11_operand_used_twice (H := example_externals) ∅ Mul 2%positive x x (mk_float 1)
              (mk_float 1 * mk_var "x")%E (mk_float 1 * mk_var "x")%E ra
              ltac:(vm_compute; reflexivity) eq_refl eq_refl)
    as (ra' & Hrun & Hentry & _).
  exists ra'. split; [exact Hrun | exact Hentry].
Defined.

Lemma X12_stubs_of_all_stages_witness :
  let ra := mkRA ∅ ∅ ∅ ∅ (EmptyString, 0) [] in
  ra_adjoint_funcs (create_stubs [counter_f] ra) !! ("f", 0)
  = Some (mkFunc "f_1_d__" ["x"] (Some (mk_float 0)) []).
Proof.
  intros ra.
  refine (proj1 (X12_stubs_of_all_stages [counter_f] ra counter_f 0 _ _ _)).
  - apply NoDup_singleton.
  - apply list_elem_of_here.
  - unfold num_update_definitions. simpl. lia.
Defined.

(** [let y = 2 in y]. *)
Lemma X13_let_bound_variable_witness :
  let value := e_float 1 2 in
  let ra := mkRA {[ 3%positive := mk_float 1 ]} ∅ ∅ ∅ (EmptyString, 0) [] in
  exists ra1,
    RA_accept (H := example_externals) ∅ (MkExpr 3 (Let_ "y" value (e_var 2 "y"))) ra = Ok ra1
    /\ ra_let_var_mapping ra1 !! "y" = Some value.
Proof.
  intros value ra.
  destruct (X13_let_bound_variable (H := example_externals) ∅ 3%positive "y" value
              (e_var 2 "y") (mk_float 1) ra ltac:(vm_compute; reflexivity))
    as (ra1 & Hrun & Hmap & _).
  exists ra1. split; [exact Hrun | exact Hmap].
Defined.

Lemma X14_scatter_targets_are_listed_witness :
  exists func, counter_env !! "f" = Some func /\ func ∈ [counter_f].
Proof.
  apply (X14_scatter_targets_are_listed counter_env counter_root counter_well_formed
           [counter_f] counter_root 6%positive "f" [e_int 7 0] "f").
  - vm_compute. reflexivity.
  - left. reflexivity.
  - vm_compute. apply list_elem_of_here.
Defined.

Lemma square_nodes :
  program_nodes square_env square_root
  = [square_root; e_bin 3 Mul (e_var 4 "x") (e_var 5 "x"); e_var 4 "x"; e_var 5 "x";
     e_float 1 0].
Proof. vm_compute. reflexivity. Qed.

Lemma square_well_formed : well_formed square_env square_root.
Proof.
  split.
  - intros k func Hk. unfold square_env in Hk.
    apply lookup_singleton_Some in Hk as [<- <-]. reflexivity.
  - intros p x args fn Hin. rewrite square_nodes in Hin.
    split_elem Hin; try discriminate Hin; injection Hin as -> -> -> ->;
      exists "g"; eexists; (split; [reflexivity | vm_compute; reflexivity]).
  - rewrite square_nodes. solve_consistent.
Qed.

(** The pass on [g(x * x)] ends with the error of the bounds. *)
Lemma X15_bounds_error_aborts_pass_witness :
  propagate_adjoints (H := example_externals) square_env (size square_env) square_root
  = Err unhandled.
Proof.
  apply (X15_bounds_error_aborts_pass (H := example_externals) square_env square_root
           square_well_formed 2%positive "g" [e_bin 3 Mul (e_var 4 "x") (e_var 5 "x")] "g").
  - reflexivity.
  - vm_compute. reflexivity.
Defined.

(** The arguments of the output [f(r.x, r.y)] of the source's tests. *)
Lemma X16_reduction_arguments_are_renamed_witness :
  canonicalize (H := example_externals) []
    [e_rvar 11 "r4$x" (rdom2 4 4); e_rvar 12 "r4$y" (rdom2 4 4)] ["x"; "y"]
    (mk_var "r4$x" + mk_var "r4$y")%E
  = Ok (mk_var "x" + mk_var "y")%E.
Proof.
  apply (X16_reduction_arguments_are_renamed (H := example_externals) []
           [e_rvar 11 "r4$x" (rdom2 4 4); e_rvar 12 "r4$y" (rdom2 4 4)] ["x"; "y"]
           (mk_var "r4$x" + mk_var "r4$y")%E).
  - repeat constructor; eexists; eexists; (split; [reflexivity | discriminate]).
  - repeat constructor; intros Hin; split_elem Hin; discriminate Hin.
  - intros v Hv. split_elem Hv; subst; vm_compute; reflexivity.
Defined.

Lemma X17_absent_variable_substitutes_to_nothing_witness :
  substitute "x" (mk_int 7) (mk_var "y" + mk_int 1)%E = (mk_var "y" + mk_int 1)%E.
Proof.
  apply (X17_absent_variable_substitutes_to_nothing "x" (mk_int 7) (mk_var "y" + mk_int 1)%E).
  vm_compute. reflexivity.
Defined.

(** The bounds [0, 13] and [1, 15] of two call sites. *)
Lemma X18_merge_contains_both_witness :
  exists lo hi,
    eval (fun _ => None)
         (merge_bounds (H := example_externals) (mk_int 0, mk_int 13) (mk_int 1, mk_int 15)).1
    = Some lo
    /\ eval (fun _ => None)
            (merge_bounds (H := example_externals) (mk_int 0, mk_int 13) (mk_int 1, mk_int 15)).2
       = Some hi
    /\ (lo <= 0)%Q /\ (15 <= hi)%Q.
Proof.
  destruct (X18_merge_contains_both (H := example_externals) (fun _ => None)
              (mk_int 0, mk_int 13) (mk_int 1, mk_int 15) 0 13 1 15
              (fun e => eq_refl) eq_refl eq_refl eq_refl eq_refl)
    as (lo & hi & _ & _ & Hlo & Hhi & Hle & _ & _ & Hge & _).
  exists lo, hi. repeat split; assumption.
Defined.
